(** * The "use cache" directive engine of the server runtime

    A shallow embedding of the cache wrapper (use-cache-wrapper: the
    functions [generateCacheEntryWithCacheContext],
    [propagateCacheLifeAndTags], [collectResult], [generateCacheEntryImpl],
    [cloneCacheEntry], [encodeFormData], [createTrackedReadableStream],
    [cache], [isPageComponent], [isLayoutComponent], [shouldForceRevalidate],
    [shouldDiscardCacheEntry] and [isRecentlyRevalidatedTag]) and of the
    checks of the server-action handler that precede an action
    ([limitUntrustedHeaderValueForLogs], [parseHostHeader], the origin check
    and the size limit of [handleAction], [getActionIdFromReactError]),
    together with the properties the specification states about them and
    further properties read off the code.

    Conventions of the embedding.
    - JavaScript numbers that hold times (milliseconds) and cache-life
      windows (seconds) are integers of [Z]; the one place where the source
      tests for [Infinity] has a type of its own ([Expiration]).
    - A JavaScript string is the list of its UTF-16 code units.
    - Objects that the source mutates or shares (cache entries, their tag
      arrays, streams, resume-data-cache maps) live in an explicit store and
      are denoted by references.
    - An asynchronous call is run to quiescence: the model of one invocation
      performs the effects of every continuation the invocation schedules. *)

From stdpp Require Import gmap strings list fin_maps.
From Stdlib Require Import ZArith NArith Lia.
From Stdlib Require Import HexadecimalN.

Local Open Scope Z_scope.

(** ** Data model *)

Abbreviation Tag := string (only parsing).

(** The discriminant of a work-unit store.  The engine names five kinds;
    every other kind behaves alike and is [TOther]. *)
Inductive WorkUnitType :=
| TRequest
| TCache
| TPrerender
| TPrerenderPPR
| TPrerenderLegacy
| TOther.

#[global] Instance WorkUnitType_eq_dec : EqDecision WorkUnitType.
Proof. solve_decision. Defined.

(** [CacheEntry] of cache-handlers/types, over the representation [S] of the
    value stream and [T] of the tag array: references for the objects of the
    store, plain lists where a function only reads the tags. *)
Record CacheEntryOf (S T : Type) := mkEntry {
  value : S;
  timestamp : Z;
  revalidate : Z;
  expire : Z;
  stale : Z;
  tags : T
}.
Arguments mkEntry {S T}.
Arguments value {S T}.
Arguments timestamp {S T}.
Arguments revalidate {S T}.
Arguments expire {S T}.
Arguments stale {S T}.
Arguments tags {S T}.

(** What [expirationsByCacheKind.get(kind)] resolves to: a time, or
    [Infinity]. *)
Inductive Expiration :=
| Finite (t : Z)
| Infinity.

Record ImplicitTags := mkImplicitTags {
  it_tags : list Tag;
  (** [expirationsByCacheKind.get(kind)], awaited *)
  it_expiration : option Expiration
}.

(** The fields of a work-unit store that the engine reads or writes.  The
    source type is a union discriminated by [type]; a field that a kind
    does not have is never read for that kind. *)
Record WorkUnitStore := mkWorkUnitStore {
  wu_type : WorkUnitType;
  wu_tags : option (list Tag);
  wu_stale : Z;
  wu_revalidate : Z;
  wu_expire : Z;
  wu_implicitTags : option ImplicitTags;
  (** prerender: [cacheSignal] is not null *)
  wu_cacheSignal : bool;
  wu_allowEmptyStaticShell : bool;
  (** cache: [forceRevalidate] *)
  wu_forceRevalidate : bool;
  (** request: [headers.get('cache-control') === 'no-cache'] *)
  wu_noCacheHeader : bool;
  (** what [getRenderResumeDataCache] and [getPrerenderResumeDataCache]
      return for the store: references to maps of the object store *)
  wu_renderResumeDataCache : option nat;
  wu_prerenderResumeDataCache : option nat
}.

Definition set_life (w : WorkUnitStore) (tg : option (list Tag)) (s r e : Z)
  : WorkUnitStore :=
  {| wu_type := wu_type w;
     wu_tags := tg;
     wu_stale := s;
     wu_revalidate := r;
     wu_expire := e;
     wu_implicitTags := wu_implicitTags w;
     wu_cacheSignal := wu_cacheSignal w;
     wu_allowEmptyStaticShell := wu_allowEmptyStaticShell w;
     wu_forceRevalidate := wu_forceRevalidate w;
     wu_noCacheHeader := wu_noCacheHeader w;
     wu_renderResumeDataCache := wu_renderResumeDataCache w;
     wu_prerenderResumeDataCache := wu_prerenderResumeDataCache w |}.

(** ** Freshness propagation *)

(** The guard of [propagateCacheLifeAndTags]: a cache scope or a prerender
    of any variant. *)
Definition receivesCacheLife (t : WorkUnitType) : bool :=
  match t with
  | TCache | TPrerender | TPrerenderPPR | TPrerenderLegacy => true
  | TRequest | TOther => false
  end.

(** The loop over [entryTags]: push every tag the outer array does not
    include yet. *)
Fixpoint pushMissingTags (outerTags entryTags : list Tag) : list Tag :=
  match entryTags with
  | [] => outerTags
  | tag :: rest =>
      pushMissingTags
        (if bool_decide (tag ∈ outerTags) then outerTags else outerTags ++ [tag])
        rest
  end.

(** [workUnitStore.tags ?? (workUnitStore.tags = [])] *)
Definition tagsOrEmpty (w : WorkUnitStore) : list Tag :=
  default [] (wu_tags w).

Definition propagateCacheLifeAndTags {S : Type}
    (workUnitStore : option WorkUnitStore) (entry : CacheEntryOf S (list Tag))
  : option WorkUnitStore :=
  match workUnitStore with
  | Some w =>
      if receivesCacheLife (wu_type w) then
        let outerTags := pushMissingTags (tagsOrEmpty w) (tags entry) in
        let s := if wu_stale w >? stale entry then stale entry else wu_stale w in
        let r := if wu_revalidate w >? revalidate entry
                 then revalidate entry else wu_revalidate w in
        let e := if wu_expire w >? expire entry then expire entry else wu_expire w in
        Some (set_life w (Some outerTags) s r e)
      else Some w
  | None => None
  end.

(** Propagating the entries of a list one after the other, first to last. *)
Definition propagateAll {S : Type}
    (workUnitStore : option WorkUnitStore)
    (entries : list (CacheEntryOf S (list Tag))) : option WorkUnitStore :=
  foldl propagateCacheLifeAndTags workUnitStore entries.

(** ** Cache key encoding *)

(** A JavaScript string as the list of its UTF-16 code units; [length] of the
    source is the number of code units. *)
Abbreviation JsString := (list N) (only parsing).

Definition strLength (s : JsString) : N := N.of_nat (length s).

(** The characters of the lower-case hexadecimal numeral. *)
Fixpoint hexChars (u : Hexadecimal.uint) : JsString :=
  match u with
  | Hexadecimal.Nil => []
  | Hexadecimal.D0 u => 48%N :: hexChars u
  | Hexadecimal.D1 u => 49%N :: hexChars u
  | Hexadecimal.D2 u => 50%N :: hexChars u
  | Hexadecimal.D3 u => 51%N :: hexChars u
  | Hexadecimal.D4 u => 52%N :: hexChars u
  | Hexadecimal.D5 u => 53%N :: hexChars u
  | Hexadecimal.D6 u => 54%N :: hexChars u
  | Hexadecimal.D7 u => 55%N :: hexChars u
  | Hexadecimal.D8 u => 56%N :: hexChars u
  | Hexadecimal.D9 u => 57%N :: hexChars u
  | Hexadecimal.Da u => 97%N :: hexChars u
  | Hexadecimal.Db u => 98%N :: hexChars u
  | Hexadecimal.Dc u => 99%N :: hexChars u
  | Hexadecimal.Dd u => 100%N :: hexChars u
  | Hexadecimal.De u => 101%N :: hexChars u
  | Hexadecimal.Df u => 102%N :: hexChars u
  end.

(** [n.toString(16)] for a non-negative integer [n]. *)
Definition toString16 (n : N) : JsString := hexChars (N.to_hex_uint n).

(** The code unit of [':'] *)
Definition colon : N := 58%N.

(** [String.fromCodePoint(cp)]: one code unit below 0x10000, a surrogate
    pair above. *)
Definition fromCodePoint (cp : N) : JsString :=
  if (cp <? 65536)%N then [cp]
  else [(55296 + (cp - 65536) / 1024)%N; (56320 + (cp - 65536) mod 1024)%N].

Definition fromCodePoints (cps : list N) : JsString :=
  concat (fromCodePoint <$> cps).

(** The elements that a [Uint16Array] over the whole buffer shows (two bytes
    each, the low byte first as on the little-endian hosts the runtime
    supports); a last byte without a partner is outside the view. *)
Fixpoint uint16View (arrayBuffer : list Byte.byte) : list N :=
  match arrayBuffer with
  | lo :: hi :: rest => (Byte.to_N lo + 256 * Byte.to_N hi)%N :: uint16View rest
  | _ => []
  end.

(** The branch of [encodeFormData] for a value that is not a string. *)
Definition binaryToString (arrayBuffer : list Byte.byte) : JsString :=
  let byteLength := length arrayBuffer in
  if (byteLength mod 2 =? 0)%nat then
    fromCodePoints (uint16View arrayBuffer)
  else
    fromCodePoints (take ((byteLength - 1) / 2)%nat (uint16View arrayBuffer))
    ++ fromCodePoint
         (Byte.to_N (default Byte.x00 (arrayBuffer !! (byteLength - 1)%nat))).

(** A value of a [FormData] entry: a string, or a file given by the bytes of
    its [arrayBuffer()]. *)
Inductive FormDataEntryValue :=
| FormString (s : JsString)
| FormFile (arrayBuffer : list Byte.byte).

Definition stringValue (value : FormDataEntryValue) : JsString :=
  match value with
  | FormString s => s
  | FormFile arrayBuffer => binaryToString arrayBuffer
  end.

Abbreviation FormData := (list (JsString * FormDataEntryValue)) (only parsing).

(** One turn of the loop of [encodeFormData]: the two [result +=]. *)
Definition encodeEntry (result : JsString) (entry : JsString * FormDataEntryValue)
  : JsString :=
  let '(key, value) := entry in
  let result := result ++ toString16 (strLength key) ++ [colon] ++ key in
  let stringValue := stringValue value in
  result ++ toString16 (strLength stringValue) ++ [colon] ++ stringValue.

Definition encodeFormData (formData : FormData) : JsString :=
  foldl encodeEntry [] formData.

(** The (name, stringified value) pairs of a form. *)
Definition stringified (formData : FormData) : list (JsString * JsString) :=
  (λ entry, (entry.1, stringValue entry.2)) <$> formData.

(** ** The work store and the revalidated tags *)

Inductive JsError :=
| UseCacheTimeoutError
| OtherError (message : string).

(** A write that [workStore.pendingRevalidateWrites] holds: the promise of
    [cacheHandler.set(key, pendingEntry)]. *)
Record PendingWrite := mkPendingWrite {
  pw_key : JsString;
  pw_entry : option nat
}.

(** The default profile of [workStore.cacheLifeProfiles].  The source throws
    when the profile is missing or incomplete and calls that a bug of the
    framework; the embedding takes a work store that has it. *)
Record CacheLife := mkCacheLife {
  cl_stale : Z;
  cl_revalidate : Z;
  cl_expire : Z
}.

Record WorkStore := mkWorkStore {
  isStaticGeneration : bool;
  isDraftMode : bool;
  isOnDemandRevalidate : bool;
  dev : bool;
  previouslyRevalidatedTags : list Tag;
  pendingRevalidatedTags : option (list Tag);
  pendingRevalidateWrites : option (list PendingWrite);
  invalidDynamicUsageError : option JsError;
  defaultCacheLife : CacheLife
}.

Definition isRecentlyRevalidatedTag (tag : Tag) (workStore : WorkStore) : bool :=
  if bool_decide (tag ∈ previouslyRevalidatedTags workStore) then true
  else if match pendingRevalidatedTags workStore with
          | Some pending => bool_decide (tag ∈ pending)
          | None => false
          end then true
  else false.

Definition shouldDiscardCacheEntry {S : Type}
    (entry : CacheEntryOf S (list Tag)) (workStore : WorkStore)
    (implicitTags : list Tag) (implicitTagsExpiration : Z) : bool :=
  if existsb (λ tag, isRecentlyRevalidatedTag tag workStore) (tags entry) then true
  else if timestamp entry <=? implicitTagsExpiration then true
  else if existsb (λ tag, isRecentlyRevalidatedTag tag workStore) implicitTags then true
  else false.

Definition shouldForceRevalidate (workStore : WorkStore)
    (workUnitStore : option WorkUnitStore) : bool :=
  if isOnDemandRevalidate workStore || isDraftMode workStore then true
  else
    match workUnitStore with
    | Some w =>
        if dev workStore then
          match wu_type w with
          | TRequest => wu_noCacheHeader w
          | TCache => wu_forceRevalidate w
          | _ => false
          end
        else false
    | None => false
    end.

(** [workUnitStore?.implicitTags?.tags ?? []] *)
Definition implicitTagsOf (workUnitStore : option WorkUnitStore) : list Tag :=
  match workUnitStore with
  | Some w =>
      match wu_implicitTags w with
      | Some it => it_tags it
      | None => []
      end
  | None => []
  end.

(** The computation of [implicitTagsExpiration] in [cache]: 0 unless the
    implicit tags carry a finite expiration for the handler's kind. *)
Definition implicitTagsExpirationOf (workUnitStore : option WorkUnitStore) : Z :=
  match workUnitStore with
  | Some w =>
      match wu_implicitTags w with
      | Some it =>
          match it_expiration it with
          | Some (Finite expiration) => expiration
          | Some Infinity => 0
          | None => 0
          end
      | None => 0
      end
  | None => 0
  end.

(** Modelled from the spec: the constant [DYNAMIC_EXPIRE] of the module
    constants, which is not among the sources; the "fixed low-freshness
    floor, default threshold five minutes-equivalent", in seconds. *)
Definition DYNAMIC_EXPIRE : Z := 300.

(** ** The object store: streams, entries, tag arrays, resume data caches *)

Abbreviation Chunk := (list Byte.byte) (only parsing).

(** How reading a stream to its end turns out: it closes, it errors, or the
    read stays pending for ever. *)
Inductive StreamEnd :=
| Closed
| Errored (reason : JsError)
| Pending.

(** A [ReadableStream]: what a reader gets from it, whether a reader or a tee
    has locked it, and whether it is the wrapper that
    [createTrackedReadableStream] builds. *)
Record Stream := mkStream {
  chunks : list Chunk;
  ending : StreamEnd;
  locked : bool;
  tracked : bool
}.

Abbreviation CacheEntry := (CacheEntryOf nat nat) (only parsing).

Inductive Event :=
| BeginRead
| EndRead
| HandlerGet (key : JsString) (softTags : list Tag)
| HandlerSet (key : JsString) (pendingEntry : option nat)
| Generate (outerWorkUnitStore : option WorkUnitType)
| ResumeDataCacheSet (cache : nat) (key : JsString) (pendingEntry : option nat).

(** The state an invocation runs in.  A resume data cache maps a key to the
    promise of an entry: [Some e] resolves to the entry object [e], [None]
    never resolves. *)
Record State := mkState {
  streams : gmap nat Stream;
  entries : gmap nat CacheEntry;
  arrays : gmap nat (list Tag);
  resumeDataCaches : gmap nat (gmap JsString (option nat));
  workStore : WorkStore;
  workUnitStore : option WorkUnitStore;
  log : list Event
}.

Definition set_streams (st : State) (s : gmap nat Stream) : State :=
  mkState s (entries st) (arrays st) (resumeDataCaches st)
          (workStore st) (workUnitStore st) (log st).

Definition set_entries (st : State) (e : gmap nat CacheEntry) : State :=
  mkState (streams st) e (arrays st) (resumeDataCaches st)
          (workStore st) (workUnitStore st) (log st).

Definition set_arrays (st : State) (a : gmap nat (list Tag)) : State :=
  mkState (streams st) (entries st) a (resumeDataCaches st)
          (workStore st) (workUnitStore st) (log st).

Definition set_resumeDataCaches (st : State)
    (r : gmap nat (gmap JsString (option nat))) : State :=
  mkState (streams st) (entries st) (arrays st) r
          (workStore st) (workUnitStore st) (log st).

Definition set_workStore (st : State) (w : WorkStore) : State :=
  mkState (streams st) (entries st) (arrays st) (resumeDataCaches st)
          w (workUnitStore st) (log st).

Definition set_workUnitStore (st : State) (w : option WorkUnitStore) : State :=
  mkState (streams st) (entries st) (arrays st) (resumeDataCaches st)
          (workStore st) w (log st).

Definition emit (ev : Event) (st : State) : State :=
  mkState (streams st) (entries st) (arrays st) (resumeDataCaches st)
          (workStore st) (workUnitStore st) (log st ++ [ev]).

(** A reference that the map does not use yet. *)
Definition newRef {A : Type} (m : gmap nat A) : nat := fresh (dom m).

Definition newStream (s : Stream) (st : State) : nat * State :=
  let r := newRef (streams st) in
  (r, set_streams st (<[r := s]> (streams st))).

Definition lockStream (r : nat) (st : State) : State :=
  set_streams st (alter (λ s, mkStream (chunks s) (ending s) true (tracked s)) r (streams st)).

(** What a reader of the stream [r] gets. *)
Definition contentOf (r : nat) (st : State) : list Chunk * StreamEnd :=
  match streams st !! r with
  | Some s => (chunks s, ending s)
  | None => ([], Closed)
  end.

(** Whether the stream [r] is a wrapper of [createTrackedReadableStream]. *)
Definition trackedOf (r : nat) (st : State) : bool :=
  default false (tracked <$> streams st !! r).

(** [stream.tee()]: the stream is locked and two new streams replay it. *)
Definition tee (r : nat) (st : State) : (nat * nat) * State :=
  let content := contentOf r st in
  let st := lockStream r st in
  let a := newStream (mkStream content.1 content.2 false false) st in
  let b := newStream (mkStream content.1 content.2 false false) a.2 in
  ((a.1, b.1), b.2).

Definition createTrackedReadableStream (stream : nat) (st : State) : nat * State :=
  let content := contentOf stream st in
  let st := lockStream stream st in
  newStream (mkStream content.1 content.2 false true) st.

Definition cloneCacheEntry (entry : nat) (st : State) : (nat * nat) * State :=
  match entries st !! entry with
  | Some e =>
      let split := tee (value e) st in
      let streamA := split.1.1 in
      let streamB := split.1.2 in
      let st := split.2 in
      let st :=
        set_entries st
          (<[entry := mkEntry streamA (timestamp e) (revalidate e) (expire e)
                              (stale e) (tags e)]> (entries st)) in
      let clonedEntry :=
        mkEntry streamB (timestamp e) (revalidate e) (expire e) (stale e) (tags e) in
      let r := newRef (entries st) in
      ((entry, r), set_entries st (<[r := clonedEntry]> (entries st)))
  | None => ((entry, entry), st)
  end.

Definition newArray (a : list Tag) (st : State) : nat * State :=
  let r := newRef (arrays st) in
  (r, set_arrays st (<[r := a]> (arrays st))).

Definition newEntry (e : CacheEntry) (st : State) : nat * State :=
  let r := newRef (entries st) in
  (r, set_entries st (<[r := e]> (entries st))).

(** The entry object [r] with its tag array read out; a reference that
    denotes no object reads as [undefined]. *)
Definition viewEntry (r : nat) (st : State) : option (CacheEntryOf nat (list Tag)) :=
  e ← entries st !! r;
  Some (mkEntry (value e) (timestamp e) (revalidate e) (expire e) (stale e)
                (default [] (arrays st !! tags e))).

(** [cache.set(key, pendingEntry)] on the resume data cache [c]. *)
Definition resumeDataCacheSet (c : nat) (key : JsString) (pendingEntry : option nat)
    (st : State) : State :=
  let m := default ∅ (resumeDataCaches st !! c) in
  emit (ResumeDataCacheSet c key pendingEntry)
       (set_resumeDataCaches st (<[c := <[key := pendingEntry]> m]> (resumeDataCaches st))).

(** [cache.get(key)] on the resume data cache [c]. *)
Definition resumeDataCacheGet (c : nat) (key : JsString) (st : State)
  : option (option nat) :=
  m ← resumeDataCaches st !! c; m !! key.

(** [workStore.pendingRevalidateWrites ??= []] and the [push]. *)
Definition pushPendingWrite (p : PendingWrite) (st : State) : State :=
  let w := workStore st in
  set_workStore st
    (mkWorkStore (isStaticGeneration w) (isDraftMode w) (isOnDemandRevalidate w)
       (dev w) (previouslyRevalidatedTags w) (pendingRevalidatedTags w)
       (Some (default [] (pendingRevalidateWrites w) ++ [p]))
       (invalidDynamicUsageError w) (defaultCacheLife w)).

Definition setInvalidDynamicUsageError (err : JsError) (st : State) : State :=
  let w := workStore st in
  set_workStore st
    (mkWorkStore (isStaticGeneration w) (isDraftMode w) (isOnDemandRevalidate w)
       (dev w) (previouslyRevalidatedTags w) (pendingRevalidatedTags w)
       (pendingRevalidateWrites w) (Some err) (defaultCacheLife w)).

(** The cache signal of the work-unit store:
    [workUnitStore && workUnitStore.type === 'prerender'
       ? workUnitStore.cacheSignal : null], as "is not null". *)
Definition cacheSignalOf (workUnitStore : option WorkUnitStore) : bool :=
  match workUnitStore with
  | Some w => bool_decide (wu_type w = TPrerender) && wu_cacheSignal w
  | None => false
  end.

Definition isPrerender (workUnitStore : option WorkUnitStore) : bool :=
  match workUnitStore with
  | Some w => bool_decide (wu_type w = TPrerender)
  | None => false
  end.

(** ** Entry generation *)

(** The [UseCacheStore] that a generation runs its function in. *)
Record UseCacheStore := mkUseCacheStore {
  cs_implicitTags : option ImplicitTags;
  cs_revalidate : Z;
  cs_expire : Z;
  cs_stale : Z;
  cs_explicitRevalidate : option Z;
  cs_explicitExpire : option Z;
  cs_explicitStale : option Z;
  cs_tags : option (list Tag);
  cs_forceRevalidate : bool
}.

(** What the environment decides about one run of the cached function: the
    render of its result, and when things happen, in milliseconds after the
    start of the render ([None]: never). *)
Record Rendering := mkRendering {
  (** [performance.timeOrigin + performance.now()] at the start *)
  r_startTime : Z;
  (** what the body of the function does to its cache store ([cacheLife],
      [cacheTag], nested cached calls) *)
  r_body : UseCacheStore → UseCacheStore;
  (** the chunks that the render emits *)
  r_chunks : list Chunk;
  (** the error that the render's stream ends with, if it does *)
  r_fatal : option JsError;
  (** the errors that [handleError] pushes: those passed to [onError] that
      have no well-known digest *)
  r_reported : list JsError;
  (** when the render has produced all of its output *)
  r_completesAt : option Z;
  (** when the dynamic-access signal of the generation aborts *)
  r_dynamicAccessAt : option Z;
  (** when the render signal of the enclosing prerender aborts *)
  r_renderAbortAt : option Z
}.

(** The delay of the [setTimeout] in [generateCacheEntryImpl]. *)
Definition USE_CACHE_TIMEOUT : Z := 50000.

(** [a] happens, and not after [b]. *)
Definition notAfter (a b : option Z) : bool :=
  match a, b with
  | Some x, Some y => x <=? y
  | Some _, None => true
  | None, _ => false
  end.

(** What puts an end to the wait for [prerender]: the render completes, or
    one of the three signals of [AbortSignal.any] aborts; among the signals
    the timer's is the one of [timeoutAbortController].  Events at the same
    instant are taken in the order completion, dynamic access, render abort,
    timer. *)
Inductive PrerenderEnd :=
| ByCompletion
| ByDynamicAccess
| ByRenderAbort
| ByTimeout.

#[global] Instance PrerenderEnd_eq_dec : EqDecision PrerenderEnd.
Proof. solve_decision. Defined.

Definition prerenderEnd (r : Rendering) : PrerenderEnd :=
  let timer := Some USE_CACHE_TIMEOUT in
  if notAfter (r_completesAt r) (r_dynamicAccessAt r)
     && notAfter (r_completesAt r) (r_renderAbortAt r)
     && notAfter (r_completesAt r) timer then ByCompletion
  else if notAfter (r_dynamicAccessAt r) (r_renderAbortAt r)
          && notAfter (r_dynamicAccessAt r) timer then ByDynamicAccess
  else if notAfter (r_renderAbortAt r) timer then ByRenderAbort
  else ByTimeout.



(** The argument [outerWorkUnitStore] of the generator is the work-unit store
    of the invocation or [undefined]. *)
Definition outerStore (passed : bool) (st : State) : option WorkUnitStore :=
  if passed then workUnitStore st else None.

Definition propagateToOuter (passed : bool) (entry : CacheEntryOf nat (list Tag))
    (st : State) : State :=
  if passed
  then set_workUnitStore st (propagateCacheLifeAndTags (workUnitStore st) entry)
  else st.

(** The stream [bufferStream] of [collectResult], as a reader finds it once
    the collection has ended: the error of the work store, else the buffered
    chunks and then the first collected error, if there is one. *)
Definition bufferStreamOf (workStore : WorkStore) (buffer : list Chunk)
    (errors : list JsError) : Stream :=
  match invalidDynamicUsageError workStore with
  | Some error => mkStream [] (Errored error) false false
  | None =>
      match errors with
      | [] => mkStream buffer Closed false false
      | error :: _ => mkStream buffer (Errored error) false false
      end
  end.

(** The object [entry] of [collectResult]: an explicit cache life of the
    function wins over what its cache store holds. *)
Definition collectedEntry {T : Type} (innerCacheStore : UseCacheStore)
    (startTime : Z) (bufferStream : nat) (tags : T) : CacheEntryOf nat T :=
  let collectedRevalidate :=
    match cs_explicitRevalidate innerCacheStore with
    | Some explicit => explicit
    | None => cs_revalidate innerCacheStore
    end in
  let collectedExpire :=
    match cs_explicitExpire innerCacheStore with
    | Some explicit => explicit
    | None => cs_expire innerCacheStore
    end in
  let collectedStale :=
    match cs_explicitStale innerCacheStore with
    | Some explicit => explicit
    | None => cs_stale innerCacheStore
    end in
  mkEntry bufferStream startTime collectedRevalidate collectedExpire collectedStale tags.

(** [collectResult]: the promise of the entry resolves to [Some] entry once
    the saved stream has been read to its end, and never if that read stays
    pending. *)
Definition collectResult (savedStream : nat) (outerPassed : bool)
    (innerCacheStore : UseCacheStore) (startTime : Z) (errors : list JsError)
    (st : State) : option nat * State :=
  let buffer := (contentOf savedStream st).1 in
  let e := (contentOf savedStream st).2 in
  let st := lockStream savedStream st in
  match e with
  | Pending => (None, st)
  | _ =>
      let errors := match e with Errored error => errors ++ [error] | _ => errors end in
      let made := newStream (bufferStreamOf (workStore st) buffer errors) st in
      let bufferStream := made.1 in
      let collectedTags := cs_tags innerCacheStore in
      let tagList := match collectedTags with None => [] | Some t => t end in
      let tagArray := newArray tagList made.2 in
      let entry :=
        newEntry (collectedEntry innerCacheStore startTime bufferStream tagArray.1)
                 tagArray.2 in
      let st :=
        propagateToOuter outerPassed
          (collectedEntry innerCacheStore startTime bufferStream tagList) entry.2 in
      let st := if cacheSignalOf (outerStore outerPassed st) then emit EndRead st else st in
      (Some entry.1, st)
  end.

Inductive GenerateCacheEntryResult :=
| Cached (stream : nat) (pendingCacheEntry : option nat)
| PrerenderDynamic.

(** The stream that the render of the function's result produces. *)
Definition renderedStream (r : Rendering) : Stream :=
  mkStream (r_chunks r)
           (match r_fatal r with Some error => Errored error | None => Closed end)
           false false.

(** The end of [generateCacheEntryImpl], from [stream.tee()] on. *)
Definition teeAndCollect (outerPassed : bool) (innerCacheStore : UseCacheStore)
    (startTime : Z) (errors : list JsError) (stream : Stream) (st : State)
  : GenerateCacheEntryResult * State :=
  let made := newStream stream st in
  let split := tee made.1 made.2 in
  let returnStream := split.1.1 in
  let savedStream := split.1.2 in
  let pendingCacheEntry :=
    collectResult savedStream outerPassed innerCacheStore startTime errors split.2 in
  (Cached returnStream pendingCacheEntry.1, pendingCacheEntry.2).

Definition generateCacheEntryImpl (outerPassed : bool)
    (innerCacheStore : UseCacheStore) (r : Rendering) (st : State)
  : GenerateCacheEntryResult * State :=
  let startTime := r_startTime r in
  let innerCacheStore := r_body r innerCacheStore in
  let errors := r_reported r in
  let rendered := renderedStream r in
  if isPrerender (outerStore outerPassed st) then
    let timeoutAborted := bool_decide (prerenderEnd r = ByTimeout) in
    let dynamicAccessAborted := bool_decide (prerenderEnd r = ByDynamicAccess) in
    let st := if timeoutAborted
              then setInvalidDynamicUsageError UseCacheTimeoutError st else st in
    if timeoutAborted then
      teeAndCollect outerPassed innerCacheStore startTime errors
        (mkStream [] (Errored UseCacheTimeoutError) false false) st
    else if dynamicAccessAborted then
      let st := if cacheSignalOf (outerStore outerPassed st) then emit EndRead st else st in
      (PrerenderDynamic, st)
    else teeAndCollect outerPassed innerCacheStore startTime errors rendered st
  else
    teeAndCollect outerPassed innerCacheStore startTime errors
      (match r_completesAt r with
       | Some _ => rendered
       | None => mkStream (r_chunks r) Pending false false
       end) st.

(** [generateCacheEntry], through [generateCacheEntryWithRestoredWorkStore]
    and [generateCacheEntryWithCacheContext]: the cache store of the
    generation is built from the default profile. *)
Definition generateCacheEntry (outerPassed : bool) (r : Rendering) (st : State)
  : GenerateCacheEntryResult * State :=
  let outerWorkUnitStore := outerStore outerPassed st in
  let st := emit (Generate (wu_type <$> outerWorkUnitStore)) st in
  let defaultCacheLife := defaultCacheLife (workStore st) in
  let cacheStore :=
    mkUseCacheStore (outerWorkUnitStore ≫= wu_implicitTags)
      (cl_revalidate defaultCacheLife) (cl_expire defaultCacheLife)
      (cl_stale defaultCacheLife) None None None None
      (shouldForceRevalidate (workStore st) outerWorkUnitStore) in
  generateCacheEntryImpl outerPassed cacheStore r st.

(** ** The orchestrator *)

(** Why [makeHangingPromise] was called. *)
Inductive HangingReason :=
| KeyEncodingAborted
| DynamicUseCache
| GenerationAborted.

(** How an invocation of the cached function ends: with the promise of
    [makeHangingPromise(workUnitStore.renderSignal, ...)], with the value
    that [createFromReadableStream] decodes from a stream, or not at all,
    when it awaits a promise that never resolves. *)
Inductive Outcome :=
| HangingPromise (reason : HangingReason)
| Decoded (stream : nat)
| NeverSettles.

(** A step of the invocation returns from it or goes on with a result. *)
Inductive Flow (A : Type) :=
| Return (o : Outcome)
| Next (a : A).
Arguments Return {A}.
Arguments Next {A}.

(** What an invocation gets from outside the engine. *)
Record Invocation := mkInvocation {
  (** the result of [encodeReply] *)
  encodedCacheKeyParts : JsString + FormData;
  isPageOrLayout : bool;
  (** the dynamic-access signal aborted while the key parts were encoded *)
  keyEncodingAborted : bool;
  (** what [cacheHandler.get] answers *)
  handlerEntry : option nat;
  (** [performance.timeOrigin + performance.now()] after the lookup *)
  currentTime : Z;
  (** the run of the function, should the invocation generate an entry *)
  rendering : Rendering
}.

(** The test for an entry that a prerender does not bake in. *)
Definition isDynamicEntry {S T : Type} (workUnitStore : option WorkUnitStore)
    (entry : CacheEntryOf S T) : bool :=
  isPrerender workUnitStore
  && ((revalidate entry =? 0) || (expire entry <? DYNAMIC_EXPIRE)).

(** The block [if (renderResumeDataCache) { ... }]. *)
Definition resumeLookup (serializedCacheKey : JsString) (st : State)
  : Flow (option nat) * State :=
  match workUnitStore st ≫= wu_renderResumeDataCache with
  | Some renderResumeDataCache =>
      let cacheSignal := cacheSignalOf (workUnitStore st) in
      let st := if cacheSignal then emit BeginRead st else st in
      match resumeDataCacheGet renderResumeDataCache serializedCacheKey st with
      | Some cachedEntry =>
          match cachedEntry ≫= (λ r, pair r <$> viewEntry r st) with
          | None => (Return NeverSettles, st)
          | Some (existing, existingEntry) =>
              let st := set_workUnitStore st
                          (propagateCacheLifeAndTags (workUnitStore st) existingEntry) in
              if isDynamicEntry (workUnitStore st) existingEntry then
                let st := if cacheSignal then emit EndRead st else st in
                (Return (HangingPromise DynamicUseCache), st)
              else
                let split := tee (value existingEntry) st in
                let streamA := split.1.1 in
                let streamB := split.1.2 in
                let st :=
                  set_entries split.2
                    (alter (λ e, mkEntry streamB (timestamp e) (revalidate e) (expire e)
                                         (stale e) (tags e))
                           existing (entries split.2)) in
                if cacheSignal then
                  let wrapped := createTrackedReadableStream streamA st in
                  (Next (Some wrapped.1), wrapped.2)
                else (Next (Some streamA), st)
          end
      | None =>
          let st := if cacheSignal then emit EndRead st else st in
          match workUnitStore st with
          | Some w =>
              if bool_decide (wu_type w = TPrerender) && wu_allowEmptyStaticShell w
              then (Return (HangingPromise DynamicUseCache), st)
              else (Next None, st)
          | None => (Next None, st)
          end
      end
  | None => (Next None, st)
  end.

(** The block that saves a generated entry: a clone for the resume data
    cache if the prerender has one, [cacheHandler.set], and the pending
    write. *)
Definition saveGenerated (serializedCacheKey : JsString)
    (pendingCacheEntry : option nat) (st : State) : State :=
  let saved :=
    match workUnitStore st ≫= wu_prerenderResumeDataCache with
    | Some prerenderResumeDataCache =>
        match pendingCacheEntry with
        | Some entry =>
            let split := cloneCacheEntry entry st in
            (Some split.1.1,
             resumeDataCacheSet prerenderResumeDataCache serializedCacheKey
                                (Some split.1.2) split.2)
        | None =>
            (None,
             resumeDataCacheSet prerenderResumeDataCache serializedCacheKey None st)
        end
    | None => (pendingCacheEntry, st)
    end in
  let savedCacheEntry := saved.1 in
  let st := emit (HandlerSet serializedCacheKey savedCacheEntry) saved.2 in
  pushPendingWrite (mkPendingWrite serializedCacheKey savedCacheEntry) st.

(** The branch "Miss. Generate a new result." *)
Definition missPath (inv : Invocation) (serializedCacheKey : JsString) (st : State)
  : Flow nat * State :=
  let result := generateCacheEntry true (rendering inv) st in
  let st := result.2 in
  match result.1 with
  | PrerenderDynamic => (Return (HangingPromise GenerationAborted), st)
  | Cached newStream pendingCacheEntry =>
      let st := if negb (isDraftMode (workStore st))
                then saveGenerated serializedCacheKey pendingCacheEntry st
                else st in
      (Next newStream, st)
  end.

(** The first part of the branch that serves the entry of the handler: the
    propagation to the work unit, and the stream that the caller gets. *)
Definition serveHit (serializedCacheKey : JsString)
    (entry : nat) (entryView : CacheEntryOf nat (list Tag)) (st : State)
  : nat * State :=
  let cacheSignal := cacheSignalOf (workUnitStore st) in
  let st := set_workUnitStore st
              (propagateCacheLifeAndTags (workUnitStore st) entryView) in
  match workUnitStore st ≫= wu_prerenderResumeDataCache with
  | Some prerenderResumeDataCache =>
      let split := cloneCacheEntry entry st in
      let entryLeft := split.1.1 in
      let entryRight := split.1.2 in
      let st := split.2 in
      let leftValue := default (value entryView) (value <$> entries st !! entryLeft) in
      let wrapped :=
        if cacheSignal then createTrackedReadableStream leftValue st
        else (leftValue, st) in
      (wrapped.1,
       resumeDataCacheSet prerenderResumeDataCache serializedCacheKey
                          (Some entryRight) wrapped.2)
  | None =>
      (value entryView, if cacheSignal then emit EndRead st else st)
  end.

(** The branch that serves the entry of the handler, stale or not; a stale
    one is regenerated outside the work unit. *)
Definition hitPath (inv : Invocation) (serializedCacheKey : JsString)
    (entry : nat) (entryView : CacheEntryOf nat (list Tag)) (st : State)
  : Flow nat * State :=
  let served := serveHit serializedCacheKey entry entryView st in
  let stream := served.1 in
  let st := served.2 in
  if currentTime inv >? timestamp entryView + revalidate entryView * 1000 then
    let result := generateCacheEntry false (rendering inv) st in
    match result.1 with
    | Cached ignoredStream pendingCacheEntry =>
        (Next stream, saveGenerated serializedCacheKey pendingCacheEntry result.2)
    | PrerenderDynamic => (Next stream, result.2)
    end
  else (Next stream, st).

(** The block [if (stream === undefined) { ... }]. *)
Definition handlerLookup (inv : Invocation) (serializedCacheKey : JsString)
    (st : State) : Flow nat * State :=
  let cacheSignal := cacheSignalOf (workUnitStore st) in
  let st := if cacheSignal then emit BeginRead st else st in
  let got :=
    if shouldForceRevalidate (workStore st) (workUnitStore st) then (None, st)
    else
      (handlerEntry inv ≫= (λ r, pair r <$> viewEntry r st),
       emit (HandlerGet serializedCacheKey (implicitTagsOf (workUnitStore st))) st) in
  let entry := got.1 in
  let st := got.2 in
  let entry :=
    match entry with
    | Some (r, e) =>
        let implicitTags := implicitTagsOf (workUnitStore st) in
        let implicitTagsExpiration := implicitTagsExpirationOf (workUnitStore st) in
        if shouldDiscardCacheEntry e (workStore st) implicitTags implicitTagsExpiration
        then None else Some (r, e)
    | None => None
    end in
  let currentTime := currentTime inv in
  match entry with
  | Some (r, e) =>
      if isDynamicEntry (workUnitStore st) e then
        let st := if cacheSignal then emit EndRead st else st in
        (Return (HangingPromise DynamicUseCache), st)
      else if (currentTime >? timestamp e + expire e * 1000)
              || (isStaticGeneration (workStore st)
                  && (currentTime >? timestamp e + revalidate e * 1000))
      then missPath inv serializedCacheKey st
      else hitPath inv serializedCacheKey r e st
  | None => missPath inv serializedCacheKey st
  end.

(** [createFromReadableStream(stream, ...)] reads the stream to its end; the
    wrapper of [createTrackedReadableStream] ends the read of the cache
    signal when its source is done. *)
Definition decode (stream : nat) (st : State) : Outcome * State :=
  let tracks := trackedOf stream st in
  let e := (contentOf stream st).2 in
  let st := lockStream stream st in
  let st :=
    if tracks then match e with Closed => emit EndRead st | _ => st end else st in
  (Decoded stream, st).

(** One call of the function that [cache(kind, id, boundArgsLength, fn)]
    returns, from the encoding of the key parts on. *)
Definition cache (inv : Invocation) (st : State) : Outcome * State :=
  if isPrerender (workUnitStore st) && negb (isPageOrLayout inv)
     && keyEncodingAborted inv
  then (HangingPromise KeyEncodingAborted, st)
  else
    let serializedCacheKey :=
      match encodedCacheKeyParts inv with
      | inl s => s
      | inr formData => encodeFormData formData
      end in
    let resumed := resumeLookup serializedCacheKey st in
    match resumed.1 with
    | Return o => (o, resumed.2)
    | Next (Some stream) => decode stream resumed.2
    | Next None =>
        let looked := handlerLookup inv serializedCacheKey resumed.2 in
        match looked.1 with
        | Return o => (o, looked.2)
        | Next stream => decode stream looked.2
        end
    end.

(** ** Accounting over the log *)

Fixpoint countEvents (p : Event → bool) (l : list Event) : nat :=
  match l with
  | [] => 0%nat
  | ev :: l => ((if p ev then 1 else 0) + countEvents p l)%nat
  end.

Definition isBeginRead (ev : Event) : bool :=
  match ev with BeginRead => true | _ => false end.

Definition isEndRead (ev : Event) : bool :=
  match ev with EndRead => true | _ => false end.

Definition isHandlerSet (ev : Event) : bool :=
  match ev with HandlerSet _ _ => true | _ => false end.

Definition isHandlerGet (ev : Event) : bool :=
  match ev with HandlerGet _ _ => true | _ => false end.

Definition isResumeDataCacheSet (ev : Event) : bool :=
  match ev with ResumeDataCacheSet _ _ _ => true | _ => false end.

Definition isGenerate (ev : Event) : bool :=
  match ev with Generate _ => true | _ => false end.

(** The reads that a log leaves open: those begun less those ended. *)
Definition openReads (l : list Event) : Z :=
  Z.of_nat (countEvents isBeginRead l) - Z.of_nat (countEvents isEndRead l).

(** ** The key flattening in the words of the specification *)

(** [hex(length of s):s] *)
Definition lengthPrefixed (s : JsString) : JsString :=
  toString16 (strLength s) ++ [colon] ++ s.

(** For each field the prefixed name followed by the prefixed value, with
    nothing between the fields. *)
Fixpoint flattenFields (fields : list (JsString * JsString)) : JsString :=
  match fields with
  | [] => []
  | (name, value) :: rest =>
      lengthPrefixed name ++ lengthPrefixed value ++ flattenFields rest
  end.

(** ** Notions that the properties of the orchestrator use *)

(** The invocation with another answer of [cacheHandler.get]. *)
Definition withHandlerEntry (inv : Invocation) (answer : option nat) : Invocation :=
  mkInvocation (encodedCacheKeyParts inv) (isPageOrLayout inv)
               (keyEncodingAborted inv) answer (currentTime inv) (rendering inv).

(** A tag among the previously revalidated tags or the pending ones. *)
Definition recentlyRevalidated (workStore : WorkStore) (tag : Tag) : Prop :=
  tag ∈ previouslyRevalidatedTags workStore
  ∨ ∃ pending, pendingRevalidatedTags workStore = Some pending ∧ tag ∈ pending.

(** The state in which [handlerLookup] holds the answer of the handler: the
    read has begun and [get] has been called. *)
Definition afterGet (serializedCacheKey : JsString) (st : State) : State :=
  emit (HandlerGet serializedCacheKey (implicitTagsOf (workUnitStore st)))
       (if cacheSignalOf (workUnitStore st) then emit BeginRead st else st).

(** The events of the cache signal. *)
Definition isRead (ev : Event) : bool := isBeginRead ev || isEndRead ev.

(** A generation under a prerender. *)
Definition isSpeculativeGenerate (ev : Event) : bool :=
  match ev with Generate (Some TPrerender) => true | _ => false end.

(** The events of the lookup proper: the reads and the call of [get]. *)
Definition isLookupEvent (ev : Event) : bool := isRead ev || isHandlerGet ev.

(** The state differs from another in its log at most. *)
Definition sameObjects (st st' : State) : Prop :=
  streams st' = streams st ∧ entries st' = entries st ∧ arrays st' = arrays st
  ∧ resumeDataCaches st' = resumeDataCaches st
  ∧ workStore st' = workStore st ∧ workUnitStore st' = workUnitStore st.


(** ** The cache life profiles of a generation *)





(** ** The arguments of a cached function *)

(** A JavaScript value as far as the handling of the arguments looks at it:
    a string by its code units; another primitive (a boolean, a number, a
    bigint, a symbol) by its truthiness and an identity; a function by an
    identity; an array by its elements; any other object by its own
    enumerable properties in their order, each key once. *)
Inductive JsValue :=
| VUndefined
| VNull
| VString (s : JsString)
| VPrimitive (truthy : bool) (id : nat)
| VFunction (id : nat)
| VArray (items : list JsValue)
| VObject (props : list (string * JsValue)).

(** [ToBoolean] *)
Definition truthy (v : JsValue) : bool :=
  match v with
  | VUndefined | VNull => false
  | VString s => negb (bool_decide (s = []))
  | VPrimitive t _ => t
  | VFunction _ | VArray _ | VObject _ => true
  end.







(** The errors of the bound arguments: no argument to take them from, a
    decryption that rejects, a decrypted value that is no array, and an
    array of another length than the declared one. *)
Inductive ArgumentsError :=
| BoundArgsMissing
| BoundArgsRejected
| BoundArgsNotArray
| BoundArgsWrongLength (got : nat).

(** The block [if (boundArgsLength > 0) { ... }]; [decrypt] is
    [decryptActionBoundArgs(id, _)], which may reject. *)
Definition withBoundArgs (boundArgsLength : Z) (decrypt : JsValue → option JsValue)
    (args : list JsValue) : ArgumentsError + list JsValue :=
  if boundArgsLength >? 0 then
    match args with
    | [] => inl BoundArgsMissing
    | encryptedBoundArgs :: rest =>
        match decrypt encryptedBoundArgs with
        | None => inl BoundArgsRejected
        | Some (VArray boundArgs) =>
            if bool_decide (boundArgsLength ≠ Z.of_nat (length boundArgs))
            then inl (BoundArgsWrongLength (length boundArgs))
            else inr (VArray boundArgs :: rest)
        | Some _ => inl BoundArgsNotArray
        end
    end
  else inr args.

(** ** The server-action handler: headers *)

(** The code units of a string literal of the source (ASCII). *)
Definition lit (s : string) : JsString :=
  Ascii.N_of_ascii <$> String.list_ascii_of_string s.

Definition limitUntrustedHeaderValueForLogs (value : JsString) : JsString :=
  if (100 <? length value)%nat then take 100 value ++ lit "..." else value.

(** A header of [IncomingHttpHeaders]: a string or an array of strings. *)
Inductive HeaderValue :=
| HeaderString (s : JsString)
| HeaderArray (items : list JsString).

(** The headers that the handler reads. *)
Record IncomingHttpHeaders := mkHeaders {
  h_origin : option HeaderValue;
  h_xForwardedHost : option HeaderValue;
  h_host : option JsString
}.

(** [HostType]: the header that a host was read from. *)
Inductive HostType :=
| XForwardedHost
| HostHeader.

(** [Host] of the source is a [HostValue] or [undefined]. *)
Record HostValue := mkHost {
  host_type : HostType;
  host_value : JsString
}.

(** The code units that [String.prototype.trim] strips: white space and
    line terminators. *)
Definition isWhiteSpace (c : N) : bool :=
  ((9 <=? c) && (c <=? 13) || (c =? 32) || (c =? 160) || (c =? 5760)
   || (8192 <=? c) && (c <=? 8202) || (c =? 8232) || (c =? 8233) || (c =? 8239)
   || (c =? 8287) || (c =? 12288) || (c =? 65279))%N.

Fixpoint dropWhile {A : Type} (p : A → bool) (l : list A) : list A :=
  match l with
  | [] => []
  | x :: rest => if p x then dropWhile p rest else l
  end.

Fixpoint takeWhile {A : Type} (p : A → bool) (l : list A) : list A :=
  match l with
  | [] => []
  | x :: rest => if p x then x :: takeWhile p rest else []
  end.

(** [s.trim()] *)
Definition trim (s : JsString) : JsString :=
  reverse (dropWhile isWhiteSpace (reverse (dropWhile isWhiteSpace s))).

(** The code unit of [','] *)
Definition comma : N := 44%N.

(** [s.split(',')[0]] *)
Definition firstSegment (s : JsString) : JsString :=
  takeWhile (λ c, negb (c =? comma)%N) s.

(** [forwardedHostHeaderValue] of [parseHostHeader] *)
Definition forwardedHostHeaderValue (forwardedHostHeader : option HeaderValue)
  : option JsString :=
  match forwardedHostHeader with
  | Some (HeaderArray items) => head items
  | Some (HeaderString s) => Some (trim (firstSegment s))
  | None => None
  end.

(** The truthiness of a string that may be [undefined]. *)
Definition nonEmpty (s : option JsString) : bool :=
  match s with
  | Some (_ :: _) => true
  | _ => false
  end.

Definition parseHostHeader (headers : IncomingHttpHeaders)
    (originDomain : option JsString) : option HostValue :=
  let forwardedHostHeaderValue := forwardedHostHeaderValue (h_xForwardedHost headers) in
  let hostHeader := h_host headers in
  if nonEmpty originDomain then
    if bool_decide (forwardedHostHeaderValue = originDomain) then
      mkHost XForwardedHost <$> forwardedHostHeaderValue
    else if bool_decide (hostHeader = originDomain) then
      mkHost HostHeader <$> hostHeader
    else None
  else
    if nonEmpty forwardedHostHeaderValue then
      mkHost XForwardedHost <$> forwardedHostHeaderValue
    else if nonEmpty hostHeader then mkHost HostHeader <$> hostHeader
    else None.

(** ** The server-action handler: the checks before an action runs *)

(** What the handler throws before an action is decoded: the invariant of
    the static rendering, the [TypeError] of [new URL], and 'Invalid Server
    Actions request.'. *)
Inductive ActionError :=
| StaticRenderingInvariant
| InvalidURL
| InvalidServerActionsRequest.

(** How the part of [handleAction] before the action is decoded ends: it
    returns [undefined]; it throws; for a fetch action that it rejects it
    sets the status 500 and returns the flight response of the error; or
    it goes on, with the warning it may have noted. *)
Inductive Prelude :=
| NotAServerAction
| Thrown (error : ActionError)
| Aborted
| Proceeds (warning : option JsString).

(** The string of a [HostType]. *)
Definition hostTypeName (t : HostType) : JsString :=
  match t with
  | XForwardedHost => lit "x-forwarded-host"
  | HostHeader => lit "host"
  end.

(** The [warning] for a request without an origin domain. *)
Definition missingOriginWarning : JsString :=
  lit "Missing `origin` header from a forwarded Server Actions request.".

(** The message of [console.error] for a host that does not match. *)
Definition mismatchMessage (host : HostValue) (originDomain : JsString) : JsString :=
  lit "`" ++ hostTypeName (host_type host) ++ lit "` header with value `"
  ++ limitUntrustedHeaderValueForLogs (host_value host)
  ++ lit "` does not match `origin` header with value `"
  ++ limitUntrustedHeaderValueForLogs originDomain
  ++ lit "` from a forwarded Server Actions request. Aborting the action.".

(** The message of [console.error] for a request without a host. *)
Definition missingHostMessage : JsString :=
  lit "`x-forwarded-host` or `host` headers are not provided. One of these is needed to compare the `origin` header from a forwarded Server Actions request. Aborting the action.".

(** [handleAction] up to the check of the origin, with what it logs with
    [console.error].  [urlHost] is [new URL(_).host], which throws for a
    string that is no URL; [isCsrfOriginAllowed] is the function of that
    name. *)
Definition handleActionPrelude
    (urlHost : JsString → option JsString)
    (isCsrfOriginAllowed : JsString → option (list JsString) → bool)
    (isPossibleServerAction isFetchAction isStaticGeneration : bool)
    (headers : IncomingHttpHeaders) (allowedOrigins : option (list JsString))
  : Prelude * list JsString :=
  if negb isPossibleServerAction then (NotAServerAction, [])
  else if isStaticGeneration then (Thrown StaticRenderingInvariant, [])
  else
    let originDomain :=
      match h_origin headers with
      | Some (HeaderString origin) =>
          match urlHost origin with
          | Some host => inr (Some host)
          | None => inl InvalidURL
          end
      | _ => inr None
      end in
    match originDomain with
    | inl error => (Thrown error, [])
    | inr originDomain =>
        let host := parseHostHeader headers None in
        if negb (nonEmpty originDomain) then (Proceeds (Some missingOriginWarning), [])
        else
          let origin := default [] originDomain in
          if match host with
             | None => true
             | Some host => bool_decide (origin ≠ host_value host)
             end
          then
            if isCsrfOriginAllowed origin allowedOrigins then (Proceeds None, [])
            else
              let logged :=
                match host with
                | Some host => mismatchMessage host origin
                | None => missingHostMessage
                end in
              (if isFetchAction then Aborted else Thrown InvalidServerActionsRequest,
               [logged])
          else (Proceeds None, [])
    end.

(** The transform [sizeLimitTransform] over the chunks of a body: the
    chunks that it passes on, and whether it ends with the error 413.
    [size] is the counter of the closure. *)
Fixpoint sizeLimitTransform (bodySizeLimitBytes : Z) (size : Z) (chunks : list Chunk)
  : list Chunk * bool :=
  match chunks with
  | [] => ([], false)
  | chunk :: rest =>
      let size := size + Z.of_nat (length chunk) in
      if size >? bodySizeLimitBytes then ([], true)
      else
        let passed := sizeLimitTransform bodySizeLimitBytes size rest in
        (chunk :: passed.1, passed.2)
  end.

(** The number of bytes of the chunks. *)
Definition byteLength (chunks : list Chunk) : Z :=
  foldr (λ chunk n, Z.of_nat (length chunk) + n) 0 chunks.

(** What is thrown: an [Error] with its message, or something else. *)
Inductive ThrownValue :=
| ErrorObject (message : JsString)
| OtherValue.

(** [[0-9A-Fa-f]] *)
Definition isHexDigit (c : N) : bool :=
  ((48 <=? c) && (c <=? 57) || (65 <=? c) && (c <=? 70)
   || (97 <=? c) && (c <=? 102))%N.

(** What [.] of a regular expression does not match. *)
Definition isLineTerminator (c : N) : bool :=
  ((c =? 10) || (c =? 13) || (c =? 8232) || (c =? 8233))%N.

(** The code unit of the double quote *)
Definition quote : N := 34%N.

(** [s] without the prefix [p], if it starts with it. *)
Fixpoint stripPrefix (p s : JsString) : option JsString :=
  match p, s with
  | [], _ => Some s
  | a :: p, b :: s => if (a =? b)%N then stripPrefix p s else None
  | _ :: _, [] => None
  end.

(** A match of [unknownServerActionErrorMessageRegExp] that starts at the
    first code unit of [s], as its group [actionId].  The greedy
    [[0-9A-Fa-f]+] never has to give a digit back, since what follows it
    in the pattern is no digit. *)
Definition matchHere (s : JsString) : option JsString :=
  rest ← stripPrefix (lit "Could not find the module " ++ [quote]) s;
  let actionId := takeWhile isHexDigit rest in
  match actionId with
  | [] => None
  | _ =>
      rest ← stripPrefix ([quote] ++ lit " in the React Server Manifest")
                         (dropWhile isHexDigit rest);
      match rest with
      | c :: _ => if isLineTerminator c then None else Some actionId
      | [] => None
      end
  end.

(** [message.match(unknownServerActionErrorMessageRegExp)]: the leftmost
    match. *)
Fixpoint firstMatch (message : JsString) : option JsString :=
  match matchHere message with
  | Some actionId => Some actionId
  | None =>
      match message with
      | [] => None
      | _ :: rest => firstMatch rest
      end
  end.

Definition getActionIdFromReactError (err : ThrownValue) : option JsString :=
  match err with
  | ErrorObject message => firstMatch message
  | OtherValue => None
  end.

(** The message that React gives when it does not find the module
    [actionId], up to the full stop of the pattern. *)
Definition reactMessage (actionId : JsString) : JsString :=
  lit "Could not find the module " ++ [quote] ++ actionId
  ++ [quote] ++ lit " in the React Server Manifest.".

(** ** Notions that the further properties use *)

(** The work-unit store but for its cache life and its tags. *)
Definition unitShape (o : option WorkUnitStore) : option WorkUnitStore :=
  (λ w, set_life w None 0 0 0) <$> o.

(** The work store but for its pending writes and its dynamic-usage
    error. *)
Definition workShape (w : WorkStore) : WorkStore :=
  mkWorkStore (isStaticGeneration w) (isDraftMode w) (isOnDemandRevalidate w) (dev w)
              (previouslyRevalidatedTags w) (pendingRevalidatedTags w) None None
              (defaultCacheLife w).

(** Two states of one invocation context: the same work-unit store up to
    cache life and tags, the same work store up to pending writes and the
    dynamic-usage error. *)
Definition sameContext (st st' : State) : Prop :=
  unitShape (workUnitStore st') = unitShape (workUnitStore st)
  ∧ workShape (workStore st') = workShape (workStore st).

(** No stream of the store is a wrapper of
    [createTrackedReadableStream]. *)
Definition noWrappers (st : State) : Prop := ∀ r, trackedOf r st = false.


(** The events that save an entry: [cacheHandler.set] and the [set] of a
    resume data cache. *)
Definition isSaveEvent (ev : Event) : bool :=
  isHandlerSet ev || isResumeDataCacheSet ev.


(** The bytes with a zero byte appended when their number is odd. *)
Definition zeroPadded (arrayBuffer : list Byte.byte) : list Byte.byte :=
  if (length arrayBuffer mod 2 =? 0)%nat then arrayBuffer
  else arrayBuffer ++ [Byte.x00].

(** ** Sample inputs *)

Definition sampleParent : WorkUnitStore :=
  mkWorkUnitStore TCache (Some ["a"%string]) 300 900 3600 None false false false false
                  None None.

Definition sampleChild1 : CacheEntryOf unit (list Tag) :=
  mkEntry tt 0 60 7200 600 ["b"; "a"]%string.

Definition sampleChild2 : CacheEntryOf unit (list Tag) :=
  mkEntry tt 0 1800 1200 30 ["c"; "b"]%string.

Definition sampleKey : JsString := [107%N].

Definition sampleWorkStore : WorkStore :=
  mkWorkStore false false false false [] None None None (mkCacheLife 300 900 3600).

(** A work store under static generation. *)
Definition sampleStaticWorkStore : WorkStore :=
  mkWorkStore true false false false [] None None None (mkCacheLife 300 900 3600).

(** A work store in which the tag ["a"] was revalidated before. *)
Definition sampleRevalidatedWorkStore : WorkStore :=
  mkWorkStore false false false false ["a"%string] None None None
              (mkCacheLife 300 900 3600).

Definition sampleRequestStore : WorkUnitStore :=
  mkWorkUnitStore TRequest None 0 0 0 None false false false false None None.


(** A prerender with a cache signal whose resume data cache is the map 0. *)
Definition sampleResumingStore : WorkUnitStore :=
  mkWorkUnitStore TPrerender None 300 900 3600 None true false false false
                  (Some 0%nat) (Some 0%nat).

(** An entry written at time 1000, stale after 60 s and dead after 3600 s, with
    the tag ["a"] and a one-chunk stream that closes. *)
Definition sampleObjects (workStore : WorkStore) (workUnitStore : WorkUnitStore)
  : State :=
  mkState {[ 0%nat := mkStream [[Byte.x41]] Closed false false ]}
          {[ 0%nat := mkEntry 0%nat 1000 60 3600 30 0%nat ]}
          {[ 0%nat := ["a"%string] ]}
          ∅ workStore (Some workUnitStore) [].

Definition sampleView : CacheEntryOf nat (list Tag) :=
  mkEntry 0%nat 1000 60 3600 30 ["a"%string].

(** The same with an entry of [revalidate] 0, and an empty resume data
    cache as the map 0. *)
Definition sampleDynamicObjects (workStore : WorkStore)
    (workUnitStore : WorkUnitStore) : State :=
  mkState {[ 0%nat := mkStream [[Byte.x41]] Closed false false ]}
          {[ 0%nat := mkEntry 0%nat 1000 0 3600 30 0%nat ]}
          {[ 0%nat := ["a"%string] ]}
          {[ 0%nat := ∅ ]} workStore (Some workUnitStore) [].

Definition sampleDynamicView : CacheEntryOf nat (list Tag) :=
  mkEntry 0%nat 1000 0 3600 30 ["a"%string].

(** A resume data cache that holds, for the sample key, an entry whose
    stream errors after its chunk. *)
Definition sampleErroredResume : State :=
  mkState {[ 0%nat := mkStream [[Byte.x41]] (Errored (OtherError "boom")) false false ]}
          {[ 0%nat := mkEntry 0%nat 0 900 3600 300 0%nat ]}
          {[ 0%nat := [] ]}
          {[ 0%nat := {[ sampleKey := Some 0%nat ]} ]}
          sampleWorkStore (Some sampleResumingStore) [].

(** A render that completes after 10 ms. *)
Definition sampleRendering : Rendering :=
  mkRendering 5000 (λ s, s) [[Byte.x42]] None [] (Some 10) None None.



Definition sampleInvocation (answer : option nat) (now : Z) (r : Rendering)
  : Invocation :=
  mkInvocation (inl sampleKey) false false answer now r.

(** Two forms whose only field is named ["k"]: a file of one byte and a file
    of that byte followed by a zero byte. *)
Definition sampleFormOdd : FormData := [(sampleKey, FormFile [Byte.x41])].

Definition sampleFormEven : FormData := [(sampleKey, FormFile [Byte.x41; Byte.x00])].

Definition sampleFormText : FormData := [(sampleKey, FormString [65%N])].

(** A work store of an on-demand revalidation, and one in draft mode. *)
Definition sampleOnDemandWorkStore : WorkStore :=
  mkWorkStore false false true false [] None None None (mkCacheLife 300 900 3600).

Definition sampleDraftWorkStore : WorkStore :=
  mkWorkStore false true false false [] None None None (mkCacheLife 300 900 3600).



(** Headers with a forwarded host of two parts and a host. *)
Definition sampleHeaders : IncomingHttpHeaders :=
  mkHeaders (Some (HeaderString (lit "https://evil.example")))
            (Some (HeaderString (lit " b.example , c.example")))
            (Some (lit "a.example")).

(** * Properties *)

(** ** Freshness propagation *)

Lemma gtb_min (a b : Z) : (if a >? b then b else a) = Z.min a b.
Proof. destruct (Z.gtb_spec a b); lia. Qed.

Lemma foldr_min_shift (a b : Z) (l : list Z) :
  foldr Z.min (Z.min a b) l = Z.min b (foldr Z.min a l).
Proof. induction l as [|x l IH]; simpl; [lia | rewrite IH; lia]. Qed.

Lemma foldr_min_perm (a : Z) (l l' : list Z) :
  l ≡ₚ l' → foldr Z.min a l = foldr Z.min a l'.
Proof. induction 1; simpl; lia. Qed.

Lemma pushMissingTags_elem (entryTags outerTags : list Tag) (t : Tag) :
  t ∈ pushMissingTags outerTags entryTags ↔ t ∈ outerTags ∨ t ∈ entryTags.
Proof.
  revert outerTags. induction entryTags as [|tag rest IH]; intros outerTags; simpl.
  - set_solver.
  - rewrite IH. case_bool_decide; set_solver.
Qed.

Lemma pushMissingTags_NoDup (entryTags outerTags : list Tag) :
  NoDup outerTags → NoDup (pushMissingTags outerTags entryTags).
Proof.
  revert outerTags. induction entryTags as [|tag rest IH]; intros outerTags Hnd; simpl.
  - done.
  - apply IH. case_bool_decide; [done|].
    apply NoDup_app. split_and!; [done | | apply NoDup_singleton].
    intros x Hx Hx'. apply list_elem_of_singleton in Hx'. by subst.
Qed.

Lemma pushMissingTags_included (entryTags outerTags : list Tag) :
  (∀ t, t ∈ entryTags → t ∈ outerTags) →
  pushMissingTags outerTags entryTags = outerTags.
Proof.
  induction entryTags as [|tag rest IH]; intros Hin; simpl; [done|].
  rewrite bool_decide_eq_true_2 by (apply Hin; set_solver).
  apply IH. intros t Ht. apply Hin. set_solver.
Qed.

(** One propagation into a store that receives cache life. *)
Lemma propagate_step {S : Type} (w : WorkUnitStore) (c : CacheEntryOf S (list Tag)) :
  receivesCacheLife (wu_type w) = true →
  propagateCacheLifeAndTags (Some w) c =
    Some (set_life w (Some (pushMissingTags (tagsOrEmpty w) (tags c)))
                   (Z.min (wu_stale w) (stale c))
                   (Z.min (wu_revalidate w) (revalidate c))
                   (Z.min (wu_expire w) (expire c))).
Proof. intros Hty. unfold propagateCacheLifeAndTags. by rewrite Hty, !gtb_min. Qed.

(** A store of another kind, and no store, are left alone. *)
Lemma propagate_other_kind {S : Type} (w : WorkUnitStore) (c : CacheEntryOf S (list Tag)) :
  receivesCacheLife (wu_type w) = false →
  propagateCacheLifeAndTags (Some w) c = Some w.
Proof. intros Hty. unfold propagateCacheLifeAndTags. by rewrite Hty. Qed.

Lemma propagateAll_cons {S : Type} (o : option WorkUnitStore)
    (c : CacheEntryOf S (list Tag)) (rest : list (CacheEntryOf S (list Tag))) :
  propagateAll o (c :: rest) = propagateAll (propagateCacheLifeAndTags o c) rest.
Proof. reflexivity. Qed.

Lemma propagateAll_spec {S : Type} (children : list (CacheEntryOf S (list Tag)))
    (w : WorkUnitStore) :
  receivesCacheLife (wu_type w) = true →
  ∃ w', propagateAll (Some w) children = Some w'
    ∧ wu_type w' = wu_type w
    ∧ wu_stale w' = foldr Z.min (wu_stale w) (stale <$> children)
    ∧ wu_revalidate w' = foldr Z.min (wu_revalidate w) (revalidate <$> children)
    ∧ wu_expire w' = foldr Z.min (wu_expire w) (expire <$> children)
    ∧ (∀ t, t ∈ tagsOrEmpty w' ↔
            t ∈ tagsOrEmpty w ∨ ∃ c, c ∈ children ∧ t ∈ tags c)
    ∧ (NoDup (tagsOrEmpty w) → NoDup (tagsOrEmpty w'))
    ∧ (children ≠ [] → is_Some (wu_tags w')).
Proof.
  revert w. induction children as [|c rest IH]; intros w Hty.
  - exists w. split_and!; try done. set_solver.
  - rewrite propagateAll_cons, propagate_step by done.
    destruct (IH (set_life w (Some (pushMissingTags (tagsOrEmpty w) (tags c)))
                    (Z.min (wu_stale w) (stale c))
                    (Z.min (wu_revalidate w) (revalidate c))
                    (Z.min (wu_expire w) (expire c))))
      as (w' & Hw' & Ht & Hs & Hr & He & Htags & Hnd & Hsome); [done|].
    exists w'. simpl in *. split_and!; try done.
    + rewrite Hs. apply foldr_min_shift.
    + rewrite Hr. apply foldr_min_shift.
    + rewrite He. apply foldr_min_shift.
    + intros t. rewrite Htags. unfold tagsOrEmpty at 1. simpl.
      rewrite pushMissingTags_elem. set_solver.
    + intros Hn. apply Hnd. unfold tagsOrEmpty at 1. simpl.
      by apply pushMissingTags_NoDup.
    + intros _. destruct rest as [|c' rest'].
      * unfold propagateAll in Hw'. simpl in Hw'. inversion Hw'. simpl. by eexists.
      * by apply Hsome.
Qed.

Lemma foldr_min_le (a x : Z) (l : list Z) : x ∈ l → foldr Z.min a l ≤ x.
Proof.
  induction l as [|y l IH]; intros Hx; [by apply elem_of_nil in Hx|].
  apply elem_of_cons in Hx as [->|Hx]; simpl; [lia|]. specialize (IH Hx). lia.
Qed.

(** Merging once more an entry whose tags and windows the store already
    accounts for changes nothing. *)
Lemma propagate_absorbed {S : Type} (p : WorkUnitStore) (c : CacheEntryOf S (list Tag)) :
  receivesCacheLife (wu_type p) = true →
  is_Some (wu_tags p) →
  (∀ t, t ∈ tags c → t ∈ tagsOrEmpty p) →
  wu_stale p ≤ stale c → wu_revalidate p ≤ revalidate c → wu_expire p ≤ expire c →
  propagateCacheLifeAndTags (Some p) c = Some p.
Proof.
  intros Hty [tg Htg] Hin Hs Hr He. rewrite propagate_step by done.
  rewrite pushMissingTags_included by done.
  rewrite !Z.min_l by done. unfold tagsOrEmpty. rewrite Htg. simpl.
  destruct p; simpl in *. by subst.
Qed.

(** C1.  Propagating child entries into an enclosing cache scope or
    prerender (of any variant) leaves each of [stale], [revalidate] and
    [expire] at the minimum of the parent's value and the children's, and the
    parent's tags at the union of its tags and the children's, without a
    duplicate among them when the parent had none.  The merge is
    order-independent: any other order of the same children ends in the same
    windows and in the same set of tags (the same tags up to the order of
    the array).  It is idempotent: propagating a merged child again changes
    nothing. *)
Theorem propagate_merge_order_independent {S : Type} (w : WorkUnitStore)
    (children children' : list (CacheEntryOf S (list Tag))) :
  receivesCacheLife (wu_type w) = true →
  children ≡ₚ children' →
  ∃ p p',
    propagateAll (Some w) children = Some p
    ∧ propagateAll (Some w) children' = Some p'
    ∧ wu_stale p = foldr Z.min (wu_stale w) (stale <$> children)
    ∧ wu_revalidate p = foldr Z.min (wu_revalidate w) (revalidate <$> children)
    ∧ wu_expire p = foldr Z.min (wu_expire w) (expire <$> children)
    ∧ (∀ t, t ∈ tagsOrEmpty p ↔ t ∈ tagsOrEmpty w ∨ ∃ c, c ∈ children ∧ t ∈ tags c)
    ∧ (NoDup (tagsOrEmpty w) → NoDup (tagsOrEmpty p))
    ∧ wu_stale p' = wu_stale p
    ∧ wu_revalidate p' = wu_revalidate p
    ∧ wu_expire p' = wu_expire p
    ∧ (∀ t, t ∈ tagsOrEmpty p' ↔ t ∈ tagsOrEmpty p)
    ∧ (NoDup (tagsOrEmpty w) → tagsOrEmpty p' ≡ₚ tagsOrEmpty p)
    ∧ (∀ c, c ∈ children → propagateCacheLifeAndTags (Some p) c = Some p).
Proof.
  intros Hty Hperm.
  destruct (propagateAll_spec children w Hty)
    as (p & Hp & Ht & Hs & Hr & He & Htags & Hnd & Hsome).
  destruct (propagateAll_spec children' w Hty)
    as (p' & Hp' & Ht' & Hs' & Hr' & He' & Htags' & Hnd' & _).
  assert (Hsets : ∀ t, t ∈ tagsOrEmpty p' ↔ t ∈ tagsOrEmpty p).
  { intros t. rewrite Htags, Htags'. split; intros [H|(c & Hc & Htc)]; auto; right;
      exists c; split; auto; [by rewrite Hperm | by rewrite <- Hperm]. }
  exists p, p'. split_and!; try done.
  - rewrite Hs', Hs. apply foldr_min_perm. by rewrite Hperm.
  - rewrite Hr', Hr. apply foldr_min_perm. by rewrite Hperm.
  - rewrite He', He. apply foldr_min_perm. by rewrite Hperm.
  - intros Hn. apply NoDup_Permutation; auto.
  - intros c Hc. apply propagate_absorbed.
    + by rewrite Ht.
    + apply Hsome. intros ->. by apply elem_of_nil in Hc.
    + intros t Htc. apply Htags. right. by exists c.
    + rewrite Hs. apply foldr_min_le. by apply list_elem_of_fmap_2.
    + rewrite Hr. apply foldr_min_le. by apply list_elem_of_fmap_2.
    + rewrite He. apply foldr_min_le. by apply list_elem_of_fmap_2.
Qed.

Lemma propagate_merge_order_independent_witness :
  ∃ p p',
    propagateAll (Some sampleParent) [sampleChild1; sampleChild2] = Some p
    ∧ propagateAll (Some sampleParent) [sampleChild2; sampleChild1] = Some p'
    ∧ wu_stale p = 30 ∧ wu_revalidate p = 60 ∧ wu_expire p = 1200
    ∧ wu_stale p' = 30 ∧ wu_revalidate p' = 60 ∧ wu_expire p' = 1200
    ∧ tagsOrEmpty p = ["a"; "b"; "c"]%string
    ∧ tagsOrEmpty p' = ["a"; "c"; "b"]%string.
Proof.
  destruct (propagate_merge_order_independent sampleParent
              [sampleChild1; sampleChild2] [sampleChild2; sampleChild1])
    as (p & p' & Hp & Hp' & Hs & Hr & He & _ & _ & Hs' & Hr' & He' & _).
  - reflexivity.
  - apply perm_swap.
  - exists p, p'. vm_compute in Hp, Hp'. inversion Hp; inversion Hp'; subst.
    repeat split; reflexivity.
Defined.

(** ** Cache key flattening *)

Lemma hexChars_no_colon (u : Hexadecimal.uint) : colon ∉ hexChars u.
Proof.
  induction u; simpl; [apply not_elem_of_nil|..];
    (apply not_elem_of_cons; split; [discriminate | assumption]).
Qed.

Lemma hexChars_inj (u v : Hexadecimal.uint) : hexChars u = hexChars v → u = v.
Proof.
  revert v. induction u; intros v Huv; destruct v; simpl in Huv;
    try discriminate Huv; try reflexivity;
    injection Huv as Huv; f_equal; auto.
Qed.

Lemma toString16_inj (n m : N) : toString16 n = toString16 m → n = m.
Proof.
  intros H. apply HexadecimalN.Unsigned.to_uint_inj. by apply hexChars_inj.
Qed.

(** Two strings cut at their first colon. *)
Lemma split_at_colon (x y s t : JsString) :
  colon ∉ x → colon ∉ y → x ++ colon :: s = y ++ colon :: t → x = y ∧ s = t.
Proof.
  revert y. induction x as [|a x IH]; intros y Hx Hy Heq; destruct y as [|b y];
    simpl in Heq.
  - by injection Heq.
  - injection Heq as <- _. exfalso. apply Hy. set_solver.
  - injection Heq as -> _. exfalso. apply Hx. set_solver.
  - injection Heq as -> Heq.
    destruct (IH y) as [-> ->]; [set_solver | set_solver | done | done].
Qed.

(** A length-prefixed string can be read back from the front of any text. *)
Lemma lengthPrefixed_inj (a b r r' : JsString) :
  lengthPrefixed a ++ r = lengthPrefixed b ++ r' → a = b ∧ r = r'.
Proof.
  unfold lengthPrefixed. rewrite <- !List.app_assoc. simpl. intros Heq.
  apply split_at_colon in Heq as [Hlen Heq]; try apply hexChars_no_colon.
  apply toString16_inj in Hlen. unfold strLength in Hlen.
  apply Nat2N.inj in Hlen. by apply app_inj_1 in Heq.
Qed.

Lemma flattenFields_inj (l l' : list (JsString * JsString)) :
  flattenFields l = flattenFields l' → l = l'.
Proof.
  revert l'. induction l as [|[k v] l IH]; intros [|[k' v'] l'] Heq; simpl in Heq.
  - done.
  - unfold lengthPrefixed in Heq. destruct (toString16 (strLength k')); discriminate.
  - unfold lengthPrefixed in Heq. destruct (toString16 (strLength k)); discriminate.
  - apply lengthPrefixed_inj in Heq as [-> Heq].
    apply lengthPrefixed_inj in Heq as [-> Heq].
    f_equal. by apply IH.
Qed.

Lemma encodeFormData_acc (formData : FormData) (result : JsString) :
  foldl encodeEntry result formData = result ++ flattenFields (stringified formData).
Proof.
  revert result. induction formData as [|[key value] rest IH]; intros result; simpl.
  - by rewrite List.app_nil_r.
  - rewrite IH. unfold lengthPrefixed. by rewrite <- !List.app_assoc.
Qed.

(** C2.  The flattening of a form emits, field after field,
    [hex(length of name):name] followed by
    [hex(length of value):value] for the stringified value, and forms whose
    sequences of (name, stringified value) differ never flatten to the same
    string. *)
Theorem encodeFormData_injective (formData formData' : FormData) :
  encodeFormData formData = flattenFields (stringified formData)
  ∧ (encodeFormData formData = encodeFormData formData' →
     stringified formData = stringified formData').
Proof.
  unfold encodeFormData. rewrite !encodeFormData_acc. simpl.
  split; [done | apply flattenFields_inj].
Qed.

(** ** References and the object store *)

Lemma newRef_fresh {A : Type} (m : gmap nat A) : m !! newRef m = None.
Proof. apply not_elem_of_dom. unfold newRef. apply is_fresh. Qed.

Lemma newRef_ne {A : Type} (m : gmap nat A) (r : nat) :
  is_Some (m !! r) → newRef m ≠ r.
Proof. intros [x Hx] Heq. rewrite <- Heq, newRef_fresh in Hx. discriminate. Qed.

(** ** Entry cloning *)

(** C10.  [cloneCacheEntry] returns the entry object it was given and a new
    entry object.  Both have the timestamp, revalidate, expire and stale of
    the original and the very same tag array (the same reference, and no
    array of the store changes); their value streams are the two branches
    of the tee of the original's stream, which is locked by it; and the
    original object is written to: its value is the first branch. *)
Theorem cloneCacheEntry_shares_and_mutates (st : State) (entry : nat)
    (e : CacheEntry) (s : Stream) :
  entries st !! entry = Some e →
  streams st !! value e = Some s →
  ∃ streamA streamB clone st',
    cloneCacheEntry entry st = ((entry, clone), st')
    ∧ tee (value e) st = ((streamA, streamB), set_entries st' (entries st))
    ∧ clone ≠ entry ∧ entries st !! clone = None
    ∧ streamA ≠ streamB
    ∧ streams st !! streamA = None ∧ streams st !! streamB = None
    ∧ entries st' !! entry =
        Some (mkEntry streamA (timestamp e) (revalidate e) (expire e) (stale e) (tags e))
    ∧ entries st' !! clone =
        Some (mkEntry streamB (timestamp e) (revalidate e) (expire e) (stale e) (tags e))
    ∧ streams st' !! streamA = Some (mkStream (chunks s) (ending s) false false)
    ∧ streams st' !! streamB = Some (mkStream (chunks s) (ending s) false false)
    ∧ streams st' !! value e = Some (mkStream (chunks s) (ending s) true (tracked s))
    ∧ arrays st' = arrays st
    ∧ (∀ r, r ≠ entry → r ≠ clone → entries st' !! r = entries st !! r).
Proof.
  intros He Hs.
  pose proof (eq_refl (cloneCacheEntry entry st)) as Hc.
  unfold cloneCacheEntry at 2 in Hc. rewrite He in Hc.
  unfold tee, newStream, lockStream, contentOf in Hc. rewrite Hs in Hc. simpl in Hc.
  set (locked := alter _ (value e) (streams st)) in Hc.
  set (a := newRef locked) in Hc.
  set (withA := <[a := _]> locked) in Hc.
  set (b := newRef withA) in Hc.
  set (mutated := <[entry := _]> (entries st)) in Hc.
  set (clone := newRef mutated) in Hc.
  assert (Hlocked : locked !! value e
                    = Some (mkStream (chunks s) (ending s) true (tracked s))).
  { subst locked. by rewrite lookup_alter_eq, Hs. }
  assert (Ha : a ≠ value e) by (apply newRef_ne; eauto).
  assert (Hab : a ≠ b).
  { intros Heq. symmetry in Heq. revert Heq. apply newRef_ne.
    subst withA. rewrite lookup_insert_eq. eauto. }
  assert (Hb : b ≠ value e).
  { apply newRef_ne. subst withA. rewrite lookup_insert_ne by done. eauto. }
  assert (Hclone : clone ≠ entry).
  { apply newRef_ne. subst mutated. rewrite lookup_insert_eq. eauto. }
  assert (HaNone : locked !! a = None) by apply newRef_fresh.
  assert (HbNone : withA !! b = None) by apply newRef_fresh.
  exists a, b, clone. eexists. split; [exact Hc|]. split_and!; try done.
  - unfold tee, newStream, lockStream, contentOf. rewrite Hs. reflexivity.
  - pose proof (newRef_fresh mutated) as Hf. fold clone in Hf.
    subst mutated. by rewrite lookup_insert_ne in Hf.
  - subst locked. by rewrite lookup_alter_ne in HaNone.
  - subst withA locked. rewrite lookup_insert_ne in HbNone by done.
    by rewrite lookup_alter_ne in HbNone.
  - simpl. rewrite lookup_insert_ne by done. subst mutated. by rewrite lookup_insert_eq.
  - simpl. by rewrite lookup_insert_eq.
  - simpl. rewrite lookup_insert_ne by done. subst withA. by rewrite lookup_insert_eq.
  - simpl. by rewrite lookup_insert_eq.
  - simpl. rewrite lookup_insert_ne by done. subst withA.
    by rewrite lookup_insert_ne.
  - intros r Hr Hr'. simpl. rewrite lookup_insert_ne by done. subst mutated.
    by rewrite lookup_insert_ne.
Qed.

(** ** What the primitives leave alone *)

Ltac unfold_store_ops :=
  unfold tee, createTrackedReadableStream, newStream, newArray, newEntry,
    lockStream, resumeDataCacheSet, pushPendingWrite, setInvalidDynamicUsageError,
    emit, set_streams, set_entries, set_arrays, set_resumeDataCaches,
    set_workStore, set_workUnitStore in *.

Section PropagationFrame.
Context {S : Type} (o : option WorkUnitStore) (e : CacheEntryOf S (list Tag)).

Lemma propagate_type :
  wu_type <$> propagateCacheLifeAndTags o e = wu_type <$> o.
Proof.
  destruct o as [w|]; [|done]. unfold propagateCacheLifeAndTags.
  by destruct (receivesCacheLife (wu_type w)).
Qed.

Lemma propagate_cacheSignal :
  cacheSignalOf (propagateCacheLifeAndTags o e) = cacheSignalOf o.
Proof.
  destruct o as [w|]; [|done]. unfold propagateCacheLifeAndTags.
  by destruct (receivesCacheLife (wu_type w)).
Qed.

Lemma propagate_isPrerender :
  isPrerender (propagateCacheLifeAndTags o e) = isPrerender o.
Proof.
  destruct o as [w|]; [|done]. unfold propagateCacheLifeAndTags.
  by destruct (receivesCacheLife (wu_type w)).
Qed.

Lemma propagate_prerenderResumeDataCache :
  propagateCacheLifeAndTags o e ≫= wu_prerenderResumeDataCache
  = o ≫= wu_prerenderResumeDataCache.
Proof.
  destruct o as [w|]; [|done]. unfold propagateCacheLifeAndTags.
  by destruct (receivesCacheLife (wu_type w)).
Qed.

Lemma propagate_implicitTags :
  propagateCacheLifeAndTags o e ≫= wu_implicitTags = o ≫= wu_implicitTags.
Proof.
  destruct o as [w|]; [|done]. unfold propagateCacheLifeAndTags.
  by destruct (receivesCacheLife (wu_type w)).
Qed.
End PropagationFrame.

Lemma tee_log (r : nat) (st : State) : log (tee r st).2 = log st.
Proof. reflexivity. Qed.

Lemma tee_frame (r : nat) (st : State) :
  workStore (tee r st).2 = workStore st
  ∧ workUnitStore (tee r st).2 = workUnitStore st
  ∧ entries (tee r st).2 = entries st
  ∧ arrays (tee r st).2 = arrays st
  ∧ resumeDataCaches (tee r st).2 = resumeDataCaches st.
Proof. done. Qed.

Lemma cloneCacheEntry_frame (r : nat) (st : State) :
  log (cloneCacheEntry r st).2 = log st
  ∧ workStore (cloneCacheEntry r st).2 = workStore st
  ∧ workUnitStore (cloneCacheEntry r st).2 = workUnitStore st
  ∧ arrays (cloneCacheEntry r st).2 = arrays st
  ∧ resumeDataCaches (cloneCacheEntry r st).2 = resumeDataCaches st.
Proof. unfold cloneCacheEntry. by destruct (entries st !! r). Qed.

(** The read of a stream that is in the store is the same after another
    stream is made or any stream is locked. *)
Lemma contentOf_newStream (s : Stream) (r : nat) (st : State) :
  is_Some (streams st !! r) →
  contentOf r (newStream s st).2 = contentOf r st
  ∧ is_Some (streams (newStream s st).2 !! r).
Proof.
  intros Hr. unfold contentOf, newStream. simpl.
  rewrite lookup_insert_ne by (by apply newRef_ne). done.
Qed.

Lemma contentOf_lockStream (r' r : nat) (st : State) :
  contentOf r (lockStream r' st) = contentOf r st
  ∧ (is_Some (streams st !! r) → is_Some (streams (lockStream r' st) !! r)).
Proof.
  unfold contentOf, lockStream. simpl. rewrite lookup_alter.
  case_decide; [subst|done]. by destruct (streams st !! r).
Qed.

Lemma contentOf_new (s : Stream) (st : State) :
  contentOf (newStream s st).1 (newStream s st).2 = (chunks s, ending s)
  ∧ is_Some (streams (newStream s st).2 !! (newStream s st).1)
  ∧ streams st !! (newStream s st).1 = None.
Proof.
  unfold contentOf, newStream. simpl. rewrite lookup_insert_eq.
  split_and!; [done | eauto | apply newRef_fresh].
Qed.


Lemma contentOf_tee_branches (r : nat) (st : State) :
  contentOf (tee r st).1.1 (tee r st).2 = contentOf r st
  ∧ contentOf (tee r st).1.2 (tee r st).2 = contentOf r st
  ∧ is_Some (streams (tee r st).2 !! (tee r st).1.1)
  ∧ is_Some (streams (tee r st).2 !! (tee r st).1.2)
  ∧ streams st !! (tee r st).1.1 = None
  ∧ streams st !! (tee r st).1.2 = None.
Proof.
  unfold tee. cbn [snd fst].
  set (st1 := lockStream r st).
  set (sa := mkStream _ _ _ _).
  destruct (contentOf_new sa st1) as (Ha & Ha' & Ha'').
  destruct (contentOf_new sa (newStream sa st1).2) as (Hb & Hb' & Hb'').
  destruct (contentOf_newStream sa (newStream sa st1).1 (newStream sa st1).2)
    as [Hc Hc']; [done|].
  assert (Hlk : ∀ x, streams st1 !! x = None → streams st !! x = None).
  { intros x. unfold st1, lockStream. simpl. rewrite lookup_alter.
    case_decide; [subst|done]. by destruct (streams st !! x). }
  split_and!; try done.
  - rewrite Hc, Ha. subst sa. simpl. by destruct (contentOf r st).
  - rewrite Hb. subst sa. simpl. by destruct (contentOf r st).
  - by apply Hlk.
  - apply Hlk. revert Hb''. unfold newStream at 1. simpl.
    rewrite lookup_insert_None. tauto.
Qed.

(** ** Entry generation *)

Lemma outerStore_propagateToOuter (passed : bool) (e : CacheEntryOf nat (list Tag))
    (st : State) :
  cacheSignalOf (outerStore passed (propagateToOuter passed e st))
  = cacheSignalOf (outerStore passed st).
Proof.
  unfold outerStore, propagateToOuter. destruct passed; [|done]. simpl.
  apply propagate_cacheSignal.
Qed.

Lemma outerStore_same (passed : bool) (st st' : State) :
  workUnitStore st' = workUnitStore st → outerStore passed st' = outerStore passed st.
Proof. unfold outerStore. by intros ->. Qed.

Ltac same_outer st :=
  repeat match goal with
  | |- context [outerStore ?p ?x] =>
      lazymatch x with
      | st => fail
      | _ => rewrite (outerStore_same p st x eq_refl)
      end
  end.

Section CollectResult.
Context (savedStream : nat) (passed : bool) (inner : UseCacheStore)
        (startTime : Z) (errors : list JsError) (st : State).

Let collected := collectResult savedStream passed inner startTime errors st.

Lemma collectResult_log :
  log collected.2 =
    log st ++ match (contentOf savedStream st).2 with
              | Pending => []
              | _ => if cacheSignalOf (outerStore passed st) then [EndRead] else []
              end.
Proof.
  subst collected. unfold collectResult.
  destruct (contentOf savedStream st).2; cbn [snd];
    try (by rewrite List.app_nil_r);
    rewrite outerStore_propagateToOuter; same_outer st;
    (destruct (cacheSignalOf _); [by destruct passed|]);
    (destruct passed; simpl; by rewrite List.app_nil_r).
Qed.

Lemma collectResult_frame :
  workStore collected.2 = workStore st
  ∧ resumeDataCaches collected.2 = resumeDataCaches st
  ∧ cacheSignalOf (workUnitStore collected.2) = cacheSignalOf (workUnitStore st)
  ∧ isPrerender (workUnitStore collected.2) = isPrerender (workUnitStore st)
  ∧ workUnitStore collected.2 ≫= wu_prerenderResumeDataCache
    = workUnitStore st ≫= wu_prerenderResumeDataCache
  ∧ (passed = false → workUnitStore collected.2 = workUnitStore st).
Proof.
  subst collected. unfold collectResult.
  destruct (contentOf savedStream st).2; cbn [snd]; try done;
    (destruct (cacheSignalOf _));
    unfold propagateToOuter; destruct passed; simpl;
    rewrite ?propagate_cacheSignal, ?propagate_isPrerender,
      ?propagate_prerenderResumeDataCache; done.
Qed.

Lemma collectResult_streams (r : nat) :
  is_Some (streams st !! r) →
  contentOf r collected.2 = contentOf r st ∧ is_Some (streams collected.2 !! r).
Proof.
  intros Hr. subst collected. unfold collectResult.
  destruct (contentOf_lockStream savedStream r st) as [Hl Hl'].
  specialize (Hl' Hr).
  destruct (contentOf savedStream st).2; cbn [snd]; try done;
    match goal with
    | |- context [newStream ?s ?x] =>
        destruct (contentOf_newStream s r x) as [Hn Hn']; [done|]
    end;
    (destruct (cacheSignalOf _));
    unfold propagateToOuter; destruct passed;
    unfold contentOf in *; simpl in *; rewrite ?Hn; done.
Qed.

Lemma collectResult_entries (r : nat) :
  is_Some (entries st !! r) → entries collected.2 !! r = entries st !! r.
Proof.
  intros Hr. subst collected. unfold collectResult.
  destruct (contentOf savedStream st).2; cbn [snd]; try done;
    (destruct (cacheSignalOf _));
    unfold propagateToOuter; destruct passed; simpl;
    rewrite lookup_insert_ne by (by apply newRef_ne); done.
Qed.

Lemma collectResult_pending :
  collected.1 = None ↔ (contentOf savedStream st).2 = Pending.
Proof.
  subst collected. unfold collectResult.
  destruct (contentOf savedStream st).2; cbn [fst]; done.
Qed.

End CollectResult.

Section TeeAndCollect.
Context (passed : bool) (inner : UseCacheStore) (startTime : Z)
        (errors : list JsError) (s : Stream) (st : State).

Let made := newStream s st.
Let split := tee made.1 made.2.
Let collected :=
  collectResult split.1.2 passed inner startTime errors split.2.
Let result := teeAndCollect passed inner startTime errors s st.

Lemma teeAndCollect_unfold : result = (Cached split.1.1 collected.1, collected.2).
Proof. reflexivity. Qed.

Lemma teeAndCollect_saved_content : contentOf split.1.2 split.2 = (chunks s, ending s).
Proof.
  destruct (contentOf_tee_branches made.1 made.2) as (_ & Hb & _).
  destruct (contentOf_new s st) as (Hn & _).
  subst split made. by rewrite Hb, Hn.
Qed.

Lemma teeAndCollect_log :
  log result.2 =
    log st ++ match ending s with
              | Pending => []
              | _ => if cacheSignalOf (outerStore passed st) then [EndRead] else []
              end.
Proof.
  rewrite teeAndCollect_unfold. cbn [snd]. subst collected.
  rewrite collectResult_log, teeAndCollect_saved_content. cbn [snd].
  same_outer st. reflexivity.
Qed.

Lemma teeAndCollect_frame :
  workStore result.2 = workStore st
  ∧ resumeDataCaches result.2 = resumeDataCaches st
  ∧ cacheSignalOf (workUnitStore result.2) = cacheSignalOf (workUnitStore st)
  ∧ isPrerender (workUnitStore result.2) = isPrerender (workUnitStore st)
  ∧ workUnitStore result.2 ≫= wu_prerenderResumeDataCache
    = workUnitStore st ≫= wu_prerenderResumeDataCache
  ∧ (passed = false → workUnitStore result.2 = workUnitStore st).
Proof.
  rewrite teeAndCollect_unfold. cbn [snd]. subst collected.
  apply (collectResult_frame split.1.2 passed inner startTime errors split.2).
Qed.

Lemma teeAndCollect_returned :
  ∃ ret pending,
    result.1 = Cached ret pending
    ∧ contentOf ret result.2 = (chunks s, ending s)
    ∧ streams st !! ret = None
    ∧ is_Some (streams result.2 !! ret)
    ∧ (pending = None ↔ ending s = Pending).
Proof.
  exists split.1.1, collected.1. rewrite teeAndCollect_unfold. cbn [fst snd].
  destruct (contentOf_tee_branches made.1 made.2) as (Ha & _ & Ha' & _ & Ha'' & _).
  destruct (contentOf_new s st) as (Hn & _ & _).
  destruct (collectResult_streams split.1.2 passed inner startTime errors split.2
              split.1.1 Ha') as [Hc Hc'].
  split_and!; [done| | |done|].
  - subst collected split made. by rewrite Hc, Ha, Hn.
  - revert Ha''. subst split made. unfold newStream at 2. simpl.
    rewrite lookup_insert_None. tauto.
  - subst collected. rewrite collectResult_pending, teeAndCollect_saved_content. done.
Qed.


Lemma teeAndCollect_entries (r : nat) :
  is_Some (entries st !! r) → entries result.2 !! r = entries st !! r.
Proof.
  intros Hr. rewrite teeAndCollect_unfold. cbn [snd]. subst collected.
  by rewrite collectResult_entries.
Qed.

End TeeAndCollect.

Lemma notAfter_timer_false (a : option Z) :
  notAfter a (Some USE_CACHE_TIMEOUT) = false ↔ (∀ t, a = Some t → USE_CACHE_TIMEOUT < t).
Proof.
  destruct a as [t|]; simpl.
  - rewrite Z.leb_gt. split; [by intros H t' [= <-]|eauto].
  - split; [done|done].
Qed.



Section GenerateImpl.
Context (passed : bool) (inner : UseCacheStore) (r : Rendering) (st : State).

Lemma generateCacheEntryImpl_normal :
  isPrerender (outerStore passed st) = false →
  generateCacheEntryImpl passed inner r st =
    teeAndCollect passed (r_body r inner) (r_startTime r) (r_reported r)
      (match r_completesAt r with
       | Some _ => renderedStream r
       | None => mkStream (r_chunks r) Pending false false
       end) st.
Proof. intros H. unfold generateCacheEntryImpl. by rewrite H. Qed.

Lemma generateCacheEntryImpl_timeout :
  isPrerender (outerStore passed st) = true →
  prerenderEnd r = ByTimeout →
  generateCacheEntryImpl passed inner r st =
    teeAndCollect passed (r_body r inner) (r_startTime r) (r_reported r)
      (mkStream [] (Errored UseCacheTimeoutError) false false)
      (setInvalidDynamicUsageError UseCacheTimeoutError st).
Proof. intros H H'. unfold generateCacheEntryImpl. by rewrite H, H'. Qed.

Lemma generateCacheEntryImpl_dynamic :
  isPrerender (outerStore passed st) = true →
  prerenderEnd r = ByDynamicAccess →
  generateCacheEntryImpl passed inner r st =
    (PrerenderDynamic,
     if cacheSignalOf (outerStore passed st) then emit EndRead st else st).
Proof. intros H H'. unfold generateCacheEntryImpl. by rewrite H, H'. Qed.

Lemma generateCacheEntryImpl_prelude :
  isPrerender (outerStore passed st) = true →
  prerenderEnd r ≠ ByTimeout → prerenderEnd r ≠ ByDynamicAccess →
  generateCacheEntryImpl passed inner r st =
    teeAndCollect passed (r_body r inner) (r_startTime r) (r_reported r)
      (renderedStream r) st.
Proof.
  intros H H1 H2. unfold generateCacheEntryImpl. rewrite H.
  by rewrite !bool_decide_eq_false_2.
Qed.
End GenerateImpl.


(** ** Tag invalidation *)

Lemma isRecentlyRevalidatedTag_spec (tag : Tag) (workStore : WorkStore) :
  isRecentlyRevalidatedTag tag workStore = true ↔ recentlyRevalidated workStore tag.
Proof.
  unfold isRecentlyRevalidatedTag, recentlyRevalidated.
  case_bool_decide as Hprev; [by split; auto|].
  destruct (pendingRevalidatedTags workStore) as [pending|].
  - case_bool_decide as Hpend.
    + split; [|done]. intros _. right. by exists pending.
    + split; [done|]. intros [?|(p & [= <-] & ?)]; done.
  - split; [done|]. intros [?|(p & ? & ?)]; done.
Qed.

Lemma existsb_recentlyRevalidated (workStore : WorkStore) (l : list Tag) :
  existsb (λ tag, isRecentlyRevalidatedTag tag workStore) l = true
  ↔ ∃ tag, tag ∈ l ∧ recentlyRevalidated workStore tag.
Proof.
  rewrite existsb_exists. split; intros (tag & Hin & Hrec); exists tag.
  - by rewrite list_elem_of_In, <- isRecentlyRevalidatedTag_spec.
  - by rewrite <- list_elem_of_In, isRecentlyRevalidatedTag_spec.
Qed.

Lemma shouldDiscardCacheEntry_spec {S : Type} (entry : CacheEntryOf S (list Tag))
    (workStore : WorkStore) (implicitTags : list Tag) (implicitTagsExpiration : Z) :
  shouldDiscardCacheEntry entry workStore implicitTags implicitTagsExpiration = true
  ↔ (∃ tag, tag ∈ tags entry ∧ recentlyRevalidated workStore tag)
    ∨ timestamp entry ≤ implicitTagsExpiration
    ∨ (∃ tag, tag ∈ implicitTags ∧ recentlyRevalidated workStore tag).
Proof.
  unfold shouldDiscardCacheEntry. rewrite <- !existsb_recentlyRevalidated.
  destruct (existsb _ (tags entry)); [by split; auto|].
  destruct (Z.leb_spec (timestamp entry) implicitTagsExpiration); [by split; auto|].
  destruct (existsb _ implicitTags); [by split; auto|].
  split; [done|]. intros [?|[?|?]]; try done. lia.
Qed.

(** ** The lookup in the resume data cache *)

Lemma resumeLookup_miss (key : JsString) (st : State) :
  (resumeLookup key st).1 = Next None →
  streams (resumeLookup key st).2 = streams st
  ∧ entries (resumeLookup key st).2 = entries st
  ∧ arrays (resumeLookup key st).2 = arrays st
  ∧ resumeDataCaches (resumeLookup key st).2 = resumeDataCaches st
  ∧ workStore (resumeLookup key st).2 = workStore st
  ∧ workUnitStore (resumeLookup key st).2 = workUnitStore st.
Proof.
  unfold resumeLookup.
  destruct (workUnitStore st ≫= wu_renderResumeDataCache) as [c|]; [|done].
  destruct (resumeDataCacheGet c key _) as [cachedEntry|].
  - destruct (cachedEntry ≫= _) as [[existing existingEntry]|]; [|done].
    destruct (isDynamicEntry _ _); [done|].
    by destruct (cacheSignalOf (workUnitStore st)).
  - destruct (cacheSignalOf (workUnitStore st)); simpl;
      (destruct (workUnitStore st) as [w|] eqn:Hw; simpl; [|done]);
      by destruct (wu_allowEmptyStaticShell w), (bool_decide (wu_type w = TPrerender)).
Qed.

Lemma viewEntry_same (r : nat) (st st' : State) :
  entries st' = entries st → arrays st' = arrays st →
  viewEntry r st' = viewEntry r st.
Proof. unfold viewEntry. by intros -> ->. Qed.

Section EmitFrame.
Context (ev : Event) (st : State).

Lemma emit_workStore : workStore (emit ev st) = workStore st.
Proof. reflexivity. Qed.
Lemma emit_workUnitStore : workUnitStore (emit ev st) = workUnitStore st.
Proof. reflexivity. Qed.
Lemma emit_entries : entries (emit ev st) = entries st.
Proof. reflexivity. Qed.
Lemma emit_arrays : arrays (emit ev st) = arrays st.
Proof. reflexivity. Qed.
Lemma emit_streams : streams (emit ev st) = streams st.
Proof. reflexivity. Qed.
Lemma emit_resumeDataCaches : resumeDataCaches (emit ev st) = resumeDataCaches st.
Proof. reflexivity. Qed.
Lemma emit_log : log (emit ev st) = log st ++ [ev].
Proof. reflexivity. Qed.
Lemma emit_viewEntry (r : nat) : viewEntry r (emit ev st) = viewEntry r st.
Proof. reflexivity. Qed.
Lemma emit_contentOf (r : nat) : contentOf r (emit ev st) = contentOf r st.
Proof. reflexivity. Qed.
End EmitFrame.

Create Rewrite HintDb store.

#[local] Hint Rewrite emit_workStore emit_workUnitStore emit_entries emit_arrays
  emit_streams emit_resumeDataCaches emit_log emit_viewEntry emit_contentOf : store.

(** An entry that is discarded leaves the lookup as no entry does. *)
Lemma handlerLookup_discarded (inv : Invocation) (key : JsString) (st : State)
    (r : nat) (e : CacheEntryOf nat (list Tag)) :
  handlerEntry inv = Some r →
  viewEntry r st = Some e →
  shouldDiscardCacheEntry e (workStore st) (implicitTagsOf (workUnitStore st))
    (implicitTagsExpirationOf (workUnitStore st)) = true →
  handlerLookup inv key st = handlerLookup (withHandlerEntry inv None) key st.
Proof.
  intros Hh Hv Hd. unfold handlerLookup. rewrite Hh.
  destruct (cacheSignalOf (workUnitStore st)); cbn [fst snd];
    (destruct (shouldForceRevalidate _ _); cbn [fst snd]; [done|]);
    cbn [mbind option_bind]; autorewrite with store; rewrite Hv;
    cbn [fmap option_fmap option_map]; by rewrite Hd.
Qed.

(** C5.  An entry that the handler returns is discarded, whatever its age,
    as soon as one of its tags is among the previously revalidated or the
    pending revalidated tags of the work store, or its timestamp is at or
    before the expiration of the implicit tags (the time the lookup compares
    with: 0 when the handler gives none or [Infinity]), or an implicit tag
    is among the revalidated tags; and the invocation then runs as if the
    handler had returned no entry. *)
Theorem tag_invalidation_precedence (inv : Invocation) (st : State) (r : nat)
    (e : CacheEntryOf nat (list Tag)) :
  handlerEntry inv = Some r →
  viewEntry r st = Some e →
  (∃ tag, tag ∈ tags e ∧ recentlyRevalidated (workStore st) tag)
  ∨ timestamp e ≤ implicitTagsExpirationOf (workUnitStore st)
  ∨ (∃ tag, tag ∈ implicitTagsOf (workUnitStore st)
            ∧ recentlyRevalidated (workStore st) tag) →
  shouldDiscardCacheEntry e (workStore st) (implicitTagsOf (workUnitStore st))
    (implicitTagsExpirationOf (workUnitStore st)) = true
  ∧ cache inv st = cache (withHandlerEntry inv None) st.
Proof.
  intros Hh Hv Hcond. apply shouldDiscardCacheEntry_spec in Hcond.
  split; [done|]. unfold cache. simpl.
  destruct (isPrerender _ && _ && _); [done|].
  set (key := match encodedCacheKeyParts inv with inl s => s | inr f => _ end).
  destruct (resumeLookup key st).1 as [o|[stream|]] eqn:Hres; try reflexivity.
  destruct (resumeLookup_miss key st Hres) as (_ & He & Ha & _ & Hws & Hwu).
  rewrite (handlerLookup_discarded inv key _ r e); try done.
  - by rewrite (viewEntry_same r st _ He Ha).
  - by rewrite Hws, Hwu.
Qed.

(** ** The log of a generation and of a save *)

Lemma cacheSignalOf_isPrerender (o : option WorkUnitStore) :
  cacheSignalOf o = true → isPrerender o = true.
Proof.
  destruct o as [w|]; [|done]. unfold cacheSignalOf, isPrerender.
  by intros [? _]%andb_true_iff.
Qed.

Lemma generateCacheEntry_log (passed : bool) (r : Rendering) (st : State) :
  log (generateCacheEntry passed r st).2 =
    log st ++ Generate (wu_type <$> outerStore passed st)
           :: (if cacheSignalOf (outerStore passed st) then [EndRead] else []).
Proof.
  unfold generateCacheEntry.
  set (inner := mkUseCacheStore _ _ _ _ _ _ _ _ _).
  set (st1 := emit _ st).
  assert (Ho : outerStore passed st1 = outerStore passed st) by done.
  destruct (isPrerender (outerStore passed st1)) eqn:Hpre.
  - destruct (decide (prerenderEnd r = ByTimeout)) as [Ht|Ht];
      [|destruct (decide (prerenderEnd r = ByDynamicAccess)) as [Hd|Hd]].
    + rewrite generateCacheEntryImpl_timeout, teeAndCollect_log by done.
      simpl. by rewrite <- List.app_assoc.
    + rewrite generateCacheEntryImpl_dynamic by done. cbn [snd]. rewrite Ho.
      destruct (cacheSignalOf _); simpl; by rewrite <- ?List.app_assoc.
    + rewrite generateCacheEntryImpl_prelude, teeAndCollect_log by done.
      rewrite Ho. unfold renderedStream. simpl.
      destruct (r_fatal r); simpl; by rewrite <- List.app_assoc.
  - rewrite generateCacheEntryImpl_normal, teeAndCollect_log by done.
    rewrite Ho in *.
    destruct (cacheSignalOf (outerStore passed st)) eqn:Hsig.
    + apply cacheSignalOf_isPrerender in Hsig. congruence.
    + simpl. rewrite <- List.app_assoc.
      by destruct (match r_completesAt r with Some _ => _ | None => _ end).(ending).
Qed.

Lemma generateCacheEntry_unpassed (r : Rendering) (st : State) :
  ∃ inner,
    generateCacheEntry false r st =
      teeAndCollect false inner (r_startTime r) (r_reported r)
        (match r_completesAt r with
         | Some _ => renderedStream r
         | None => mkStream (r_chunks r) Pending false false
         end) (emit (Generate None) st).
Proof.
  eexists. unfold generateCacheEntry. by rewrite generateCacheEntryImpl_normal.
Qed.

Lemma cloneCacheEntry_first (r : nat) (st : State) : (cloneCacheEntry r st).1.1 = r.
Proof. unfold cloneCacheEntry. by destruct (entries st !! r). Qed.


Section SaveGenerated.
Context (key : JsString) (pending : option nat) (st : State).

Lemma saveGenerated_log :
  ∃ clone,
    log (saveGenerated key pending st) =
      log st
      ++ match workUnitStore st ≫= wu_prerenderResumeDataCache with
         | Some c => [ResumeDataCacheSet c key clone]
         | None => []
         end
      ++ [HandlerSet key pending].
Proof.
  unfold saveGenerated.
  destruct (workUnitStore st ≫= wu_prerenderResumeDataCache) as [c|].
  - destruct pending as [entry|].
    + eexists. cbn [fst snd]. rewrite cloneCacheEntry_first.
      unfold pushPendingWrite, resumeDataCacheSet. simpl.
      destruct (cloneCacheEntry_frame entry st) as (-> & _).
      by rewrite <- List.app_assoc.
    + exists None. simpl. by rewrite <- List.app_assoc.
  - exists None. done.
Qed.


End SaveGenerated.

(** ** The freshness decision *)

Lemma countEvents_app (p : Event → bool) (l l' : list Event) :
  countEvents p (l ++ l') = (countEvents p l + countEvents p l')%nat.
Proof. induction l as [|ev l IH]; simpl; [done|]. rewrite IH. lia. Qed.

Section AfterGet.
Context (key : JsString) (st : State).

Lemma afterGet_workStore : workStore (afterGet key st) = workStore st.
Proof. unfold afterGet. by destruct (cacheSignalOf _). Qed.
Lemma afterGet_workUnitStore : workUnitStore (afterGet key st) = workUnitStore st.
Proof. unfold afterGet. by destruct (cacheSignalOf _). Qed.
Lemma afterGet_entries : entries (afterGet key st) = entries st.
Proof. unfold afterGet. by destruct (cacheSignalOf _). Qed.
Lemma afterGet_arrays : arrays (afterGet key st) = arrays st.
Proof. unfold afterGet. by destruct (cacheSignalOf _). Qed.
Lemma afterGet_streams : streams (afterGet key st) = streams st.
Proof. unfold afterGet. by destruct (cacheSignalOf _). Qed.
Lemma afterGet_resumeDataCaches :
  resumeDataCaches (afterGet key st) = resumeDataCaches st.
Proof. unfold afterGet. by destruct (cacheSignalOf _). Qed.
Lemma afterGet_contentOf (r : nat) : contentOf r (afterGet key st) = contentOf r st.
Proof. unfold afterGet. by destruct (cacheSignalOf _). Qed.
Lemma afterGet_log :
  log (afterGet key st) =
    log st ++ (if cacheSignalOf (workUnitStore st) then [BeginRead] else [])
           ++ [HandlerGet key (implicitTagsOf (workUnitStore st))].
Proof.
  unfold afterGet. destruct (cacheSignalOf _); simpl; [|done].
  by rewrite <- List.app_assoc.
Qed.
End AfterGet.

#[local] Hint Rewrite afterGet_workStore afterGet_workUnitStore afterGet_entries
  afterGet_arrays afterGet_streams afterGet_resumeDataCaches afterGet_contentOf
  afterGet_log : store.


Lemma missPath_generates (inv : Invocation) (key : JsString) (st : State) :
  Generate (wu_type <$> workUnitStore st) ∈ log (missPath inv key st).2.
Proof.
  unfold missPath. cbn zeta.
  pose proof (generateCacheEntry_log true (rendering inv) st) as Hlog.
  assert (Hin : Generate (wu_type <$> workUnitStore st)
                ∈ log (generateCacheEntry true (rendering inv) st).2).
  { rewrite Hlog. apply elem_of_app. right. apply elem_of_cons. by left. }
  destruct (generateCacheEntry true (rendering inv) st).1 as [s pending|]; [|done].
  cbn [snd]. destruct (negb _); [|done].
  destruct (saveGenerated_log key pending
              (generateCacheEntry true (rendering inv) st).2) as (clone & ->).
  apply elem_of_app. by left.
Qed.

Lemma handlerLookup_none (inv : Invocation) (key : JsString) (st : State) :
  shouldForceRevalidate (workStore st) (workUnitStore st) = false →
  handlerLookup (withHandlerEntry inv None) key st = missPath inv key (afterGet key st).
Proof.
  intros Hforce. unfold handlerLookup, afterGet.
  destruct (cacheSignalOf (workUnitStore st)); cbn [fst snd];
    autorewrite with store; by rewrite Hforce.
Qed.

(** What [handlerLookup] does with an entry that the handler returned and
    that was not discarded. *)
Lemma handlerLookup_kept (inv : Invocation) (key : JsString) (st : State)
    (r : nat) (e : CacheEntryOf nat (list Tag)) :
  shouldForceRevalidate (workStore st) (workUnitStore st) = false →
  handlerEntry inv = Some r →
  viewEntry r st = Some e →
  shouldDiscardCacheEntry e (workStore st) (implicitTagsOf (workUnitStore st))
    (implicitTagsExpirationOf (workUnitStore st)) = false →
  handlerLookup inv key st =
    if isDynamicEntry (workUnitStore st) e then
      (Return (HangingPromise DynamicUseCache),
       if cacheSignalOf (workUnitStore st)
       then emit EndRead (afterGet key st) else afterGet key st)
    else if (currentTime inv >? timestamp e + expire e * 1000)
            || (isStaticGeneration (workStore st)
                && (currentTime inv >? timestamp e + revalidate e * 1000))
    then missPath inv key (afterGet key st)
    else hitPath inv key r e (afterGet key st).
Proof.
  intros Hforce Hh Hv Hd. unfold handlerLookup, afterGet. rewrite Hh.
  destruct (cacheSignalOf (workUnitStore st)); cbn [fst snd];
    autorewrite with store; rewrite Hforce; cbn [fst snd mbind option_bind];
    autorewrite with store; rewrite Hv; cbn [fmap option_fmap option_map];
    by rewrite Hd.
Qed.

(** C3, as the code has it.  An entry that the handler returned, that was
    not discarded, and whose expire window has passed (or, under static
    generation, whose revalidate window has passed) is never served.  Unless
    the work unit is a prerender and the entry counts as dynamic
    ([revalidate] 0 or [expire] under [DYNAMIC_EXPIRE]), the lookup is a
    miss: it runs the branch that generates a new entry, exactly as if the
    handler had returned nothing.  In the excepted case the invocation
    returns the hanging promise and generates nothing. *)
Theorem expired_entry_not_served (inv : Invocation) (key : JsString) (st : State)
    (r : nat) (e : CacheEntryOf nat (list Tag)) :
  shouldForceRevalidate (workStore st) (workUnitStore st) = false →
  handlerEntry inv = Some r →
  viewEntry r st = Some e →
  shouldDiscardCacheEntry e (workStore st) (implicitTagsOf (workUnitStore st))
    (implicitTagsExpirationOf (workUnitStore st)) = false →
  timestamp e + expire e * 1000 < currentTime inv
  ∨ (isStaticGeneration (workStore st) = true
     ∧ timestamp e + revalidate e * 1000 < currentTime inv) →
  (isDynamicEntry (workUnitStore st) e = false →
     handlerLookup inv key st = missPath inv key (afterGet key st)
     ∧ handlerLookup inv key st = handlerLookup (withHandlerEntry inv None) key st
     ∧ Generate (wu_type <$> workUnitStore st) ∈ log (handlerLookup inv key st).2)
  ∧ (isDynamicEntry (workUnitStore st) e = true →
     handlerLookup inv key st =
       (Return (HangingPromise DynamicUseCache),
        if cacheSignalOf (workUnitStore st)
        then emit EndRead (afterGet key st) else afterGet key st)
     ∧ countEvents isGenerate (log (handlerLookup inv key st).2)
       = countEvents isGenerate (log st)).
Proof.
  intros Hforce Hh Hv Hd Hold.
  pose proof (handlerLookup_kept inv key st r e Hforce Hh Hv Hd) as Heq.
  assert (Hcond : (currentTime inv >? timestamp e + expire e * 1000)
                  || (isStaticGeneration (workStore st)
                      && (currentTime inv >? timestamp e + revalidate e * 1000))
                  = true).
  { apply orb_true_iff. destruct Hold as [Hexp|[Hstatic Hrev]].
    - left. apply Z.gtb_lt. lia.
    - right. rewrite Hstatic. apply Z.gtb_lt. lia. }
  rewrite Hcond in Heq. split; intros Hdyn; rewrite Hdyn in Heq.
  - split_and!; [done| |].
    + by rewrite handlerLookup_none.
    + rewrite Heq. rewrite <- (afterGet_workUnitStore key st).
      apply missPath_generates.
  - split; [done|]. rewrite Heq. cbn [snd].
    destruct (cacheSignalOf (workUnitStore st)) eqn:Hsig; autorewrite with store;
      rewrite ?Hsig, ?countEvents_app; simpl; lia.
Qed.

(** ** Which fields of the state an operation leaves alone *)

Lemma newStream_keeps_workStore (s : Stream) (st : State) :
  workStore (newStream s st).2 = workStore st.
Proof. reflexivity. Qed.

Lemma newStream_keeps_workUnitStore (s : Stream) (st : State) :
  workUnitStore (newStream s st).2 = workUnitStore st.
Proof. reflexivity. Qed.

Lemma newStream_keeps_log (s : Stream) (st : State) :
  log (newStream s st).2 = log st.
Proof. reflexivity. Qed.

Lemma newStream_keeps_resumeDataCaches (s : Stream) (st : State) :
  resumeDataCaches (newStream s st).2 = resumeDataCaches st.
Proof. reflexivity. Qed.

Lemma newStream_keeps_entries (s : Stream) (st : State) :
  entries (newStream s st).2 = entries st.
Proof. reflexivity. Qed.

Lemma newStream_keeps_arrays (s : Stream) (st : State) :
  arrays (newStream s st).2 = arrays st.
Proof. reflexivity. Qed.

Lemma lockStream_keeps_workStore (r : nat) (st : State) :
  workStore (lockStream r st) = workStore st.
Proof. reflexivity. Qed.

Lemma lockStream_keeps_workUnitStore (r : nat) (st : State) :
  workUnitStore (lockStream r st) = workUnitStore st.
Proof. reflexivity. Qed.

Lemma lockStream_keeps_log (r : nat) (st : State) :
  log (lockStream r st) = log st.
Proof. reflexivity. Qed.

Lemma lockStream_keeps_resumeDataCaches (r : nat) (st : State) :
  resumeDataCaches (lockStream r st) = resumeDataCaches st.
Proof. reflexivity. Qed.

Lemma lockStream_keeps_entries (r : nat) (st : State) :
  entries (lockStream r st) = entries st.
Proof. reflexivity. Qed.

Lemma lockStream_keeps_arrays (r : nat) (st : State) :
  arrays (lockStream r st) = arrays st.
Proof. reflexivity. Qed.

Lemma tee_keeps_workStore (r : nat) (st : State) :
  workStore (tee r st).2 = workStore st.
Proof. reflexivity. Qed.

Lemma tee_keeps_workUnitStore (r : nat) (st : State) :
  workUnitStore (tee r st).2 = workUnitStore st.
Proof. reflexivity. Qed.

Lemma tee_keeps_log (r : nat) (st : State) :
  log (tee r st).2 = log st.
Proof. reflexivity. Qed.

Lemma tee_keeps_resumeDataCaches (r : nat) (st : State) :
  resumeDataCaches (tee r st).2 = resumeDataCaches st.
Proof. reflexivity. Qed.

Lemma tee_keeps_entries (r : nat) (st : State) :
  entries (tee r st).2 = entries st.
Proof. reflexivity. Qed.

Lemma tee_keeps_arrays (r : nat) (st : State) :
  arrays (tee r st).2 = arrays st.
Proof. reflexivity. Qed.

Lemma tracked_keeps_workStore (r : nat) (st : State) :
  workStore (createTrackedReadableStream r st).2 = workStore st.
Proof. reflexivity. Qed.

Lemma tracked_keeps_workUnitStore (r : nat) (st : State) :
  workUnitStore (createTrackedReadableStream r st).2 = workUnitStore st.
Proof. reflexivity. Qed.

Lemma tracked_keeps_log (r : nat) (st : State) :
  log (createTrackedReadableStream r st).2 = log st.
Proof. reflexivity. Qed.

Lemma tracked_keeps_resumeDataCaches (r : nat) (st : State) :
  resumeDataCaches (createTrackedReadableStream r st).2 = resumeDataCaches st.
Proof. reflexivity. Qed.

Lemma tracked_keeps_entries (r : nat) (st : State) :
  entries (createTrackedReadableStream r st).2 = entries st.
Proof. reflexivity. Qed.

Lemma tracked_keeps_arrays (r : nat) (st : State) :
  arrays (createTrackedReadableStream r st).2 = arrays st.
Proof. reflexivity. Qed.

Lemma clone_keeps_workStore (r : nat) (st : State) :
  workStore (cloneCacheEntry r st).2 = workStore st.
Proof. unfold cloneCacheEntry. by destruct (entries st !! r). Qed.

Lemma clone_keeps_workUnitStore (r : nat) (st : State) :
  workUnitStore (cloneCacheEntry r st).2 = workUnitStore st.
Proof. unfold cloneCacheEntry. by destruct (entries st !! r). Qed.

Lemma clone_keeps_log (r : nat) (st : State) :
  log (cloneCacheEntry r st).2 = log st.
Proof. unfold cloneCacheEntry. by destruct (entries st !! r). Qed.

Lemma clone_keeps_resumeDataCaches (r : nat) (st : State) :
  resumeDataCaches (cloneCacheEntry r st).2 = resumeDataCaches st.
Proof. unfold cloneCacheEntry. by destruct (entries st !! r). Qed.

Lemma clone_keeps_arrays (r : nat) (st : State) :
  arrays (cloneCacheEntry r st).2 = arrays st.
Proof. unfold cloneCacheEntry. by destruct (entries st !! r). Qed.

Lemma rdcSet_keeps_workStore (c : nat) (k : JsString) (v : option nat) (st : State) :
  workStore (resumeDataCacheSet c k v st) = workStore st.
Proof. reflexivity. Qed.

Lemma rdcSet_keeps_workUnitStore (c : nat) (k : JsString) (v : option nat) (st : State) :
  workUnitStore (resumeDataCacheSet c k v st) = workUnitStore st.
Proof. reflexivity. Qed.

Lemma rdcSet_keeps_entries (c : nat) (k : JsString) (v : option nat) (st : State) :
  entries (resumeDataCacheSet c k v st) = entries st.
Proof. reflexivity. Qed.

Lemma rdcSet_keeps_arrays (c : nat) (k : JsString) (v : option nat) (st : State) :
  arrays (resumeDataCacheSet c k v st) = arrays st.
Proof. reflexivity. Qed.

Lemma rdcSet_keeps_streams (c : nat) (k : JsString) (v : option nat) (st : State) :
  streams (resumeDataCacheSet c k v st) = streams st.
Proof. reflexivity. Qed.

Lemma setWus_keeps_workStore (st : State) (w : option WorkUnitStore) :
  workStore (set_workUnitStore st w) = workStore st.
Proof. reflexivity. Qed.

Lemma setWus_keeps_log (st : State) (w : option WorkUnitStore) :
  log (set_workUnitStore st w) = log st.
Proof. reflexivity. Qed.

Lemma setWus_keeps_resumeDataCaches (st : State) (w : option WorkUnitStore) :
  resumeDataCaches (set_workUnitStore st w) = resumeDataCaches st.
Proof. reflexivity. Qed.

Lemma setWus_keeps_entries (st : State) (w : option WorkUnitStore) :
  entries (set_workUnitStore st w) = entries st.
Proof. reflexivity. Qed.

Lemma setWus_keeps_arrays (st : State) (w : option WorkUnitStore) :
  arrays (set_workUnitStore st w) = arrays st.
Proof. reflexivity. Qed.

Lemma setWus_keeps_streams (st : State) (w : option WorkUnitStore) :
  streams (set_workUnitStore st w) = streams st.
Proof. reflexivity. Qed.

Lemma rdcSet_log_delta (c : nat) (k : JsString) (v : option nat) (st : State) :
  log (resumeDataCacheSet c k v st) = log st ++ [ResumeDataCacheSet c k v].
Proof. reflexivity. Qed.

Lemma setWus_same (st : State) (w : option WorkUnitStore) :
  workUnitStore (set_workUnitStore st w) = w.
Proof. reflexivity. Qed.

#[local] Hint Rewrite newStream_keeps_workStore newStream_keeps_workUnitStore
  newStream_keeps_log newStream_keeps_resumeDataCaches newStream_keeps_entries newStream_keeps_arrays
  lockStream_keeps_workStore lockStream_keeps_workUnitStore lockStream_keeps_log
  lockStream_keeps_resumeDataCaches lockStream_keeps_entries lockStream_keeps_arrays
  tee_keeps_workStore tee_keeps_workUnitStore tee_keeps_log tee_keeps_resumeDataCaches tee_keeps_entries
  tee_keeps_arrays tracked_keeps_workStore tracked_keeps_workUnitStore tracked_keeps_log
  tracked_keeps_resumeDataCaches tracked_keeps_entries tracked_keeps_arrays clone_keeps_workStore
  clone_keeps_workUnitStore clone_keeps_log clone_keeps_resumeDataCaches clone_keeps_arrays
  rdcSet_keeps_workStore rdcSet_keeps_workUnitStore rdcSet_keeps_entries rdcSet_keeps_arrays
  rdcSet_keeps_streams setWus_keeps_workStore setWus_keeps_log setWus_keeps_resumeDataCaches
  setWus_keeps_entries setWus_keeps_arrays setWus_keeps_streams rdcSet_log_delta setWus_same : store.

Lemma rdcSet_keeps_contentOf (c : nat) (k : JsString) (v : option nat) (st : State)
    (r : nat) :
  contentOf r (resumeDataCacheSet c k v st) = contentOf r st.
Proof. reflexivity. Qed.

Lemma setWus_keeps_contentOf (st : State) (w : option WorkUnitStore) (r : nat) :
  contentOf r (set_workUnitStore st w) = contentOf r st.
Proof. reflexivity. Qed.

#[local] Hint Rewrite rdcSet_keeps_contentOf setWus_keeps_contentOf : store.

(** ** Serving an entry of the handler *)

Lemma viewEntry_Some (r : nat) (st : State) (e : CacheEntryOf nat (list Tag)) :
  viewEntry r st = Some e →
  ∃ e0, entries st !! r = Some e0
        ∧ value e0 = value e ∧ timestamp e0 = timestamp e
        ∧ revalidate e0 = revalidate e ∧ expire e0 = expire e ∧ stale e0 = stale e.
Proof.
  unfold viewEntry. destruct (entries st !! r) as [e0|]; [|done]. simpl.
  intros [= <-]. by exists e0.
Qed.

Lemma cloneCacheEntry_left (r : nat) (st : State) (e0 : CacheEntry) :
  entries st !! r = Some e0 →
  value <$> entries (cloneCacheEntry r st).2 !! (cloneCacheEntry r st).1.1
  = Some (tee (value e0) st).1.1
  ∧ streams (cloneCacheEntry r st).2 = streams (tee (value e0) st).2.
Proof.
  intros He. unfold cloneCacheEntry. rewrite He. cbn [fst snd]. split; [|done].
  cbn [entries set_entries].
  rewrite lookup_insert_ne.
  - by rewrite lookup_insert_eq.
  - apply newRef_ne. rewrite lookup_insert_eq. eauto.
Qed.

Section ServeHit.
Context (key : JsString) (r : nat) (e : CacheEntryOf nat (list Tag))
        (s : Stream) (st : State).
Hypothesis Hview : viewEntry r st = Some e.
Hypothesis Hstream : streams st !! value e = Some s.

Let served := serveHit key r e st.

Lemma serveHit_frame :
  workStore served.2 = workStore st
  ∧ cacheSignalOf (workUnitStore served.2) = cacheSignalOf (workUnitStore st)
  ∧ workUnitStore served.2 ≫= wu_prerenderResumeDataCache
    = workUnitStore st ≫= wu_prerenderResumeDataCache.
Proof.
  subst served. unfold serveHit. autorewrite with store.
  rewrite propagate_prerenderResumeDataCache.
  destruct (workUnitStore st ≫= wu_prerenderResumeDataCache) as [c|] eqn:Hc;
    destruct (cacheSignalOf (workUnitStore st)) eqn:Hsig; cbn [snd];
    autorewrite with store;
    by rewrite propagate_cacheSignal, propagate_prerenderResumeDataCache.
Qed.

Lemma serveHit_log :
  ∃ clone,
    log served.2 =
      log st ++ match workUnitStore st ≫= wu_prerenderResumeDataCache with
                | Some c => [ResumeDataCacheSet c key clone]
                | None => if cacheSignalOf (workUnitStore st) then [EndRead] else []
                end.
Proof.
  subst served. unfold serveHit. autorewrite with store.
  rewrite propagate_prerenderResumeDataCache.
  destruct (workUnitStore st ≫= wu_prerenderResumeDataCache) as [c|] eqn:Hc.
  - destruct (cacheSignalOf (workUnitStore st)) eqn:Hsig; cbn [snd];
      eexists; autorewrite with store; reflexivity.
  - exists None. destruct (cacheSignalOf (workUnitStore st)) eqn:Hsig; cbn [snd];
      autorewrite with store; by rewrite ?List.app_nil_r.
Qed.

Lemma serveHit_stream :
  contentOf served.1 served.2 = (chunks s, ending s)
  ∧ is_Some (streams served.2 !! served.1)
  ∧ (workUnitStore st ≫= wu_prerenderResumeDataCache = None → served.1 = value e).
Proof.
  destruct (viewEntry_Some r st e Hview) as (e0 & He0 & Hval & _).
  subst served. unfold serveHit. autorewrite with store.
  rewrite propagate_prerenderResumeDataCache.
  destruct (workUnitStore st ≫= wu_prerenderResumeDataCache) as [c|] eqn:Hc.
  - set (st1 := set_workUnitStore st _).
    assert (He1 : entries st1 !! r = Some e0) by done.
    destruct (cloneCacheEntry_left r st1 e0 He1) as [Hleft Hstreams].
    destruct (contentOf_tee_branches (value e0) st1) as (Ha & _ & Ha' & _).
    assert (HcA : contentOf (tee (value e0) st1).1.1 (cloneCacheEntry r st1).2
                  = (chunks s, ending s)).
    { unfold contentOf in *. rewrite Hstreams, Ha. rewrite Hval.
      change (streams st1) with (streams st). by rewrite Hstream. }
    assert (HsA : is_Some (streams (cloneCacheEntry r st1).2
                           !! (tee (value e0) st1).1.1)).
    { by rewrite Hstreams. }
    cbn [fst snd]. rewrite Hleft. cbn [default from_option id].
    split_and!; [| |done].
    + destruct (cacheSignalOf (workUnitStore st)); cbn [fst snd];
        autorewrite with store; [|exact HcA].
      unfold createTrackedReadableStream.
      match goal with
      | |- context [newStream ?x ?y] => destruct (contentOf_new x y) as (Hn & _)
      end.
      rewrite Hn. cbn [chunks ending]. by rewrite HcA.
    + destruct (cacheSignalOf (workUnitStore st)); cbn [fst snd];
        autorewrite with store; [|exact HsA].
      unfold createTrackedReadableStream.
      match goal with
      | |- context [newStream ?x ?y] => destruct (contentOf_new x y) as (_ & Hn & _)
      end.
      exact Hn.
  - cbn [fst snd]. split_and!; [| |done].
    + destruct (cacheSignalOf (workUnitStore st)); autorewrite with store;
        unfold contentOf; by rewrite Hstream.
    + destruct (cacheSignalOf (workUnitStore st)); autorewrite with store;
        rewrite Hstream; eauto.
Qed.
End ServeHit.

Lemma gtb_false (a b : Z) : a ≤ b → (a >? b) = false.
Proof. intros H. destruct (Z.gtb_spec a b); [lia|done]. Qed.

Lemma gtb_true (a b : Z) : b < a → (a >? b) = true.
Proof. intros H. destruct (Z.gtb_spec a b); [done|lia]. Qed.


(** ** The log of an invocation *)

Ltac log_done :=
  cbn [fst snd]; autorewrite with store;
  rewrite <- ?List.app_assoc, ?List.app_nil_r; try done.

Lemma resumeLookup_log (key : JsString) (st : State) :
  ∃ l, log (resumeLookup key st).2 = log st ++ l
       ∧ Forall (λ ev, isRead ev = true) l.
Proof.
  unfold resumeLookup.
  destruct (workUnitStore st ≫= wu_renderResumeDataCache) as [c|];
    [|exists []; by log_done].
  destruct (cacheSignalOf (workUnitStore st)) eqn:Hsig.
  - destruct (resumeDataCacheGet c key _) as [cachedEntry|].
    + destruct (cachedEntry ≫= _) as [[existing existingEntry]|].
      * destruct (isDynamicEntry _ _).
        -- exists [BeginRead; EndRead]. split; [by log_done|by repeat constructor].
        -- exists [BeginRead]. split; [by log_done|by repeat constructor].
      * exists [BeginRead]. split; [by log_done|by repeat constructor].
    + exists [BeginRead; EndRead].
      split; [|by repeat constructor].
      destruct (workUnitStore _) as [w|]; [|by log_done].
      destruct (bool_decide (wu_type w = TPrerender) && wu_allowEmptyStaticShell w);
        by log_done.
  - destruct (resumeDataCacheGet c key _) as [cachedEntry|].
    + destruct (cachedEntry ≫= _) as [[existing existingEntry]|].
      * destruct (isDynamicEntry _ _); exists []; by log_done.
      * exists []. by log_done.
    + exists []. split; [|done].
      destruct (workUnitStore st) as [w|]; [|by log_done].
      destruct (bool_decide (wu_type w = TPrerender) && wu_allowEmptyStaticShell w);
        by log_done.
Qed.


Lemma decode_log (stream : nat) (st : State) :
  (decode stream st).1 = Decoded stream
  ∧ ∃ l, log (decode stream st).2 = log st ++ l ∧ Forall (λ ev, isRead ev = true) l.
Proof.
  split; [done|]. unfold decode.
  destruct (trackedOf stream st); [destruct (contentOf stream st).2|];
    first [ exists [EndRead]; split; [by log_done|by repeat constructor]
          | exists []; split; [by log_done|done] ].
Qed.

Lemma decode_frame (stream : nat) (st : State) :
  entries (decode stream st).2 = entries st
  ∧ arrays (decode stream st).2 = arrays st
  ∧ resumeDataCaches (decode stream st).2 = resumeDataCaches st
  ∧ workStore (decode stream st).2 = workStore st
  ∧ workUnitStore (decode stream st).2 = workUnitStore st.
Proof.
  unfold decode.
  by destruct (trackedOf stream st); [destruct (contentOf stream st).2|].
Qed.

(** A generation outside the work unit always yields an entry. *)
Lemma generateCacheEntry_unpassed_cached (r : Rendering) (st : State) :
  ∃ ignored pending, (generateCacheEntry false r st).1 = Cached ignored pending.
Proof.
  destruct (generateCacheEntry_unpassed r st) as (inner & ->).
  set (s := match r_completesAt r with Some _ => _ | None => _ end).
  destruct (teeAndCollect_returned false inner (r_startTime r) (r_reported r) s
              (emit (Generate None) st)) as (ret & pending & Hres & _).
  by exists ret, pending.
Qed.

Lemma hitPath_log (inv : Invocation) (key : JsString) (r : nat)
    (e : CacheEntryOf nat (list Tag)) (st : State) :
  ∃ l, log (hitPath inv key r e st).2 = log st ++ l
       ∧ countEvents isSpeculativeGenerate l = 0%nat.
Proof.
  unfold hitPath.
  destruct (serveHit_log key r e st) as (clone & Hserve).
  set (served := serveHit key r e st) in *.
  destruct (currentTime inv >? _).
  - pose proof (generateCacheEntry_log false (rendering inv) served.2) as Hgen.
    destruct (generateCacheEntry_unpassed_cached (rendering inv) served.2)
      as (ignored & pending & ->).
    destruct (saveGenerated_log key pending
                (generateCacheEntry false (rendering inv) served.2).2)
      as (clone' & Hsave).
    cbn [snd]. rewrite Hsave, Hgen, Hserve, <- !List.app_assoc.
    eexists. split; [reflexivity|]. rewrite !countEvents_app.
    destruct (workUnitStore st ≫= wu_prerenderResumeDataCache),
             (cacheSignalOf (workUnitStore st)),
             (workUnitStore _ ≫= wu_prerenderResumeDataCache); reflexivity.
  - cbn [snd]. rewrite Hserve. eexists. split; [reflexivity|].
    destruct (workUnitStore st ≫= wu_prerenderResumeDataCache),
             (cacheSignalOf (workUnitStore st)); reflexivity.
Qed.



Lemma countEvents_Forall (p q : Event → bool) (l : list Event) :
  (∀ ev, q ev = true → p ev = false) →
  Forall (λ ev, q ev = true) l → countEvents p l = 0%nat.
Proof.
  intros Hp. induction 1 as [|ev l Hev _ IH]; simpl; [done|].
  by rewrite (Hp ev Hev), IH.
Qed.


Lemma sameObjects_refl (st : State) : sameObjects st st.
Proof. by repeat split. Qed.

Lemma sameObjects_trans (a b c : State) :
  sameObjects a b → sameObjects b c → sameObjects a c.
Proof.
  unfold sameObjects. intros (? & ? & ? & ? & ? & ?) (? & ? & ? & ? & ? & ?).
  split_and!; congruence.
Qed.

(** The three ways [handlerLookup] goes on after the lookup proper. *)
Lemma handlerLookup_cases (inv : Invocation) (key : JsString) (st : State) :
  ∃ st0 l0,
    log st0 = log st ++ l0
    ∧ Forall (λ ev, isLookupEvent ev = true) l0
    ∧ sameObjects st st0
    ∧ ((∃ st1 l1, handlerLookup inv key st
                  = (Return (HangingPromise DynamicUseCache), st1)
                  ∧ log st1 = log st0 ++ l1
                  ∧ Forall (λ ev, isLookupEvent ev = true) l1
                  ∧ sameObjects st0 st1)
       ∨ handlerLookup inv key st = missPath inv key st0
       ∨ ∃ r e, handlerLookup inv key st = hitPath inv key r e st0).
Proof.
  unfold handlerLookup.
  set (stb := if cacheSignalOf (workUnitStore st) then emit BeginRead st else st).
  assert (Hb : ∃ lb, log stb = log st ++ lb
                     ∧ Forall (λ ev, isLookupEvent ev = true) lb
                     ∧ sameObjects st stb).
  { subst stb. destruct (cacheSignalOf _).
    - exists [BeginRead]. split_and!; [done|by repeat constructor|by repeat split].
    - exists []. split_and!; [by rewrite List.app_nil_r|done|by repeat split]. }
  destruct Hb as (lb & Hlb & Hfb & Hsb).
  set (got := if shouldForceRevalidate (workStore stb) (workUnitStore stb)
              then (None, stb) else _).
  assert (Hg : ∃ lg, log got.2 = log st ++ lg
                     ∧ Forall (λ ev, isLookupEvent ev = true) lg
                     ∧ sameObjects st got.2).
  { subst got. destruct (shouldForceRevalidate _ _); cbn [snd].
    - by exists lb.
    - exists (lb ++ [HandlerGet key (implicitTagsOf (workUnitStore stb))]).
      autorewrite with store. rewrite Hlb, <- List.app_assoc.
      split_and!; [done| |].
      + apply Forall_app. split; [done|by repeat constructor].
      + eapply sameObjects_trans; [exact Hsb|by repeat split]. }
  destruct Hg as (lg & Hlg & Hfg & Hsg).
  exists got.2, lg. split_and!; [done|done|done|].
  destruct (match got.1 with Some (r, e) => _ | None => None end)
    as [[r e]|]; [|by right; left].
  destruct (isDynamicEntry _ _).
  - left. destruct (cacheSignalOf (workUnitStore st)).
    + exists (emit EndRead got.2), [EndRead].
      split_and!; [done|done|by repeat constructor|by repeat split].
    + exists got.2, []. split_and!; [done|by rewrite List.app_nil_r|done|].
      apply sameObjects_refl.
  - destruct (_ || _); [by right; left|]. right; right. by exists r, e.
Qed.




(** ** Which streams are tracked *)


Lemma trackedOf_lockStream (r' r : nat) (st : State) :
  trackedOf r (lockStream r' st) = trackedOf r st.
Proof.
  unfold trackedOf, lockStream. simpl. rewrite lookup_alter.
  case_decide; [subst|done]. by destruct (streams st !! r).
Qed.









(** ** The reads that an invocation leaves open *)





Lemma openReads_lookup_free (l : list Event) :
  Forall (λ ev, isRead ev = false) l → openReads l = 0.
Proof.
  unfold openReads. induction 1 as [|ev l Hev _ IH]; [done|].
  cbn [countEvents]. unfold isRead in Hev. apply orb_false_iff in Hev as [-> ->]. lia.
Qed.












(** ** Propagation only narrows *)

Lemma pushMissingTags_prefix (entryTags outerTags : list Tag) :
  outerTags `prefix_of` pushMissingTags outerTags entryTags.
Proof.
  revert outerTags. induction entryTags as [|tag rest IH]; intros outerTags; simpl.
  - done.
  - case_bool_decide; [apply IH|].
    etrans; [|apply IH]. by apply prefix_app_r.
Qed.

(** X2.  [propagateCacheLifeAndTags] leaves a missing store missing and a store
    of another kind than a cache scope or a prerender as it is; in a store
    that it updates no window grows, the tags that were there keep their
    places at the front of the array, and no other field changes. *)
Theorem propagate_only_narrows {S : Type} (o : option WorkUnitStore)
    (e : CacheEntryOf S (list Tag)) :
  match o, propagateCacheLifeAndTags o e with
  | Some w, Some w' =>
      (receivesCacheLife (wu_type w) = false → w' = w)
      ∧ wu_stale w' ≤ wu_stale w
      ∧ wu_revalidate w' ≤ wu_revalidate w
      ∧ wu_expire w' ≤ wu_expire w
      ∧ tagsOrEmpty w `prefix_of` tagsOrEmpty w'
      ∧ set_life w' (wu_tags w) (wu_stale w) (wu_revalidate w) (wu_expire w) = w
  | None, None => True
  | _, _ => False
  end.
Proof.
  destruct o as [w|]; [|done]. unfold propagateCacheLifeAndTags.
  destruct (receivesCacheLife (wu_type w)) eqn:Hr.
  - rewrite !gtb_min. cbn [set_life wu_stale wu_revalidate wu_expire tagsOrEmpty
                              wu_tags default from_option id].
    split_and!; [done|lia|lia|lia|apply pushMissingTags_prefix|by destruct w].
  - split_and!; [done|lia|lia|lia|done|by destruct w].
Qed.

(** ** Binary form values *)

Lemma list_pair_ind {A : Type} (P : list A → Prop) :
  P [] → (∀ a, P [a]) → (∀ a b l, P l → P (a :: b :: l)) → ∀ l, P l.
Proof.
  intros Hnil Hone Hstep.
  assert (H : ∀ l, P l ∧ ∀ a, P (a :: l)).
  { induction l as [|x l [IH1 IH2]]; [by split|].
    split; [apply IH2|]. intros a. by apply Hstep. }
  intros l. apply H.
Qed.

Lemma even_cons2 {A : Type} (a b : A) (l : list A) :
  (length (a :: b :: l) mod 2 =? 0)%nat = (length l mod 2 =? 0)%nat.
Proof.
  cbn [length]. replace (S (S (length l))) with (length l + 1 * 2)%nat by lia.
  by rewrite Nat.Div0.mod_add.
Qed.

Lemma uint16View_bound (arrayBuffer : list Byte.byte) :
  Forall (λ n, (n < 65536)%N) (uint16View arrayBuffer).
Proof.
  induction arrayBuffer as [|a|a b l IH] using list_pair_ind; cbn [uint16View];
    [constructor|constructor|].
  constructor; [|exact IH].
  pose proof (Byte.to_N_bounded a). pose proof (Byte.to_N_bounded b). lia.
Qed.

Lemma fromCodePoints_small (cps : list N) :
  Forall (λ n, (n < 65536)%N) cps → fromCodePoints cps = cps.
Proof.
  unfold fromCodePoints. induction 1 as [|cp cps Hcp _ IH]; [done|].
  cbn [fmap list_fmap concat]. unfold fromCodePoint at 1.
  apply N.ltb_lt in Hcp. rewrite Hcp. cbn [app]. f_equal. exact IH.
Qed.

Lemma uint16View_app (l m : list Byte.byte) :
  (length l mod 2 =? 0)%nat = true →
  uint16View (l ++ m) = uint16View l ++ uint16View m.
Proof.
  induction l as [|a|a b l IH] using list_pair_ind; [done|done|].
  rewrite even_cons2. intros H. cbn [app uint16View]. by rewrite IH.
Qed.

Lemma uint16View_length (l : list Byte.byte) :
  length (uint16View l) = (length l / 2)%nat.
Proof.
  induction l as [|a|a b l IH] using list_pair_ind; [done|done|].
  cbn [uint16View length]. rewrite IH.
  replace (S (S (length l))) with (length l + 1 * 2)%nat by lia.
  rewrite Nat.div_add by lia. by rewrite Nat.add_1_r.
Qed.

Lemma odd_split (l : list Byte.byte) :
  (length l mod 2 =? 0)%nat = false →
  ∃ l' b, l = l' ++ [b] ∧ (length l' mod 2 =? 0)%nat = true.
Proof.
  induction l as [|a|a b l IH] using list_pair_ind; [done| |].
  - intros _. by exists [], a.
  - rewrite even_cons2. intros (l' & c & -> & Hl')%IH.
    exists (a :: b :: l'), c. split; [done|]. by rewrite even_cons2.
Qed.

Lemma binaryToString_padded (arrayBuffer : list Byte.byte) :
  binaryToString arrayBuffer = uint16View (zeroPadded arrayBuffer).
Proof.
  unfold binaryToString, zeroPadded. cbn zeta.
  destruct (length arrayBuffer mod 2 =? 0)%nat eqn:Hpar.
  - apply fromCodePoints_small, uint16View_bound.
  - destruct (odd_split arrayBuffer Hpar) as (l & b & -> & Hl).
    rewrite <- List.app_assoc. cbn [app].
    rewrite !uint16View_app by done. cbn [uint16View]. rewrite List.app_nil_r.
    rewrite length_app, Nat.add_sub. cbn [length].
    rewrite lookup_app_r by lia. rewrite Nat.sub_diag. cbn [lookup list_lookup default from_option id].
    rewrite take_ge by (rewrite uint16View_length; apply Nat.eqb_eq in Hl;
                        apply Nat.Div0.div_le_mono; lia).
    rewrite fromCodePoints_small by apply uint16View_bound.
    unfold fromCodePoint. pose proof (Byte.to_N_bounded b) as Hb.
    destruct (N.ltb_spec (Byte.to_N b) 65536); [|lia].
    change (Byte.to_N Byte.x00) with 0%N. f_equal. f_equal. lia.
Qed.

Lemma byte_to_N_inj (a b : Byte.byte) : Byte.to_N a = Byte.to_N b → a = b.
Proof.
  intros H. pose proof (Byte.of_to_N a) as Ha. pose proof (Byte.of_to_N b) as Hb.
  rewrite H in Ha. congruence.
Qed.

Lemma uint16View_inj (l m : list Byte.byte) :
  (length l mod 2 =? 0)%nat = true → (length m mod 2 =? 0)%nat = true →
  uint16View l = uint16View m → l = m.
Proof.
  revert m. induction l as [|a|a b l IH] using list_pair_ind; intros m.
  - intros _ Hm. destruct m as [|c [|d m]]; [done|done|discriminate].
  - done.
  - rewrite even_cons2. intros Hl Hm. destruct m as [|c [|d m]]; [discriminate|done|].
    rewrite even_cons2 in Hm. cbn [uint16View]. intros [= Hhead Htail].
    pose proof (Byte.to_N_bounded a). pose proof (Byte.to_N_bounded b).
    pose proof (Byte.to_N_bounded c). pose proof (Byte.to_N_bounded d).
    assert (Byte.to_N a = Byte.to_N c ∧ Byte.to_N b = Byte.to_N d) as [Ha Hb] by lia.
    apply byte_to_N_inj in Ha, Hb. subst. f_equal. f_equal. by apply IH.
Qed.

Lemma zeroPadded_even (arrayBuffer : list Byte.byte) :
  (length (zeroPadded arrayBuffer) mod 2 =? 0)%nat = true.
Proof.
  unfold zeroPadded. destruct (length arrayBuffer mod 2 =? 0)%nat eqn:Hpar; [done|].
  rewrite length_app. cbn [length]. apply Nat.eqb_neq in Hpar. apply Nat.eqb_eq.
  pose proof (Nat.mod_upper_bound (length arrayBuffer) 2).
  rewrite Nat.Div0.add_mod by lia.
  assert (length arrayBuffer mod 2 = 1)%nat as -> by lia. done.
Qed.

(** X3.  The string that [encodeFormData] makes of a binary value is the 16-bit
    view of the bytes with a zero byte appended when their number is odd: it
    has one code unit for every two bytes, rounded up; two byte sequences
    give the same string exactly when they are equal after this padding,
    and sequences of the same length never collide. *)
Theorem binaryToString_collisions (a b : list Byte.byte) :
  length (binaryToString a) = ((length a + 1) / 2)%nat
  ∧ (binaryToString a = binaryToString b ↔ zeroPadded a = zeroPadded b)
  ∧ (length a = length b → binaryToString a = binaryToString b → a = b).
Proof.
  assert (Hiff : binaryToString a = binaryToString b ↔ zeroPadded a = zeroPadded b).
  { rewrite !binaryToString_padded. split; [|by intros ->].
    apply uint16View_inj; apply zeroPadded_even. }
  split_and!; [|exact Hiff|].
  - rewrite binaryToString_padded, uint16View_length. unfold zeroPadded.
    destruct (length a mod 2 =? 0)%nat eqn:Hpar.
    + apply Nat.eqb_eq in Hpar.
      rewrite (Nat.div_mod_eq (length a) 2) at 2. rewrite Hpar, Nat.add_0_r.
      rewrite Nat.mul_comm, Nat.div_add_l by lia. cbn. lia.
    + rewrite length_app. done.
  - intros Hlen Heq. apply Hiff in Heq. unfold zeroPadded in Heq.
    rewrite Hlen in Heq. destruct (length b mod 2 =? 0)%nat; [done|].
    by apply app_inv_tail in Heq.
Qed.

(** ** The context of an invocation *)

Lemma sameContext_refl (st : State) : sameContext st st.
Proof. by split. Qed.

Lemma sameContext_trans (a b c : State) :
  sameContext a b → sameContext b c → sameContext a c.
Proof. intros [H1 H2] [H3 H4]. split; congruence. Qed.

Lemma sameContext_eq (st st' : State) :
  workUnitStore st' = workUnitStore st → workStore st' = workStore st →
  sameContext st st'.
Proof. intros H1 H2. unfold sameContext. by rewrite H1, H2. Qed.

Lemma unitShape_propagate {S : Type} (o : option WorkUnitStore)
    (e : CacheEntryOf S (list Tag)) :
  unitShape (propagateCacheLifeAndTags o e) = unitShape o.
Proof.
  destruct o as [w|]; [|done]. unfold propagateCacheLifeAndTags.
  by destruct (receivesCacheLife (wu_type w)).
Qed.

Section UnitShape.
Context (o o' : option WorkUnitStore).
Hypothesis Hshape : unitShape o' = unitShape o.

Lemma unitShape_fields :
  match o, o' with
  | Some w, Some w' =>
      wu_type w' = wu_type w ∧ wu_implicitTags w' = wu_implicitTags w
      ∧ wu_cacheSignal w' = wu_cacheSignal w
      ∧ wu_allowEmptyStaticShell w' = wu_allowEmptyStaticShell w
      ∧ wu_forceRevalidate w' = wu_forceRevalidate w
      ∧ wu_noCacheHeader w' = wu_noCacheHeader w
      ∧ wu_renderResumeDataCache w' = wu_renderResumeDataCache w
      ∧ wu_prerenderResumeDataCache w' = wu_prerenderResumeDataCache w
  | None, None => True
  | _, _ => False
  end.
Proof.
  destruct o as [w|], o' as [w'|]; try done.
  injection Hshape as -> -> -> -> -> -> -> ->. done.
Qed.

Lemma unitShape_cacheSignal : cacheSignalOf o' = cacheSignalOf o.
Proof.
  pose proof unitShape_fields as H. destruct o as [w|], o' as [w'|]; try done.
  destruct H as (Ht & _ & Hc & _). unfold cacheSignalOf. by rewrite Ht, Hc.
Qed.

Lemma unitShape_isPrerender : isPrerender o' = isPrerender o.
Proof.
  pose proof unitShape_fields as H. destruct o as [w|], o' as [w'|]; try done.
  destruct H as (Ht & _). unfold isPrerender. by rewrite Ht.
Qed.

Lemma unitShape_type : wu_type <$> o' = wu_type <$> o.
Proof.
  pose proof unitShape_fields as H. destruct o as [w|], o' as [w'|]; try done.
  destruct H as (Ht & _). simpl. by rewrite Ht.
Qed.



Lemma unitShape_implicitTags : implicitTagsOf o' = implicitTagsOf o.
Proof.
  pose proof unitShape_fields as H. destruct o as [w|], o' as [w'|]; try done.
  destruct H as (_ & Hi & _). unfold implicitTagsOf. by rewrite Hi.
Qed.

Lemma unitShape_forceRevalidate (ws ws' : WorkStore) :
  workShape ws' = workShape ws →
  shouldForceRevalidate ws' o' = shouldForceRevalidate ws o.
Proof.
  intros Hw. injection Hw as Hsg Hdm Hod Hdev _ _ _.
  pose proof unitShape_fields as H. unfold shouldForceRevalidate.
  rewrite Hdm, Hod, Hdev.
  destruct o as [w|], o' as [w'|]; try done.
  destruct H as (Ht & _ & _ & _ & Hf & Hn & _). by rewrite Ht, Hf, Hn.
Qed.
End UnitShape.

Lemma workShape_draft (ws ws' : WorkStore) :
  workShape ws' = workShape ws → isDraftMode ws' = isDraftMode ws.
Proof. by intros [= _ ? _]. Qed.

Lemma collectResult_context (savedStream : nat) (passed : bool)
    (inner : UseCacheStore) (startTime : Z) (errors : list JsError) (st : State) :
  sameContext st (collectResult savedStream passed inner startTime errors st).2.
Proof.
  unfold collectResult.
  destruct (contentOf savedStream st).2; cbn [snd];
    try (by apply sameContext_eq);
    (destruct (cacheSignalOf _));
    unfold propagateToOuter; destruct passed;
    (split; [simpl; by rewrite ?unitShape_propagate|done]).
Qed.

Lemma teeAndCollect_context (passed : bool) (inner : UseCacheStore)
    (startTime : Z) (errors : list JsError) (s : Stream) (st : State) :
  sameContext st (teeAndCollect passed inner startTime errors s st).2.
Proof.
  unfold teeAndCollect. cbn [snd].
  eapply sameContext_trans; [|apply collectResult_context].
  by apply sameContext_eq.
Qed.

Lemma generateCacheEntry_context (passed : bool) (r : Rendering) (st : State) :
  sameContext st (generateCacheEntry passed r st).2.
Proof.
  unfold generateCacheEntry.
  set (inner := mkUseCacheStore _ _ _ _ _ _ _ _ _). set (st1 := emit _ st).
  assert (H1 : sameContext st st1) by (by apply sameContext_eq).
  eapply sameContext_trans; [exact H1|].
  destruct (isPrerender (outerStore passed st1)) eqn:Hpre.
  - destruct (decide (prerenderEnd r = ByTimeout)) as [Ht|Ht];
      [|destruct (decide (prerenderEnd r = ByDynamicAccess)) as [Hd|Hd]].
    + rewrite generateCacheEntryImpl_timeout by done.
      eapply sameContext_trans; [|apply teeAndCollect_context]. by split.
    + rewrite generateCacheEntryImpl_dynamic by done. cbn [snd].
      destruct (cacheSignalOf _); by apply sameContext_eq.
    + rewrite generateCacheEntryImpl_prelude by done. apply teeAndCollect_context.
  - rewrite generateCacheEntryImpl_normal by done. apply teeAndCollect_context.
Qed.






Lemma resumeLookup_context (key : JsString) (st : State) :
  sameContext st (resumeLookup key st).2.
Proof.
  unfold resumeLookup. cbn zeta.
  destruct (workUnitStore st ≫= wu_renderResumeDataCache) as [c|];
    [|apply sameContext_refl].
  set (cs := cacheSignalOf (workUnitStore st)).
  set (st1 := if cs then emit BeginRead st else st).
  assert (H1 : sameContext st st1).
  { subst st1. destruct cs; by apply sameContext_eq. }
  eapply sameContext_trans; [exact H1|].
  destruct (resumeDataCacheGet c key st1) as [cachedEntry|].
  - destruct (cachedEntry ≫= _) as [[existing existingEntry]|];
      [|apply sameContext_refl].
    set (st2 := set_workUnitStore st1 _).
    assert (H2 : sameContext st1 st2).
    { split; [|done]. subst st2. autorewrite with store.
      apply unitShape_propagate. }
    eapply sameContext_trans; [exact H2|].
    destruct (isDynamicEntry _ _); cbn [snd].
    + destruct cs; by apply sameContext_eq.
    + destruct cs; cbn [snd]; apply sameContext_eq; by autorewrite with store.
  - set (st2 := if cs then emit EndRead st1 else st1).
    assert (H2 : sameContext st1 st2).
    { subst st2. destruct cs; by apply sameContext_eq. }
    eapply sameContext_trans; [exact H2|].
    destruct (workUnitStore st2) as [w|]; [|apply sameContext_refl].
    destruct (bool_decide (wu_type w = TPrerender) && wu_allowEmptyStaticShell w);
      apply sameContext_refl.
Qed.



(** ** The events of a miss *)

Lemma missPath_log (inv : Invocation) (key : JsString) (st : State) :
  ∃ sets,
    log (missPath inv key st).2
    = log st ++ Generate (wu_type <$> workUnitStore st)
             :: (if cacheSignalOf (workUnitStore st) then [EndRead] else []) ++ sets
    ∧ Forall (λ ev, isSaveEvent ev = true) sets
    ∧ (isDraftMode (workStore st) = true → sets = []).
Proof.
  unfold missPath. cbn zeta.
  pose proof (generateCacheEntry_log true (rendering inv) st) as Hgen.
  cbn [outerStore] in Hgen.
  destruct (generateCacheEntry_context true (rendering inv) st) as [_ Hws].
  apply workShape_draft in Hws.
  destruct (generateCacheEntry true (rendering inv) st).1 as [s pending|].
  - rewrite Hws. destruct (isDraftMode (workStore st)); cbn [negb snd].
    + exists []. rewrite Hgen, List.app_nil_r. by split_and!.
    + destruct (saveGenerated_log key pending
                  (generateCacheEntry true (rendering inv) st).2) as (clone & Hsave).
      rewrite Hsave, Hgen.
      exists (match workUnitStore (generateCacheEntry true (rendering inv) st).2
                    ≫= wu_prerenderResumeDataCache with
              | Some c => [ResumeDataCacheSet c key clone]
              | None => []
              end ++ [HandlerSet key pending]).
      split_and!; [| |done].
      * rewrite <- !List.app_assoc. reflexivity.
      * apply Forall_app. split; [|by repeat constructor].
        destruct (_ ≫= wu_prerenderResumeDataCache); by repeat constructor.
  - exists []. cbn [snd]. rewrite Hgen, List.app_nil_r. by split_and!.
Qed.

(** ** Forced revalidation and draft mode *)

Lemma handlerLookup_forced (inv : Invocation) (key : JsString) (st : State) :
  shouldForceRevalidate (workStore st) (workUnitStore st) = true →
  handlerLookup inv key st
  = missPath inv key (if cacheSignalOf (workUnitStore st) then emit BeginRead st else st).
Proof.
  intros Hf. unfold handlerLookup. cbn zeta.
  destruct (cacheSignalOf (workUnitStore st)); autorewrite with store;
    rewrite Hf; reflexivity.
Qed.

Lemma countEvents_zero_app (p : Event → bool) (l l' : list Event) :
  countEvents p l = 0%nat → countEvents p l' = 0%nat →
  countEvents p (l ++ l') = 0%nat.
Proof. intros H1 H2. rewrite countEvents_app. lia. Qed.

Lemma missPath_no_get (inv : Invocation) (key : JsString) (st : State) :
  ∃ l, log (missPath inv key st).2 = log st ++ l
       ∧ countEvents isHandlerGet l = 0%nat.
Proof.
  destruct (missPath_log inv key st) as (sets & Hlog & Hsets & _).
  eexists. split; [exact Hlog|].
  cbn [countEvents isHandlerGet]. apply countEvents_zero_app.
  - by destruct (cacheSignalOf _).
  - apply (countEvents_Forall _ isSaveEvent); [|exact Hsets].
    by intros [].
Qed.

Lemma reads_no_get (l : list Event) :
  Forall (λ ev, isRead ev = true) l → countEvents isHandlerGet l = 0%nat.
Proof. apply countEvents_Forall. by intros []. Qed.

(** X4.  Where the revalidation is forced (an on-demand revalidation, draft mode,
    or in development a request with [cache-control: no-cache] or a cache
    scope that forces it), [cacheHandler.get] is not called and its answer
    makes no difference to the invocation. *)
Theorem forced_revalidation_ignores_handler (inv : Invocation) (st : State)
    (answer : option nat) :
  shouldForceRevalidate (workStore st) (workUnitStore st) = true →
  cache (withHandlerEntry inv answer) st = cache inv st
  ∧ ∃ l, log (cache inv st).2 = log st ++ l
         ∧ countEvents isHandlerGet l = 0%nat.
Proof.
  intros Hf. unfold cache.
  cbn [withHandlerEntry encodedCacheKeyParts isPageOrLayout keyEncodingAborted].
  destruct (isPrerender _ && _ && _).
  { split; [reflexivity|]. exists []. by rewrite List.app_nil_r. }
  cbn zeta.
  set (key := match encodedCacheKeyParts inv with inl s => s | inr f => _ end).
  destruct (resumeLookup_log key st) as (lr & Hlr & Hreads).
  pose proof (resumeLookup_miss key st) as Hmiss.
  destruct (resumeLookup key st).1 as [o|[stream|]].
  - split; [reflexivity|]. exists lr. split; [exact Hlr|by apply reads_no_get].
  - split; [reflexivity|].
    destruct (decode_log stream (resumeLookup key st).2) as (_ & ld & Hld & Hd).
    exists (lr ++ ld). rewrite Hld, Hlr, <- List.app_assoc. split; [reflexivity|].
    apply countEvents_zero_app; by apply reads_no_get.
  - destruct (Hmiss eq_refl) as (_ & _ & _ & _ & Hws & Hwus).
    assert (Hf' : shouldForceRevalidate (workStore (resumeLookup key st).2)
                    (workUnitStore (resumeLookup key st).2) = true)
      by (by rewrite Hws, Hwus).
    rewrite !(handlerLookup_forced _ key _ Hf').
    set (stb := if cacheSignalOf _ then _ else _).
    assert (Hb : ∃ lb, log stb = log st ++ lb ∧ countEvents isHandlerGet lb = 0%nat).
    { subst stb. destruct (cacheSignalOf _).
      - exists (lr ++ [BeginRead]). autorewrite with store.
        rewrite Hlr, <- List.app_assoc. split; [reflexivity|].
        apply countEvents_zero_app; [by apply reads_no_get|reflexivity].
      - exists lr. split; [exact Hlr|by apply reads_no_get]. }
    destruct Hb as (lb & Hlb & Hgb).
    split; [reflexivity|].
    destruct (missPath_no_get inv key stb) as (lm & Hlm & Hgm).
    destruct (missPath inv key stb).1 as [o|stream].
    + exists (lb ++ lm). cbn [snd]. rewrite Hlm, Hlb, <- List.app_assoc.
      split; [reflexivity|by apply countEvents_zero_app].
    + destruct (decode_log stream (missPath inv key stb).2) as (_ & ld & Hld & Hd).
      exists (lb ++ lm ++ ld). rewrite Hld, Hlm, Hlb, <- !List.app_assoc.
      split; [reflexivity|].
      apply countEvents_zero_app; [done|].
      apply countEvents_zero_app; [done|by apply reads_no_get].
Qed.

Lemma generateCacheEntry_keeps (passed : bool) (r : Rendering) (st : State) :
  resumeDataCaches (generateCacheEntry passed r st).2 = resumeDataCaches st
  ∧ pendingRevalidateWrites (workStore (generateCacheEntry passed r st).2)
    = pendingRevalidateWrites (workStore st).
Proof.
  unfold generateCacheEntry.
  set (inner := mkUseCacheStore _ _ _ _ _ _ _ _ _). set (st1 := emit _ st).
  destruct (isPrerender (outerStore passed st1)) eqn:Hpre.
  - destruct (decide (prerenderEnd r = ByTimeout)) as [Ht|Ht];
      [|destruct (decide (prerenderEnd r = ByDynamicAccess)) as [Hd|Hd]].
    + rewrite generateCacheEntryImpl_timeout by done.
      match goal with
      | |- context [teeAndCollect ?p ?i ?t ?e ?s ?x] =>
          destruct (teeAndCollect_frame p i t e s x) as (-> & -> & _)
      end.
      done.
    + rewrite generateCacheEntryImpl_dynamic by done. cbn [snd].
      by destruct (cacheSignalOf _).
    + rewrite generateCacheEntryImpl_prelude by done.
      match goal with
      | |- context [teeAndCollect ?p ?i ?t ?e ?s ?x] =>
          destruct (teeAndCollect_frame p i t e s x) as (-> & -> & _)
      end.
      done.
  - rewrite generateCacheEntryImpl_normal by done.
    match goal with
    | |- context [teeAndCollect ?p ?i ?t ?e ?s ?x] =>
        destruct (teeAndCollect_frame p i t e s x) as (-> & -> & _)
    end.
    done.
Qed.

Lemma resumeLookup_keeps (key : JsString) (st : State) :
  resumeDataCaches (resumeLookup key st).2 = resumeDataCaches st
  ∧ workStore (resumeLookup key st).2 = workStore st
  ∧ arrays (resumeLookup key st).2 = arrays st.
Proof.
  unfold resumeLookup. cbn zeta.
  destruct (workUnitStore st ≫= wu_renderResumeDataCache) as [c|]; [|done].
  set (cs := cacheSignalOf (workUnitStore st)).
  set (st1 := if cs then emit BeginRead st else st).
  assert (H1 : resumeDataCaches st1 = resumeDataCaches st
               ∧ workStore st1 = workStore st ∧ arrays st1 = arrays st).
  { subst st1. by destruct cs. }
  destruct H1 as (<- & <- & <-).
  destruct (resumeDataCacheGet c key st1) as [cachedEntry|].
  - destruct (cachedEntry ≫= _) as [[existing existingEntry]|]; [|done].
    set (st2 := set_workUnitStore st1 _).
    change (resumeDataCaches st1) with (resumeDataCaches st2).
    change (workStore st1) with (workStore st2).
    change (arrays st1) with (arrays st2).
    destruct (isDynamicEntry _ _); cbn [snd].
    + by destruct cs.
    + set (sp := tee _ st2).
      destruct cs; cbn [snd]; autorewrite with store; subst sp;
        autorewrite with store; done.
  - set (st2 := if cs then emit EndRead st1 else st1).
    assert (H2 : resumeDataCaches st2 = resumeDataCaches st1
                 ∧ workStore st2 = workStore st1 ∧ arrays st2 = arrays st1).
    { subst st2. by destruct cs. }
    destruct H2 as (<- & <- & <-).
    destruct (workUnitStore st2) as [w|]; [|done].
    by destruct (bool_decide (wu_type w = TPrerender) && wu_allowEmptyStaticShell w).
Qed.

Lemma saves_absent (l : list Event) :
  Forall (λ ev, isRead ev = true) l →
  countEvents isHandlerSet l = 0%nat ∧ countEvents isResumeDataCacheSet l = 0%nat.
Proof. intros H. split; (eapply countEvents_Forall; [|exact H]); by intros []. Qed.

Lemma missPath_draft (inv : Invocation) (key : JsString) (st : State) :
  isDraftMode (workStore st) = true →
  log (missPath inv key st).2
  = log st ++ Generate (wu_type <$> workUnitStore st)
           :: (if cacheSignalOf (workUnitStore st) then [EndRead] else [])
  ∧ resumeDataCaches (missPath inv key st).2 = resumeDataCaches st
  ∧ pendingRevalidateWrites (workStore (missPath inv key st).2)
    = pendingRevalidateWrites (workStore st).
Proof.
  intros Hdraft.
  destruct (missPath_log inv key st) as (sets & Hlm & _ & Hempty).
  rewrite (Hempty Hdraft), List.app_nil_r in Hlm. split; [exact Hlm|].
  unfold missPath. cbn zeta.
  destruct (generateCacheEntry_keeps true (rendering inv) st) as [Hk1 Hk2].
  destruct (generateCacheEntry_context true (rendering inv) st) as [_ Hk3].
  apply workShape_draft in Hk3. rewrite Hdraft in Hk3.
  destruct (generateCacheEntry true (rendering inv) st).1; cbn [snd];
    rewrite ?Hk3; cbn [negb]; by rewrite Hk1, Hk2.
Qed.

Lemma quiet_app (l l' : list Event) :
  (countEvents isHandlerGet l = 0%nat
   ∧ countEvents isHandlerSet l = 0%nat
   ∧ countEvents isResumeDataCacheSet l = 0%nat) →
  (countEvents isHandlerGet l' = 0%nat
   ∧ countEvents isHandlerSet l' = 0%nat
   ∧ countEvents isResumeDataCacheSet l' = 0%nat) →
  countEvents isHandlerGet (l ++ l') = 0%nat
  ∧ countEvents isHandlerSet (l ++ l') = 0%nat
  ∧ countEvents isResumeDataCacheSet (l ++ l') = 0%nat.
Proof.
  intros (H1 & H2 & H3) (H4 & H5 & H6). rewrite !countEvents_app. lia.
Qed.

Lemma quiet_reads (l : list Event) :
  Forall (λ ev, isRead ev = true) l →
  countEvents isHandlerGet l = 0%nat
  ∧ countEvents isHandlerSet l = 0%nat
  ∧ countEvents isResumeDataCacheSet l = 0%nat.
Proof.
  intros H. split_and!; (eapply countEvents_Forall; [|exact H]); by intros [].
Qed.

(** X5.  In draft mode an invocation neither asks the cache handler nor saves
    anything: no [get], no [set], no write to a resume data cache, no pending
    write. *)
Theorem draft_mode_saves_nothing (inv : Invocation) (st : State) :
  isDraftMode (workStore st) = true →
  (∃ l, log (cache inv st).2 = log st ++ l
        ∧ countEvents isHandlerGet l = 0%nat
        ∧ countEvents isHandlerSet l = 0%nat
        ∧ countEvents isResumeDataCacheSet l = 0%nat)
  ∧ resumeDataCaches (cache inv st).2 = resumeDataCaches st
  ∧ pendingRevalidateWrites (workStore (cache inv st).2)
    = pendingRevalidateWrites (workStore st).
Proof.
  intros Hdraft. unfold cache.
  destruct (isPrerender _ && _ && _).
  { split; [|done]. exists []. by rewrite List.app_nil_r. }
  cbn zeta.
  set (key := match encodedCacheKeyParts inv with inl s => s | inr f => _ end).
  destruct (resumeLookup_log key st) as (lr & Hlr & Hreads%quiet_reads).
  destruct (resumeLookup_keeps key st) as (Hrdc & Hws & _).
  pose proof (resumeLookup_miss key st) as Hmiss.
  destruct (resumeLookup key st).1 as [o|[stream|]].
  - cbn [snd]. rewrite Hrdc, Hws. split; [|done]. by exists lr.
  - destruct (decode_log stream (resumeLookup key st).2)
      as (_ & ld & Hld & Hd%quiet_reads).
    destruct (decode_frame stream (resumeLookup key st).2) as (_ & _ & -> & -> & _).
    rewrite Hrdc, Hws. split; [|done].
    exists (lr ++ ld). rewrite Hld, Hlr, <- List.app_assoc.
    split; [reflexivity|by apply quiet_app].
  - destruct (Hmiss eq_refl) as (_ & _ & _ & _ & _ & Hwus).
    assert (Hf : shouldForceRevalidate (workStore (resumeLookup key st).2)
                   (workUnitStore (resumeLookup key st).2) = true).
    { unfold shouldForceRevalidate. rewrite Hws, Hdraft. by rewrite orb_true_r. }
    rewrite (handlerLookup_forced _ key _ Hf).
    set (stb := if cacheSignalOf _ then _ else _).
    assert (Hb : ∃ lb, log stb = log st ++ lb
                       ∧ (countEvents isHandlerGet lb = 0%nat
                          ∧ countEvents isHandlerSet lb = 0%nat
                          ∧ countEvents isResumeDataCacheSet lb = 0%nat)
                       ∧ resumeDataCaches stb = resumeDataCaches st
                       ∧ workStore stb = workStore st).
    { subst stb. destruct (cacheSignalOf _).
      - exists (lr ++ [BeginRead]). autorewrite with store.
        rewrite Hlr, <- List.app_assoc.
        split; [reflexivity|split; [|done]].
        apply quiet_app; [done|by split_and!].
      - by exists lr. }
    destruct Hb as (lb & Hlb & Hqb & Hrdcb & Hwsb).
    destruct (missPath_draft inv key stb) as (Hlm & Hk1 & Hk2);
      [by rewrite Hwsb|].
    rewrite Hrdcb in Hk1. rewrite Hwsb in Hk2.
    set (lm := Generate _ :: _) in Hlm.
    assert (Hm : countEvents isHandlerGet lm = 0%nat
                 ∧ countEvents isHandlerSet lm = 0%nat
                 ∧ countEvents isResumeDataCacheSet lm = 0%nat).
    { subst lm. cbn [countEvents isHandlerGet isHandlerSet isResumeDataCacheSet].
      destruct (cacheSignalOf (workUnitStore stb)); split_and!; reflexivity. }
    destruct (missPath inv key stb).1 as [o|stream].
    + cbn [snd]. split; [|done].
      exists (lb ++ lm). rewrite Hlm, Hlb, <- List.app_assoc.
      split; [reflexivity|by apply quiet_app].
    + destruct (decode_log stream (missPath inv key stb).2)
        as (_ & ld & Hld & Hd%quiet_reads).
      destruct (decode_frame stream (missPath inv key stb).2)
        as (_ & _ & -> & -> & _).
      split; [|done].
      exists (lb ++ lm ++ ld). rewrite Hld, Hlm, Hlb, <- !List.app_assoc.
      split; [reflexivity|]. apply quiet_app; [done|by apply quiet_app].
Qed.

(** ** A fresh entry of the handler *)

Lemma serveHit_workUnitStore (key : JsString) (r : nat)
    (e : CacheEntryOf nat (list Tag)) (st : State) :
  workUnitStore (serveHit key r e st).2
  = propagateCacheLifeAndTags (workUnitStore st) e.
Proof.
  unfold serveHit. autorewrite with store.
  destruct (propagateCacheLifeAndTags (workUnitStore st) e
            ≫= wu_prerenderResumeDataCache) as [c|];
    destruct (cacheSignalOf (workUnitStore st)); cbn [fst snd];
    by autorewrite with store.
Qed.

(** X6.  An entry that the handler returns within its revalidate and expire
    windows, that is not discarded and not dynamic under a prerender, is
    served as it is: the caller reads the entry's content, the function is
    not run, nothing is written to the handler, and the work-unit store
    takes the cache life and tags of the entry. *)
Theorem fresh_entry_served_without_generation (inv : Invocation) (key : JsString)
    (st : State) (r : nat) (e : CacheEntryOf nat (list Tag)) (s : Stream) :
  shouldForceRevalidate (workStore st) (workUnitStore st) = false →
  handlerEntry inv = Some r →
  viewEntry r st = Some e →
  streams st !! value e = Some s →
  shouldDiscardCacheEntry e (workStore st) (implicitTagsOf (workUnitStore st))
    (implicitTagsExpirationOf (workUnitStore st)) = false →
  isDynamicEntry (workUnitStore st) e = false →
  currentTime inv ≤ timestamp e + revalidate e * 1000 →
  currentTime inv ≤ timestamp e + expire e * 1000 →
  ∃ stream,
    (handlerLookup inv key st).1 = Next stream
    ∧ contentOf stream (handlerLookup inv key st).2 = (chunks s, ending s)
    ∧ (workUnitStore st ≫= wu_prerenderResumeDataCache = None → stream = value e)
    ∧ countEvents isGenerate (log (handlerLookup inv key st).2)
      = countEvents isGenerate (log st)
    ∧ countEvents isHandlerSet (log (handlerLookup inv key st).2)
      = countEvents isHandlerSet (log st)
    ∧ workStore (handlerLookup inv key st).2 = workStore st
    ∧ workUnitStore (handlerLookup inv key st).2
      = propagateCacheLifeAndTags (workUnitStore st) e.
Proof.
  intros Hforce Hh Hv Hs Hd Hdyn Hfresh Hlive.
  pose proof (handlerLookup_kept inv key st r e Hforce Hh Hv Hd) as Heq.
  rewrite Hdyn in Heq.
  rewrite (gtb_false _ _ Hlive), (gtb_false _ _ Hfresh) in Heq.
  rewrite andb_false_r in Heq. cbn [orb] in Heq. unfold hitPath in Heq.
  rewrite (gtb_false _ _ Hfresh) in Heq.
  set (st0 := afterGet key st) in *.
  assert (Hv0 : viewEntry r st0 = Some e).
  { rewrite <- Hv. apply viewEntry_same; subst st0; by autorewrite with store. }
  assert (Hs0 : streams st0 !! value e = Some s).
  { subst st0. by autorewrite with store. }
  destruct (serveHit_frame key r e st0) as (Hws & _).
  destruct (serveHit_log key r e st0) as (clone & Hlog).
  destruct (serveHit_stream key r e s st0 Hv0 Hs0) as (Hcontent & _ & Hsame).
  pose proof (serveHit_workUnitStore key r e st0) as Hwus.
  exists (serveHit key r e st0).1. rewrite Heq. cbn [fst snd].
  split_and!; [reflexivity|exact Hcontent| | | | |].
  - intros Hnone. apply Hsame. subst st0. by autorewrite with store.
  - rewrite Hlog. subst st0. autorewrite with store. rewrite !countEvents_app.
    destruct (cacheSignalOf (workUnitStore st)),
             (workUnitStore st ≫= wu_prerenderResumeDataCache); simpl; lia.
  - rewrite Hlog. subst st0. autorewrite with store. rewrite !countEvents_app.
    destruct (cacheSignalOf (workUnitStore st)),
             (workUnitStore st ≫= wu_prerenderResumeDataCache); simpl; lia.
  - rewrite Hws. subst st0. by autorewrite with store.
  - rewrite Hwus. subst st0. by autorewrite with store.
Qed.

(** ** Stores without wrappers *)

Lemma noWrappers_same (st st' : State) :
  streams st' = streams st → noWrappers st → noWrappers st'.
Proof. intros Heq H r. unfold trackedOf. rewrite Heq. apply H. Qed.

Lemma noWrappers_newStream (s : Stream) (st : State) :
  tracked s = false → noWrappers st → noWrappers (newStream s st).2.
Proof.
  intros Hs H r. unfold trackedOf, newStream. cbn [snd streams set_streams].
  destruct (decide (r = newRef (streams st))) as [->|Hne].
  - by rewrite lookup_insert_eq.
  - rewrite lookup_insert_ne by done. apply H.
Qed.

Lemma noWrappers_lockStream (r : nat) (st : State) :
  noWrappers st → noWrappers (lockStream r st).
Proof. intros H x. rewrite trackedOf_lockStream. apply H. Qed.

Lemma noWrappers_tee (r : nat) (st : State) :
  noWrappers st → noWrappers (tee r st).2.
Proof.
  intros H. unfold tee. cbn [snd].
  by repeat (apply noWrappers_newStream; [reflexivity|]); apply noWrappers_lockStream.
Qed.

Lemma noWrappers_collectResult (savedStream : nat) (passed : bool)
    (inner : UseCacheStore) (startTime : Z) (errors : list JsError) (st : State) :
  noWrappers st →
  noWrappers (collectResult savedStream passed inner startTime errors st).2.
Proof.
  intros H. unfold collectResult.
  pose proof (noWrappers_lockStream savedStream st H) as Hl.
  destruct (contentOf savedStream st).2; cbn [snd]; try exact Hl;
    match goal with
    | |- context [newStream ?s ?x] =>
        assert (Hn : noWrappers (newStream s x).2)
          by (apply noWrappers_newStream; [|exact Hl]; unfold bufferStreamOf;
              destruct (invalidDynamicUsageError _); [done|];
              by destruct errors)
    end;
    (eapply noWrappers_same; [|exact Hn]);
    (destruct (cacheSignalOf _)); unfold propagateToOuter; by destruct passed.
Qed.

Lemma noWrappers_teeAndCollect (passed : bool) (inner : UseCacheStore)
    (startTime : Z) (errors : list JsError) (s : Stream) (st : State) :
  tracked s = false → noWrappers st →
  noWrappers (teeAndCollect passed inner startTime errors s st).2.
Proof.
  intros Hs H. unfold teeAndCollect. cbn [snd].
  apply noWrappers_collectResult, noWrappers_tee. by apply noWrappers_newStream.
Qed.

Lemma noWrappers_generateCacheEntry (passed : bool) (r : Rendering) (st : State) :
  noWrappers st → noWrappers (generateCacheEntry passed r st).2.
Proof.
  intros H. unfold generateCacheEntry.
  set (inner := mkUseCacheStore _ _ _ _ _ _ _ _ _). set (st1 := emit _ st).
  assert (H1 : noWrappers st1) by (by apply (noWrappers_same st)).
  destruct (isPrerender (outerStore passed st1)) eqn:Hpre.
  - destruct (decide (prerenderEnd r = ByTimeout)) as [Ht|Ht];
      [|destruct (decide (prerenderEnd r = ByDynamicAccess)) as [Hd|Hd]].
    + rewrite generateCacheEntryImpl_timeout by done.
      apply noWrappers_teeAndCollect; [done|]. by apply (noWrappers_same st1).
    + rewrite generateCacheEntryImpl_dynamic by done. cbn [snd].
      destruct (cacheSignalOf _); [by apply (noWrappers_same st1)|done].
    + rewrite generateCacheEntryImpl_prelude by done.
      by apply noWrappers_teeAndCollect.
  - rewrite generateCacheEntryImpl_normal by done.
    apply noWrappers_teeAndCollect; [|done]. by destruct (r_completesAt r).
Qed.

Lemma noWrappers_cloneCacheEntry (r : nat) (st : State) :
  noWrappers st → noWrappers (cloneCacheEntry r st).2.
Proof.
  intros H. unfold cloneCacheEntry. destruct (entries st !! r) as [e|]; [|done].
  cbn [snd]. eapply noWrappers_same; [|apply (noWrappers_tee (value e) st H)]. done.
Qed.

Lemma noWrappers_saveGenerated (key : JsString) (pending : option nat) (st : State) :
  noWrappers st → noWrappers (saveGenerated key pending st).
Proof.
  intros H. unfold saveGenerated.
  destruct (workUnitStore st ≫= wu_prerenderResumeDataCache) as [c|];
    [destruct pending as [entry|]|]; cbn [fst snd];
    try (by apply (noWrappers_same st)).
  eapply noWrappers_same; [|apply (noWrappers_cloneCacheEntry entry st H)]. done.
Qed.

Lemma noWrappers_missPath (inv : Invocation) (key : JsString) (st : State) :
  noWrappers st → noWrappers (missPath inv key st).2.
Proof.
  intros H. unfold missPath. cbn zeta.
  pose proof (noWrappers_generateCacheEntry true (rendering inv) st H) as Hg.
  destruct (generateCacheEntry true (rendering inv) st).1; cbn [snd]; [|exact Hg].
  destruct (negb _); [|exact Hg]. by apply noWrappers_saveGenerated.
Qed.

Lemma noWrappers_serveHit (key : JsString) (r : nat)
    (e : CacheEntryOf nat (list Tag)) (st : State) :
  cacheSignalOf (workUnitStore st) = false →
  noWrappers st → noWrappers (serveHit key r e st).2.
Proof.
  intros Hcs H. unfold serveHit. rewrite Hcs. autorewrite with store.
  destruct (propagateCacheLifeAndTags (workUnitStore st) e
            ≫= wu_prerenderResumeDataCache) as [c|]; cbn [fst snd].
  - set (st1 := set_workUnitStore st _).
    assert (H1 : noWrappers st1) by (by apply (noWrappers_same st)).
    eapply noWrappers_same; [|apply (noWrappers_cloneCacheEntry r st1 H1)]. done.
  - by apply (noWrappers_same st).
Qed.

Lemma noWrappers_hitPath (inv : Invocation) (key : JsString) (r : nat)
    (e : CacheEntryOf nat (list Tag)) (st : State) :
  cacheSignalOf (workUnitStore st) = false →
  noWrappers st → noWrappers (hitPath inv key r e st).2.
Proof.
  intros Hcs H. unfold hitPath. cbn zeta.
  pose proof (noWrappers_serveHit key r e st Hcs H) as Hs.
  destruct (currentTime inv >? _); [|exact Hs].
  destruct (generateCacheEntry_unpassed_cached (rendering inv) (serveHit key r e st).2)
    as (ignored & pending & Hres).
  rewrite Hres. cbn [snd].
  by apply noWrappers_saveGenerated, noWrappers_generateCacheEntry.
Qed.

(** ** Outside a prerender *)

Lemma cacheSignalOf_outside (o : option WorkUnitStore) :
  isPrerender o = false → cacheSignalOf o = false.
Proof.
  intros H. destruct (cacheSignalOf o) eqn:Hc; [|done].
  apply cacheSignalOf_isPrerender in Hc. congruence.
Qed.

Lemma resumeLookup_outside (key : JsString) (st : State) :
  isPrerender (workUnitStore st) = false →
  (∀ reason, (resumeLookup key st).1 ≠ Return (HangingPromise reason))
  ∧ log (resumeLookup key st).2 = log st
  ∧ (noWrappers st → noWrappers (resumeLookup key st).2).
Proof.
  intros Hpre. pose proof (cacheSignalOf_outside _ Hpre) as Hcs.
  unfold resumeLookup. cbn zeta. rewrite Hcs.
  destruct (workUnitStore st ≫= wu_renderResumeDataCache) as [c|]; [|done].
  destruct (resumeDataCacheGet c key st) as [cachedEntry|].
  - destruct (cachedEntry ≫= _) as [[existing existingEntry]|]; [|done].
    unfold isDynamicEntry. autorewrite with store.
    rewrite propagate_isPrerender, Hpre. cbn [andb fst snd].
    split_and!; [done|by autorewrite with store|].
    intros H. set (st2 := set_workUnitStore st _).
    assert (H2 : noWrappers st2) by (by apply (noWrappers_same st)).
    eapply noWrappers_same; [|apply (noWrappers_tee (value existingEntry) st2 H2)].
    done.
  - destruct (workUnitStore st) as [w|]; [|done].
    unfold isPrerender in Hpre. rewrite Hpre. done.
Qed.

Lemma generateCacheEntry_outside (passed : bool) (r : Rendering) (st : State) :
  isPrerender (outerStore passed st) = false →
  ∃ stream pending, (generateCacheEntry passed r st).1 = Cached stream pending.
Proof.
  intros Hpre. unfold generateCacheEntry.
  rewrite generateCacheEntryImpl_normal by done.
  unfold teeAndCollect. cbn [fst]. eauto.
Qed.

Lemma saves_no_read (l : list Event) :
  Forall (λ ev, isSaveEvent ev = true) l → countEvents isRead l = 0%nat.
Proof. apply countEvents_Forall. by intros []. Qed.

Lemma missPath_outside (inv : Invocation) (key : JsString) (st : State) :
  isPrerender (workUnitStore st) = false →
  ∃ stream l,
    (missPath inv key st).1 = Next stream
    ∧ log (missPath inv key st).2 = log st ++ l
    ∧ countEvents isRead l = 0%nat.
Proof.
  intros Hpre. pose proof (cacheSignalOf_outside _ Hpre) as Hcs.
  destruct (missPath_log inv key st) as (sets & Hlog & Hsets & _).
  rewrite Hcs in Hlog.
  destruct (generateCacheEntry_outside true (rendering inv) st Hpre)
    as (stream & pending & Hres).
  exists stream. eexists. split_and!; [|exact Hlog|].
  - unfold missPath. cbn zeta. by rewrite Hres.
  - cbn [app countEvents isRead isBeginRead isEndRead orb]. by apply saves_no_read.
Qed.

Lemma hitPath_outside (inv : Invocation) (key : JsString) (r : nat)
    (e : CacheEntryOf nat (list Tag)) (st : State) :
  isPrerender (workUnitStore st) = false →
  ∃ stream l,
    (hitPath inv key r e st).1 = Next stream
    ∧ log (hitPath inv key r e st).2 = log st ++ l
    ∧ countEvents isRead l = 0%nat.
Proof.
  intros Hpre. pose proof (cacheSignalOf_outside _ Hpre) as Hcs.
  destruct (serveHit_log key r e st) as (clone & Hlog). rewrite Hcs in Hlog.
  unfold hitPath. cbn zeta. exists (serveHit key r e st).1.
  destruct (currentTime inv >? _).
  - destruct (generateCacheEntry_unpassed_cached (rendering inv)
                (serveHit key r e st).2) as (ignored & pending & Hres).
    rewrite Hres. cbn [fst snd].
    destruct (saveGenerated_log key pending
                (generateCacheEntry false (rendering inv) (serveHit key r e st).2).2)
      as (clone' & Hsave).
    pose proof (generateCacheEntry_log false (rendering inv) (serveHit key r e st).2)
      as Hgen.
    cbn [outerStore cacheSignalOf fmap option_fmap option_map] in Hgen.
    rewrite Hsave, Hgen, Hlog, <- !List.app_assoc.
    eexists. split_and!; [reflexivity|reflexivity|].
    rewrite !countEvents_app.
    destruct (workUnitStore st ≫= wu_prerenderResumeDataCache),
             (workUnitStore (generateCacheEntry false (rendering inv)
                               (serveHit key r e st).2).2
              ≫= wu_prerenderResumeDataCache); reflexivity.
  - cbn [fst snd]. rewrite Hlog. eexists. split_and!; [reflexivity|reflexivity|].
    by destruct (workUnitStore st ≫= wu_prerenderResumeDataCache).
Qed.

Lemma handlerLookup_outside (inv : Invocation) (key : JsString) (st : State) :
  isPrerender (workUnitStore st) = false →
  ∃ stream l,
    (handlerLookup inv key st).1 = Next stream
    ∧ log (handlerLookup inv key st).2 = log st ++ l
    ∧ countEvents isRead l = 0%nat
    ∧ (noWrappers st → noWrappers (handlerLookup inv key st).2).
Proof.
  intros Hpre. pose proof (cacheSignalOf_outside _ Hpre) as Hcs.
  unfold handlerLookup. cbn zeta. rewrite Hcs.
  set (got := if shouldForceRevalidate (workStore st) (workUnitStore st)
              then (None, st) else _).
  assert (Hg : ∃ lg, log got.2 = log st ++ lg ∧ countEvents isRead lg = 0%nat
                     ∧ workUnitStore got.2 = workUnitStore st
                     ∧ streams got.2 = streams st).
  { subst got. destruct (shouldForceRevalidate _ _); cbn [snd].
    - exists []. by rewrite List.app_nil_r.
    - eexists. autorewrite with store. by split_and!. }
  destruct Hg as (lg & Hlg & Hrg & Hwg & Hsg).
  assert (Hpre' : isPrerender (workUnitStore got.2) = false) by (by rewrite Hwg).
  assert (Hcs' : cacheSignalOf (workUnitStore got.2) = false) by (by rewrite Hwg).
  assert (Hmiss : ∃ stream l,
             (missPath inv key got.2).1 = Next stream
             ∧ log (missPath inv key got.2).2 = log st ++ l
             ∧ countEvents isRead l = 0%nat
             ∧ (noWrappers st → noWrappers (missPath inv key got.2).2)).
  { destruct (missPath_outside inv key got.2 Hpre') as (stream & l & Hn & Hl & Hr).
    exists stream, (lg ++ l). rewrite Hl, Hlg, <- List.app_assoc.
    split_and!; [done|done|by apply countEvents_zero_app|].
    intros H. by apply noWrappers_missPath, (noWrappers_same st). }
  destruct got.1 as [[r e]|]; [|exact Hmiss].
  destruct (shouldDiscardCacheEntry _ _ _ _); [exact Hmiss|].
  unfold isDynamicEntry. rewrite Hpre'. cbn [andb].
  destruct (_ || _); [exact Hmiss|].
  destruct (hitPath_outside inv key r e got.2 Hpre') as (stream & l & Hn & Hl & Hr).
  exists stream, (lg ++ l). rewrite Hl, Hlg, <- List.app_assoc.
  split_and!; [done|done|by apply countEvents_zero_app|].
  intros H. by apply noWrappers_hitPath, (noWrappers_same st).
Qed.

Lemma decode_untracked (stream : nat) (st : State) :
  noWrappers st → log (decode stream st).2 = log st.
Proof. intros H. unfold decode. rewrite (H stream). by autorewrite with store. Qed.

(** X7.  Outside a prerender, and where no stream of the store is a tracked
    one, an invocation never returns the hanging promise and never begins
    or ends a read of a cache signal. *)
Theorem no_hanging_promise_outside_prerender (inv : Invocation) (st : State) :
  isPrerender (workUnitStore st) = false →
  noWrappers st →
  (∀ reason, (cache inv st).1 ≠ HangingPromise reason)
  ∧ ∃ l, log (cache inv st).2 = log st ++ l ∧ countEvents isRead l = 0%nat.
Proof.
  intros Hpre Hnw. unfold cache. rewrite Hpre. cbn [andb]. cbn zeta.
  set (key := match encodedCacheKeyParts inv with inl s => s | inr f => _ end).
  destruct (resumeLookup_outside key st Hpre) as (Hno & Hlog & Hnw').
  specialize (Hnw' Hnw).
  destruct (resumeLookup_context key st) as [Hshape _].
  pose proof (unitShape_isPrerender _ _ Hshape) as Hpre'. rewrite Hpre in Hpre'.
  destruct (resumeLookup key st).1 as [o|[stream|]].
  - cbn [fst snd]. split.
    + intros reason ->. by apply (Hno reason).
    + exists []. by rewrite List.app_nil_r.
  - split; [done|]. exists []. by rewrite decode_untracked, List.app_nil_r.
  - destruct (handlerLookup_outside inv key _ Hpre')
      as (stream & l & Hn & Hl & Hr & Hnw'').
    rewrite Hn. split; [done|]. exists l.
    by rewrite decode_untracked, Hl, Hlog by (by apply Hnw'').
Qed.

(** ** Filling and reading the resume data cache *)














Lemma handlerLookup_log (inv : Invocation) (key : JsString) (st : State) :
  ∃ l, log (handlerLookup inv key st).2 = log st ++ l.
Proof.
  destruct (handlerLookup_cases inv key st)
    as (st0 & l0 & Hl0 & _ & _ & [(st1 & l1 & -> & Hl1 & _)|[->|(r & e & ->)]]).
  - exists (l0 ++ l1). cbn [snd]. by rewrite Hl1, Hl0, <- List.app_assoc.
  - destruct (missPath_log inv key st0) as (sets & Hlog & _).
    eexists. rewrite Hlog, Hl0, <- List.app_assoc. reflexivity.
  - destruct (hitPath_log inv key r e st0) as (l & Hlog & _).
    exists (l0 ++ l). by rewrite Hlog, Hl0, <- List.app_assoc.
Qed.



(** ** The entry that a generation collects *)





(** ** The cache life profile of a generation *)




(** ** The arguments of a cached function *)






(** X12.  The bound arguments.  A function that declares none keeps its
    arguments; one that declares [n] of them succeeds exactly when there is
    a first argument that decrypts to an array of [n] elements, and then
    that array takes the place of the first argument and nothing else
    changes. *)
Theorem bound_arguments_checked (boundArgsLength : Z)
    (decrypt : JsValue → option JsValue) (args : list JsValue) :
  (boundArgsLength ≤ 0 → withBoundArgs boundArgsLength decrypt args = inr args)
  ∧ (0 < boundArgsLength →
     ∀ args',
       withBoundArgs boundArgsLength decrypt args = inr args'
       ↔ ∃ encrypted rest boundArgs,
           args = encrypted :: rest
           ∧ decrypt encrypted = Some (VArray boundArgs)
           ∧ Z.of_nat (length boundArgs) = boundArgsLength
           ∧ args' = VArray boundArgs :: rest)
  ∧ (∀ args', withBoundArgs boundArgsLength decrypt args = inr args' →
              length args' = length args).
Proof.
  unfold withBoundArgs. split_and!.
  - intros H. by rewrite gtb_false.
  - intros H args'. rewrite gtb_true by done.
    destruct args as [|encrypted rest].
    { split; [done|]. by intros (? & ? & ? & ? & _). }
    destruct (decrypt encrypted) as [[| | | | |boundArgs|]|] eqn:Hd;
      try (split; [done|]; intros (? & ? & ? & [= <- <-] & Hd' & _); congruence).
    case_bool_decide as Hlen.
    + split; [done|]. intros (? & ? & ? & [= <- <-] & Hd' & Hl & _).
      rewrite Hd in Hd'. injection Hd' as <-. by destruct Hlen.
    + split.
      * intros [= <-]. exists encrypted, rest, boundArgs.
        split_and!; [done|done|by symmetry|done].
      * intros (? & ? & ? & [= <- <-] & Hd' & _ & ->). congruence.
  - intros args'. destruct (boundArgsLength >? 0); [|by intros [= <-]].
    destruct args as [|encrypted rest]; [done|].
    destruct (decrypt encrypted) as [[| | | | |boundArgs|]|]; try done.
    case_bool_decide; [done|]. by intros [= <-].
Qed.

(** ** The headers of a server action *)

Lemma lit_length (s : string) : length (lit s) = String.length s.
Proof.
  unfold lit. rewrite length_fmap.
  induction s as [|a s IH]; [done|]. cbn. by rewrite IH.
Qed.

(** X13.  A header value is cut for the logs at 100 code units and marked with
    three dots: the result never has more than 103 code units, starts as
    the value does, is the value itself when that has at most 100 code
    units, and cutting twice is cutting once. *)
Theorem limitUntrustedHeaderValueForLogs_bounded (value : JsString) :
  (length (limitUntrustedHeaderValueForLogs value) ≤ 103)%nat
  ∧ take 100 (limitUntrustedHeaderValueForLogs value) = take 100 value
  ∧ ((length value ≤ 100)%nat → limitUntrustedHeaderValueForLogs value = value)
  ∧ limitUntrustedHeaderValueForLogs (limitUntrustedHeaderValueForLogs value)
    = limitUntrustedHeaderValueForLogs value.
Proof.
  unfold limitUntrustedHeaderValueForLogs.
  destruct (Nat.ltb_spec 100 (length value)) as [Hlong|Hshort].
  - assert (Hlen : length (take 100 value ++ lit "...") = 103%nat).
    { rewrite length_app, length_take, lit_length.
      change (String.length "...") with 3%nat. lia. }
    split_and!.
    + lia.
    + rewrite take_app_le by (rewrite length_take; lia).
      by rewrite take_take.
    + lia.
    + rewrite Hlen. cbn [Nat.ltb Nat.leb].
      rewrite take_app_le by (rewrite length_take; lia).
      by rewrite take_take.
  - split_and!; [lia|done|done|].
    destruct (Nat.ltb_spec 100 (length value)); [lia|done].
Qed.

Lemma dropWhile_head {A : Type} (p : A → bool) (l : list A) :
  match dropWhile p l with
  | [] => True
  | x :: _ => p x = false
  end.
Proof.
  induction l as [|x l IH]; [done|]. cbn. by destruct (p x) eqn:Hx; [|rewrite Hx].
Qed.

Lemma takeWhile_Forall {A : Type} (p : A → bool) (l : list A) :
  Forall (λ x, p x = true) (takeWhile p l).
Proof.
  induction l as [|x l IH]; [constructor|]. cbn.
  destruct (p x) eqn:Hx; by constructor.
Qed.

Lemma takeWhile_dropWhile {A : Type} (p : A → bool) (l : list A) :
  takeWhile p l ++ dropWhile p l = l.
Proof.
  induction l as [|x l IH]; [done|]. cbn. destruct (p x); [|done].
  cbn. by rewrite IH.
Qed.

Lemma dropWhile_tail {A : Type} (p : A → bool) (l : list A) :
  match dropWhile (λ x, negb (p x)) l with
  | [] => True
  | x :: _ => p x = true
  end.
Proof.
  pose proof (dropWhile_head (λ x, negb (p x)) l) as H.
  destruct (dropWhile _ l) as [|x rest]; [done|]. by apply negb_false_iff.
Qed.

Lemma trim_split (s : JsString) :
  ∃ before after,
    s = before ++ trim s ++ after
    ∧ Forall (λ c, isWhiteSpace c = true) before
    ∧ Forall (λ c, isWhiteSpace c = true) after.
Proof.
  unfold trim.
  set (d := dropWhile isWhiteSpace s).
  exists (takeWhile isWhiteSpace s), (reverse (takeWhile isWhiteSpace (reverse d))).
  split_and!.
  - rewrite <- reverse_app, takeWhile_dropWhile, reverse_involutive.
    subst d. by rewrite takeWhile_dropWhile.
  - apply takeWhile_Forall.
  - apply Forall_reverse, takeWhile_Forall.
Qed.

Lemma trim_ends (s : JsString) :
  match trim s with
  | [] => True
  | c :: _ => isWhiteSpace c = false
  end
  ∧ match reverse (trim s) with
    | [] => True
    | c :: _ => isWhiteSpace c = false
    end.
Proof.
  unfold trim. rewrite reverse_involutive. split; [|apply dropWhile_head].
  pose proof (dropWhile_head isWhiteSpace s) as Hhead.
  set (d := dropWhile isWhiteSpace s) in *.
  pose proof (takeWhile_dropWhile isWhiteSpace (reverse d)) as Hk.
  set (t := dropWhile isWhiteSpace (reverse d)) in *.
  apply (f_equal reverse) in Hk. rewrite reverse_involutive, reverse_app in Hk.
  destruct (reverse t) as [|c' rest'] eqn:Ht; [done|].
  rewrite <- Hk in Hhead. exact Hhead.
Qed.

(** X14.  The host that the origin is compared with.  Without an origin domain
    the value is the first element of an array-valued [x-forwarded-host],
    or the trimmed first comma-separated part of a string-valued one, or
    else the [host] header; it is never empty, and the forwarded host wins
    whenever it is not empty.  With an origin domain the value is that
    domain, or there is no host. *)
Theorem parseHostHeader_value (headers : IncomingHttpHeaders)
    (originDomain : option JsString) :
  (nonEmpty originDomain = true →
   ∀ host, parseHostHeader headers originDomain = Some host →
           Some (host_value host) = originDomain)
  ∧ (nonEmpty originDomain = false →
     (parseHostHeader headers originDomain = None
      ↔ nonEmpty (forwardedHostHeaderValue (h_xForwardedHost headers)) = false
        ∧ nonEmpty (h_host headers) = false)
     ∧ ∀ host, parseHostHeader headers originDomain = Some host →
         host_value host ≠ []
         ∧ (host_type host = XForwardedHost
            ↔ nonEmpty (forwardedHostHeaderValue (h_xForwardedHost headers)) = true)
         ∧ (host_type host = XForwardedHost →
            Some (host_value host)
            = forwardedHostHeaderValue (h_xForwardedHost headers))
         ∧ (host_type host = HostHeader → Some (host_value host) = h_host headers))
  ∧ (∀ s, h_xForwardedHost headers = Some (HeaderString s) →
     ∃ v before after rest,
       forwardedHostHeaderValue (h_xForwardedHost headers) = Some v
       ∧ s = before ++ v ++ after ++ rest
       ∧ Forall (λ c, isWhiteSpace c = true) before
       ∧ Forall (λ c, isWhiteSpace c = true) after
       ∧ match rest with [] => True | c :: _ => c = comma end
       ∧ comma ∉ v
       ∧ match v with [] => True | c :: _ => isWhiteSpace c = false end
       ∧ match reverse v with [] => True | c :: _ => isWhiteSpace c = false end).
Proof.
  unfold parseHostHeader. cbn zeta.
  set (fwd := forwardedHostHeaderValue (h_xForwardedHost headers)).
  split_and!.
  - intros Ho host. rewrite Ho.
    case_bool_decide as Hf.
    + destruct fwd as [v|]; [|done]. intros [= <-]. exact Hf.
    + case_bool_decide as Hh; [|done].
      destruct (h_host headers) as [v|]; [|done]. intros [= <-]. exact Hh.
  - intros Ho. rewrite Ho. split.
    + destruct (nonEmpty fwd) eqn:Hf.
      * destruct fwd; [|done]. split; [done|]. by intros [? _].
      * destruct (nonEmpty (h_host headers)) eqn:Hh; [|done].
        destruct (h_host headers); [|done]. split; [done|]. by intros [_ ?].
    + intros host. destruct (nonEmpty fwd) eqn:Hf.
      * destruct fwd as [[|c v]|]; try done. intros [= <-]. by split_and!.
      * destruct (nonEmpty (h_host headers)) eqn:Hh; [|done].
        destruct (h_host headers) as [[|c v]|]; try done. intros [= <-].
        by split_and!.
  - intros s Hs. subst fwd. rewrite Hs. cbn [forwardedHostHeaderValue].
    destruct (trim_split (firstSegment s)) as (before & after & Hsplit & Hb & Ha).
    destruct (trim_ends (firstSegment s)) as [Hfirst Hlast].
    pose proof (takeWhile_dropWhile (λ c, negb (c =? comma)%N) s) as Hseg.
    pose proof (dropWhile_tail (λ c, (c =? comma)%N) s) as Hrest.
    pose proof (takeWhile_Forall (λ c, negb (c =? comma)%N) s) as Hall.
    fold (firstSegment s) in Hseg, Hall.
    exists (trim (firstSegment s)), before, after,
           (dropWhile (λ c, negb (c =? comma)%N) s).
    split_and!; [done| |done|done| | |exact Hfirst|exact Hlast].
    + rewrite <- Hseg at 1. rewrite Hsplit at 1. by rewrite <- !List.app_assoc.
    + destruct (dropWhile _ s) as [|c rest]; [done|]. by apply N.eqb_eq.
    + intros Hin. rewrite Forall_forall in Hall.
      assert (Hin' : comma ∈ firstSegment s).
      { rewrite Hsplit. rewrite !elem_of_app. right. by left. }
      specialize (Hall _ Hin'). cbn beta in Hall. by rewrite N.eqb_refl in Hall.
Qed.

(** ** The checks before a server action runs *)

Lemma limit_length (value : JsString) :
  (length (limitUntrustedHeaderValueForLogs value) ≤ 103)%nat.
Proof.
  unfold limitUntrustedHeaderValueForLogs.
  destruct (Nat.ltb_spec 100 (length value)); [|lia].
  rewrite length_app, length_take, lit_length.
  change (String.length "...") with 3%nat. lia.
Qed.

(** X15.  The check of the origin.  The handler goes on to the action only when
    the request may be a server action outside a static generation and
    either has no origin domain (no [origin] header that is a string, or
    one whose URL has an empty host: then with a warning), or the origin
    domain is the value of the host that [parseHostHeader] finds, or
    [isCsrfOriginAllowed] accepts it.  A request that it rejects is logged
    with one line of at most 366 code units, however long the headers are;
    nothing else is logged. *)
Theorem origin_checked_before_action
    (urlHost : JsString → option JsString)
    (isCsrfOriginAllowed : JsString → option (list JsString) → bool)
    (isPossibleServerAction isFetchAction isStaticGeneration : bool)
    (headers : IncomingHttpHeaders) (allowedOrigins : option (list JsString)) :
  (∀ warning,
     (handleActionPrelude urlHost isCsrfOriginAllowed isPossibleServerAction
        isFetchAction isStaticGeneration headers allowedOrigins).1
     = Proceeds warning →
     isPossibleServerAction = true ∧ isStaticGeneration = false
     ∧ match h_origin headers with
       | Some (HeaderString origin) =>
           ∃ originDomain,
             urlHost origin = Some originDomain
             ∧ ((originDomain = [] ∧ warning = Some missingOriginWarning)
                ∨ (warning = None
                   ∧ ((∃ host, parseHostHeader headers None = Some host
                               ∧ host_value host = originDomain)
                      ∨ isCsrfOriginAllowed originDomain allowedOrigins = true)))
       | _ => warning = Some missingOriginWarning
       end)
  ∧ Forall (λ line, (length line ≤ 366)%nat)
      (handleActionPrelude urlHost isCsrfOriginAllowed isPossibleServerAction
         isFetchAction isStaticGeneration headers allowedOrigins).2
  ∧ ((handleActionPrelude urlHost isCsrfOriginAllowed isPossibleServerAction
        isFetchAction isStaticGeneration headers allowedOrigins).2 ≠ []
     ↔ (handleActionPrelude urlHost isCsrfOriginAllowed isPossibleServerAction
          isFetchAction isStaticGeneration headers allowedOrigins).1
       = (if isFetchAction then Aborted else Thrown InvalidServerActionsRequest)).
Proof.
  unfold handleActionPrelude.
  destruct isPossibleServerAction; cbn [negb];
    [|split_and!; [done|done|by destruct isFetchAction]].
  destruct isStaticGeneration;
    [split_and!; [done|done|by destruct isFetchAction]|].
  cbn zeta.
  destruct (h_origin headers) as [[origin|items]|];
    try (cbn [nonEmpty negb fst snd];
         split_and!; [by intros ? [= <-]|done|by destruct isFetchAction]).
  destruct (urlHost origin) as [[|c originDomain]|];
    [cbn [nonEmpty negb fst snd]; split_and!;
       [intros ? [= <-]; split_and!; [done|done|]; eexists; split; [done|by left]
       |done|by destruct isFetchAction]
    | |split_and!; [done|done|by destruct isFetchAction]].
  cbn [nonEmpty negb default from_option id].
  destruct (parseHostHeader headers None) as [host|] eqn:Hhost.
  - case_bool_decide as Hne.
    + destruct (isCsrfOriginAllowed _ allowedOrigins) eqn:Hallowed; cbn [fst snd].
      * split_and!; [|done|by destruct isFetchAction].
        intros ? [= <-]. split_and!; [done|done|].
        eexists. split; [done|]. right. split; [done|by right].
      * split_and!; [by destruct isFetchAction| |done].
        constructor; [|done]. unfold mismatchMessage.
        rewrite !length_app, !lit_length.
        pose proof (limit_length (host_value host)).
        pose proof (limit_length (c :: originDomain)).
        assert (length (hostTypeName (host_type host)) ≤ 16)%nat.
        { unfold hostTypeName. destruct (host_type host); rewrite lit_length; cbn; lia. }
        cbn [String.length]. lia.
    + cbn [fst snd]. split_and!; [|done|by destruct isFetchAction].
      intros ? [= <-]. split_and!; [done|done|].
      eexists. split; [done|]. right. split; [done|]. left.
      exists host. split; [done|]. by symmetry.
  - destruct (isCsrfOriginAllowed _ allowedOrigins) eqn:Hallowed; cbn [fst snd].
    + split_and!; [|done|by destruct isFetchAction].
      intros ? [= <-]. split_and!; [done|done|].
      eexists. split; [done|]. right. split; [done|by right].
    + split_and!; [by destruct isFetchAction| |done].
      constructor; [|done]. unfold missingHostMessage. rewrite lit_length.
      cbn [String.length]. lia.
Qed.

(** ** The size limit of the body of a server action *)

Lemma byteLength_cons (chunk : Chunk) (rest : list Chunk) :
  byteLength (chunk :: rest) = Z.of_nat (length chunk) + byteLength rest.
Proof. reflexivity. Qed.

Lemma byteLength_nonneg (chunks : list Chunk) : 0 ≤ byteLength chunks.
Proof.
  induction chunks as [|c r IH]; [done|]. rewrite byteLength_cons. lia.
Qed.

Lemma sizeLimitTransform_spec (limit size : Z) (chunks : list Chunk) :
  (sizeLimitTransform limit size chunks).1 `prefix_of` chunks
  ∧ ((sizeLimitTransform limit size chunks).1 ≠ [] →
     size + byteLength (sizeLimitTransform limit size chunks).1 ≤ limit)
  ∧ ((sizeLimitTransform limit size chunks).2 = false →
     (sizeLimitTransform limit size chunks).1 = chunks)
  ∧ ((sizeLimitTransform limit size chunks).2 = true →
     ∃ chunk rest,
       chunks = (sizeLimitTransform limit size chunks).1 ++ chunk :: rest
       ∧ limit < size + byteLength (sizeLimitTransform limit size chunks).1
                 + Z.of_nat (length chunk))
  ∧ (size + byteLength chunks ≤ limit →
     sizeLimitTransform limit size chunks = (chunks, false)).
Proof.
  revert size. induction chunks as [|chunk rest IH]; intros size;
    cbn [sizeLimitTransform].
  { split_and!; try done. }
  destruct (Z.gtb_spec (size + Z.of_nat (length chunk)) limit) as [Hover|Hfits].
  - cbn [fst snd]. split_and!; try done.
    + apply prefix_nil.
    + intros _. exists chunk, rest. split; [done|].
      change (byteLength []) with 0. lia.
    + intros H. rewrite byteLength_cons in H.
      pose proof (byteLength_nonneg rest). lia.
  - destruct (IH (size + Z.of_nat (length chunk)))
      as (Hprefix & Hbound & Hall & Herr & Hfit).
    cbn [fst snd]. split_and!.
    + by apply prefix_cons.
    + intros _. rewrite byteLength_cons.
      destruct (sizeLimitTransform limit _ rest).1 as [|c r] eqn:Hout.
      * change (byteLength []) with 0. lia.
      * specialize (Hbound ltac:(done)). lia.
    + intros H. by rewrite Hall.
    + intros H. destruct (Herr H) as (c & r & Hsplit & Hover).
      exists c, r. split; [by rewrite Hsplit at 1|].
      rewrite byteLength_cons. lia.
    + intros H. rewrite byteLength_cons in H. by rewrite Hfit by lia.
Qed.

(** X16.  The body of an action that passes the size limit.  The chunks that
    the transform passes on are the first chunks of the body, unchanged;
    together they are never larger than the limit; all of them pass when
    the body is within the limit; and when the transform ends with the
    error, the chunk after the ones passed is the first with which the
    body exceeds the limit. *)
Theorem body_size_limit (bodySizeLimitBytes : Z) (chunks : list Chunk) :
  (sizeLimitTransform bodySizeLimitBytes 0 chunks).1 `prefix_of` chunks
  ∧ ((sizeLimitTransform bodySizeLimitBytes 0 chunks).1 ≠ [] →
     byteLength (sizeLimitTransform bodySizeLimitBytes 0 chunks).1
     ≤ bodySizeLimitBytes)
  ∧ ((sizeLimitTransform bodySizeLimitBytes 0 chunks).2 = false
     ↔ (sizeLimitTransform bodySizeLimitBytes 0 chunks).1 = chunks)
  ∧ ((sizeLimitTransform bodySizeLimitBytes 0 chunks).2 = true →
     ∃ chunk rest,
       chunks = (sizeLimitTransform bodySizeLimitBytes 0 chunks).1 ++ chunk :: rest
       ∧ bodySizeLimitBytes
         < byteLength (sizeLimitTransform bodySizeLimitBytes 0 chunks).1
           + Z.of_nat (length chunk))
  ∧ (byteLength chunks ≤ bodySizeLimitBytes →
     sizeLimitTransform bodySizeLimitBytes 0 chunks = (chunks, false)).
Proof.
  destruct (sizeLimitTransform_spec bodySizeLimitBytes 0 chunks)
    as (Hprefix & Hbound & Hall & Herr & Hfit).
  split_and!; [done|done| |done|done].
  split; [done|]. intros Heq.
  destruct (sizeLimitTransform bodySizeLimitBytes 0 chunks).2 eqn:H2; [|done].
  destruct (Herr eq_refl) as (c & r & Hsplit & _).
  rewrite Heq in Hsplit. apply (f_equal length) in Hsplit.
  rewrite length_app in Hsplit. cbn in Hsplit. lia.
Qed.

(** ** The action id in the error of React *)

Lemma stripPrefix_app (p s : JsString) : stripPrefix p (p ++ s) = Some s.
Proof.
  induction p as [|a p IH]; [by destruct s|]. cbn. by rewrite N.eqb_refl.
Qed.

Lemma stripPrefix_Some (p s rest : JsString) :
  stripPrefix p s = Some rest → s = p ++ rest.
Proof.
  revert s. induction p as [|a p IH]; intros s;
    [destruct s; cbn; by intros [= ->]|].
  destruct s as [|b s]; [done|]. cbn.
  destruct (N.eqb_spec a b) as [->|]; [|done]. intros H. by rewrite (IH s H).
Qed.

Lemma takeWhile_app_stop {A : Type} (p : A → bool) (l m : list A) :
  Forall (λ x, p x = true) l →
  match m with [] => True | x :: _ => p x = false end →
  takeWhile p (l ++ m) = l ∧ dropWhile p (l ++ m) = m.
Proof.
  intros Hl Hm. induction Hl as [|x l Hx _ [IH1 IH2]].
  - destruct m as [|x m]; [done|]. cbn. by rewrite Hm.
  - cbn. rewrite Hx. by rewrite IH1, IH2.
Qed.

Lemma matchHere_sound (s actionId : JsString) :
  matchHere s = Some actionId →
  actionId ≠ [] ∧ Forall (λ c, isHexDigit c = true) actionId
  ∧ ∃ c after,
      s = lit "Could not find the module " ++ [quote] ++ actionId ++ [quote]
          ++ lit " in the React Server Manifest" ++ c :: after
      ∧ isLineTerminator c = false.
Proof.
  unfold matchHere.
  destruct (stripPrefix _ s) as [rest|] eqn:Hprefix; [|done]. cbn [mbind option_bind].
  apply stripPrefix_Some in Hprefix.
  pose proof (takeWhile_Forall isHexDigit rest) as Hhex.
  pose proof (takeWhile_dropWhile isHexDigit rest) as Hsplit.
  destruct (takeWhile isHexDigit rest) as [|d ds] eqn:Hid; [done|].
  destruct (stripPrefix _ (dropWhile isHexDigit rest)) as [rest'|] eqn:Hsuffix;
    [|done].
  cbn [mbind option_bind]. apply stripPrefix_Some in Hsuffix.
  destruct rest' as [|c after]; [done|].
  destruct (isLineTerminator c) eqn:Hc; [done|]. intros [= <-].
  split_and!; [done|done|]. exists c, after. split; [|done].
  rewrite Hprefix, <- Hsplit, Hsuffix. by rewrite <- !List.app_assoc.
Qed.

Lemma matchHere_reactMessage (actionId rest : JsString) :
  actionId ≠ [] → Forall (λ c, isHexDigit c = true) actionId →
  matchHere (reactMessage actionId ++ rest) = Some actionId.
Proof.
  intros Hne Hhex. unfold matchHere, reactMessage.
  replace ((lit "Could not find the module " ++ [quote] ++ actionId ++ [quote]
            ++ lit " in the React Server Manifest.") ++ rest)
    with ((lit "Could not find the module " ++ [quote])
          ++ actionId ++ [quote] ++ lit " in the React Server Manifest." ++ rest)
    by (by rewrite <- !List.app_assoc).
  rewrite stripPrefix_app. cbn [mbind option_bind].
  destruct (takeWhile_app_stop isHexDigit actionId
              ([quote] ++ lit " in the React Server Manifest." ++ rest) Hhex)
    as [-> ->]; [done|].
  destruct actionId as [|d ds]; [done|].
  change (lit " in the React Server Manifest.")
    with (lit " in the React Server Manifest" ++ [46%N]).
  replace ([quote] ++ (lit " in the React Server Manifest" ++ [46%N]) ++ rest)
    with (([quote] ++ lit " in the React Server Manifest") ++ 46%N :: rest)
    by (by rewrite <- !List.app_assoc).
  by rewrite stripPrefix_app.
Qed.

Lemma firstMatch_sound (message actionId : JsString) :
  firstMatch message = Some actionId →
  ∃ before rest, message = before ++ rest ∧ matchHere rest = Some actionId.
Proof.
  induction message as [|c message IH]; cbn [firstMatch].
  - destruct (matchHere []) eqn:H; [|done]. intros [= <-]. by exists [], [].
  - destruct (matchHere (c :: message)) eqn:H.
    + intros [= <-]. by exists [], (c :: message).
    + intros (before & rest & -> & Hm)%IH. by exists (c :: before), rest.
Qed.

(** X17.  The action id that [getActionIdFromReactError] finds.  From an error
    whose message starts with React's sentence about a module with a
    hexadecimal name it returns exactly that name, whatever follows the
    sentence.  Whatever it returns is a non-empty hexadecimal string that
    stands in the message between the quotes of such a sentence.  A thrown
    value that is no [Error] gives [undefined]. *)
Theorem getActionIdFromReactError_finds_id :
  (∀ actionId rest,
     actionId ≠ [] → Forall (λ c, isHexDigit c = true) actionId →
     getActionIdFromReactError (ErrorObject (reactMessage actionId ++ rest))
     = Some actionId)
  ∧ (∀ err actionId,
       getActionIdFromReactError err = Some actionId →
       actionId ≠ [] ∧ Forall (λ c, isHexDigit c = true) actionId
       ∧ ∃ message before c after,
           err = ErrorObject message
           ∧ message
             = before ++ lit "Could not find the module " ++ [quote] ++ actionId
               ++ [quote] ++ lit " in the React Server Manifest" ++ c :: after
           ∧ isLineTerminator c = false)
  ∧ getActionIdFromReactError OtherValue = None.
Proof.
  split_and!; [| |done].
  - intros actionId rest Hne Hhex. cbn [getActionIdFromReactError].
    pose proof (matchHere_reactMessage actionId rest Hne Hhex) as Hm.
    destruct (reactMessage actionId ++ rest) as [|c m]; cbn [firstMatch];
      by rewrite Hm.
  - intros [message|] actionId; [|done]. cbn [getActionIdFromReactError].
    intros (before & rest & -> & Hm)%firstMatch_sound.
    destruct (matchHere_sound rest actionId Hm) as (Hne & Hhex & c & after & -> & Hc).
    split_and!; [done|done|]. eexists _, before, c, after. by split_and!.
Qed.

(** ** The properties at sample inputs *)

Lemma encodeFormData_injective_witness :
  stringified sampleFormOdd = stringified sampleFormText.
Proof.
  apply (encodeFormData_injective sampleFormOdd sampleFormText). reflexivity.
Defined.

Example encodeFormData_sample :
  encodeFormData [([107; 101; 121]%N, FormString [118; 97; 108; 117; 101]%N)]
  = [51; 58; 107; 101; 121; 53; 58; 118; 97; 108; 117; 101]%N
  ∧ toString16 26 = [49; 97]%N.
Proof. split; reflexivity. Qed.

(** C8, where the code departs from the claim.  The conversion pairs the
    bytes into 16-bit code units and gives a last odd byte a code unit of
    its own, but it is not lossless: the byte 0x41 alone and the bytes 0x41,
    0x00 give the same one-unit string, so that two forms that differ in a
    binary value flatten to the same key. *)
Theorem binaryToString_collision :
  binaryToString [Byte.x41; Byte.x42; Byte.x43] = [16961; 67]%N
  ∧ binaryToString [Byte.x41] = [65%N]
  ∧ binaryToString [Byte.x41; Byte.x00] = [65%N]
  ∧ stringified sampleFormOdd = stringified sampleFormEven
  ∧ encodeFormData sampleFormOdd = encodeFormData sampleFormEven.
Proof. repeat split; reflexivity. Qed.

(** C9, where the code departs from the claim.  Under a prerender with a
    cache signal, a hit in the resume data cache on an entry whose stream
    errors begins a read and never ends it: the wrapper of
    [createTrackedReadableStream] ends the read only when its source is
    done.  ([collectResult] catches the error of its stream and ends the
    read all the same.) *)
Theorem tracked_stream_error_leaves_read_open :
  let run := cache (sampleInvocation None 1000 sampleRendering) sampleErroredResume in
  run.1 = Decoded 3%nat
  ∧ log run.2 = [BeginRead]
  ∧ countEvents isBeginRead (log run.2) = 1%nat
  ∧ countEvents isEndRead (log run.2) = 0%nat.
Proof. vm_compute. repeat split; reflexivity. Qed.

Lemma cloneCacheEntry_shares_and_mutates_witness :
  ∃ clone st',
    cloneCacheEntry 0 (sampleObjects sampleWorkStore sampleRequestStore)
    = ((0%nat, clone), st')
    ∧ clone ≠ 0%nat
    ∧ arrays st' = arrays (sampleObjects sampleWorkStore sampleRequestStore).
Proof.
  destruct (cloneCacheEntry_shares_and_mutates
              (sampleObjects sampleWorkStore sampleRequestStore) 0
              (mkEntry 0%nat 1000 60 3600 30 0%nat)
              (mkStream [[Byte.x41]] Closed false false))
    as (a & b & clone & st' & Hc & _ & Hne & _ & _ & _ & _ & _ & _ & _ & _ & _ & Harr & _).
  - reflexivity.
  - reflexivity.
  - exists clone, st'. split_and!; assumption.
Defined.

Lemma tag_invalidation_precedence_witness :
  cache (sampleInvocation (Some 0%nat) 1000 sampleRendering)
        (sampleObjects sampleRevalidatedWorkStore sampleRequestStore)
  = cache (sampleInvocation None 1000 sampleRendering)
          (sampleObjects sampleRevalidatedWorkStore sampleRequestStore).
Proof.
  apply (tag_invalidation_precedence
           (sampleInvocation (Some 0%nat) 1000 sampleRendering)
           (sampleObjects sampleRevalidatedWorkStore sampleRequestStore)
           0 sampleView).
  - reflexivity.
  - reflexivity.
  - left. exists "a"%string. split; [by apply list_elem_of_singleton|].
    left. by apply list_elem_of_singleton.
Defined.

(** C3 as the specification states it fails: under a prerender (with a cache
    signal and an empty resume data cache), an entry of
    [revalidate] 0 that is past its expire window (written at 1 s, dead after
    3600 s, read at 4000 s) is not regenerated; the invocation returns the
    hanging promise. *)
Lemma expired_entry_counterexample :
  let inv := sampleInvocation (Some 0%nat) 4000000 sampleRendering in
  let st := sampleDynamicObjects sampleStaticWorkStore sampleResumingStore in
  shouldForceRevalidate (workStore st) (workUnitStore st) = false
  ∧ viewEntry 0 st = Some sampleDynamicView
  ∧ shouldDiscardCacheEntry sampleDynamicView (workStore st)
      (implicitTagsOf (workUnitStore st))
      (implicitTagsExpirationOf (workUnitStore st)) = false
  ∧ timestamp sampleDynamicView + expire sampleDynamicView * 1000 < currentTime inv
  ∧ (cache inv st).1 = HangingPromise DynamicUseCache
  ∧ countEvents isGenerate (log (cache inv st).2) = 0%nat
  ∧ handlerLookup inv sampleKey st ≠ handlerLookup (withHandlerEntry inv None) sampleKey st.
Proof.
  cbv zeta.
  split_and!;
    [reflexivity | reflexivity | reflexivity | vm_compute; reflexivity
    | reflexivity | reflexivity | vm_compute; discriminate].
Qed.

Lemma expired_entry_not_served_witness :
  handlerLookup (sampleInvocation (Some 0%nat) 4000000 sampleRendering) sampleKey
                (sampleObjects sampleWorkStore sampleRequestStore)
  = missPath (sampleInvocation (Some 0%nat) 4000000 sampleRendering) sampleKey
             (afterGet sampleKey (sampleObjects sampleWorkStore sampleRequestStore)).
Proof.
  destruct (expired_entry_not_served
              (sampleInvocation (Some 0%nat) 4000000 sampleRendering) sampleKey
              (sampleObjects sampleWorkStore sampleRequestStore) 0 sampleView)
    as [Hmiss _].
  - reflexivity.
  - reflexivity.
  - reflexivity.
  - reflexivity.
  - left. vm_compute. reflexivity.
  - apply Hmiss. reflexivity.
Defined.





(** ** The further properties at sample inputs *)


(** An on-demand revalidation gives the same outcome without the entry of the
    handler. *)
Lemma forced_revalidation_ignores_handler_witness :
  cache (withHandlerEntry (sampleInvocation (Some 0%nat) 1000 sampleRendering) None)
        (sampleObjects sampleOnDemandWorkStore sampleRequestStore)
  = cache (sampleInvocation (Some 0%nat) 1000 sampleRendering)
          (sampleObjects sampleOnDemandWorkStore sampleRequestStore).
Proof.
  apply (forced_revalidation_ignores_handler
           (sampleInvocation (Some 0%nat) 1000 sampleRendering)
           (sampleObjects sampleOnDemandWorkStore sampleRequestStore) None).
  reflexivity.
Defined.

(** In draft mode the invocation schedules no write. *)
Lemma draft_mode_saves_nothing_witness :
  pendingRevalidateWrites
    (workStore (cache (sampleInvocation (Some 0%nat) 1000 sampleRendering)
                      (sampleObjects sampleDraftWorkStore sampleRequestStore)).2)
  = None.
Proof.
  apply (draft_mode_saves_nothing
           (sampleInvocation (Some 0%nat) 1000 sampleRendering)
           (sampleObjects sampleDraftWorkStore sampleRequestStore)).
  reflexivity.
Defined.

(** A fresh entry of the handler is served and nothing is generated. *)
Lemma fresh_entry_served_without_generation_witness :
  ∃ stream,
    (handlerLookup (sampleInvocation (Some 0%nat) 2000 sampleRendering) sampleKey
                   (sampleObjects sampleWorkStore sampleRequestStore)).1 = Next stream
    ∧ countEvents isGenerate
        (log (handlerLookup (sampleInvocation (Some 0%nat) 2000 sampleRendering)
                            sampleKey
                            (sampleObjects sampleWorkStore sampleRequestStore)).2)
      = 0%nat.
Proof.
  destruct (fresh_entry_served_without_generation
              (sampleInvocation (Some 0%nat) 2000 sampleRendering) sampleKey
              (sampleObjects sampleWorkStore sampleRequestStore) 0 sampleView
              (mkStream [[Byte.x41]] Closed false false))
    as (stream & Hnext & _ & _ & Hgen & _).
  - reflexivity.
  - reflexivity.
  - reflexivity.
  - reflexivity.
  - reflexivity.
  - reflexivity.
  - vm_compute. discriminate.
  - vm_compute. discriminate.
  - exists stream. split; [exact Hnext|exact Hgen].
Defined.

(** Under a request store the invocation begins and ends no read. *)
Lemma no_hanging_promise_outside_prerender_witness :
  ∃ l,
    log (cache (sampleInvocation (Some 0%nat) 1000 sampleRendering)
               (sampleObjects sampleWorkStore sampleRequestStore)).2
    = log (sampleObjects sampleWorkStore sampleRequestStore) ++ l
    ∧ countEvents isRead l = 0%nat.
Proof.
  apply (no_hanging_promise_outside_prerender
           (sampleInvocation (Some 0%nat) 1000 sampleRendering)
           (sampleObjects sampleWorkStore sampleRequestStore)).
  - reflexivity.
  - intros r. unfold trackedOf. cbn [sampleObjects streams].
    destruct (decide (r = 0%nat)) as [->|Hr].
    + by rewrite lookup_singleton_eq.
    + by rewrite lookup_singleton_ne.
Defined.





(** The decrypted bound arguments replace the first argument. *)
Lemma bound_arguments_checked_witness :
  withBoundArgs 1 (λ _, Some (VArray [VNull])) [VString []; VNull]
  = inr [VArray [VNull]; VNull].
Proof.
  destruct (bound_arguments_checked 1 (λ _, Some (VArray [VNull]))
              [VString []; VNull]) as (_ & Hbound & _).
  apply Hbound; [done|]. by exists (VString []), [VNull], [VNull].
Defined.

(** The first host of x-forwarded-host, trimmed, is the host. *)
Lemma parseHostHeader_value_witness :
  ∃ host,
    parseHostHeader sampleHeaders None = Some host
    ∧ host_type host = XForwardedHost
    ∧ host_value host = lit "b.example".
Proof.
  destruct (parseHostHeader_value sampleHeaders None) as (_ & Hno & _).
  destruct (Hno eq_refl) as (_ & Hhost).
  destruct (Hhost (mkHost XForwardedHost (lit "b.example")) eq_refl)
    as (_ & _ & _ & _).
  by eexists.
Defined.

(** A fetch action whose origin differs from the host is aborted with one
    logged line. *)
Lemma origin_checked_before_action_witness :
  handleActionPrelude (λ _, Some (lit "evil.example")) (λ _ _, false)
    true true false sampleHeaders None
  = (Aborted,
     [mismatchMessage (mkHost XForwardedHost (lit "b.example")) (lit "evil.example")])
  ∧ Forall (λ line, (length line ≤ 366)%nat)
      (handleActionPrelude (λ _, Some (lit "evil.example")) (λ _ _, false)
         true true false sampleHeaders None).2.
Proof.
  split; [reflexivity|].
  apply (origin_checked_before_action (λ _, Some (lit "evil.example")) (λ _ _, false)
           true true false sampleHeaders None).
Defined.

(** The id is read from the message of React. *)
Lemma getActionIdFromReactError_finds_id_witness :
  getActionIdFromReactError
    (ErrorObject (reactMessage (lit "1a2B") ++ lit " This is probably a bug."))
  = Some (lit "1a2B").
Proof.
  apply (proj1 getActionIdFromReactError_finds_id); [done|].
  by repeat constructor.
Defined.
